(** * Writing assistant: analysis and suggestion engine

    A shallow embedding of the TypeScript sources of the writing assistant
    (the three Supabase edge functions [analyze-grammar],
    [analyze-readability] and [analyze-tone], the client-side
    [SuggestionEngine], the editor's handlers of a suggestion, the text
    that the suggestion marker highlights, and the retry helper and the
    error messages of the authentication store), followed by the
    properties proved about them.

    Conventions of the embedding.
    - A JavaScript string is a sequence of UTF-16 code units.  The model
      covers the code units below 256, written as Rocq [string]s; on that
      range Unicode normalisation (NFC) is the identity.
    - Indices that the source can make negative ([indexOf] returns -1, an
      offset comes from a remote service) are integers ([Z]).
    - The wall clock ([Date.now()], [new Date().toISOString()]) is an
      explicit argument.
    - A number is an IEEE 754 double.  A finite double is written as the
      rational it stands for ([Q]), and every arithmetic operation rounds
      its exact result to the nearest double, the even one of two that are
      as near ([Double.round]).  The counts of a text are below 2^53, so
      they are exact, and no formula of the sources comes near 2^1024,
      where a double overflows: infinities are not represented.  Where the
      sources can divide zero by zero the case is written out. *)

From Stdlib Require Import String Ascii List Bool Arith ZArith QArith Qround Qminmax Qpower Lia.
From Stdlib Require Import DecimalString Sorted Lqa.
From Stdlib Require DecimalZ DecimalPos.
Import ListNotations.

Close Scope Q_scope.
Close Scope Z_scope.
Open Scope string_scope.

(** ** The arithmetic of JavaScript numbers *)

Module Double.

(** The exponent of the least positive double, 2^-1074. *)
Definition emin : Z := (-1074)%Z.

Definition pow2 (e : Z) : Q := (2 ^ e)%Q.

(** The integer part of the binary logarithm of a positive rational. *)
Definition ilog2 (x : Q) : Z :=
  let g := (Z.log2 (Qnum x) - Z.log2 (Zpos (Qden x)))%Z in
  if Qle_bool (pow2 g) x then g else (g - 1)%Z.

(** The exponent of the last place of the doubles around the positive
    rational [x]: a double has 53 significant bits. *)
Definition exponent (x : Q) : Z := Z.max emin (ilog2 x - 52).

(** The integer nearest to [y], the even one of two that are as near. *)
Definition nearestEven (y : Q) : Z :=
  let f := Qfloor y in
  match (y - inject_Z f ?= 1 # 2)%Q with
  | Lt => f
  | Gt => (f + 1)%Z
  | Eq => if Z.even f then f else (f + 1)%Z
  end.

Definition roundPositive (x : Q) : Q :=
  let e := exponent x in
  Qred (inject_Z (nearestEven (x / pow2 e)) * pow2 e)%Q.

(** The double nearest to the rational [x]: what a decimal literal denotes
    and what an arithmetic operation returns for an exact result [x]. *)
Definition round (x : Q) : Q :=
  match Qnum x with
  | Z0 => 0%Q
  | Zpos _ => roundPositive x
  | Zneg _ => (- roundPositive (- x))%Q
  end.

(** [a + b], [a - b], [a * b] and [a / b] (for [b] other than zero). *)
Definition add (a b : Q) : Q := round (a + b)%Q.
Definition sub (a b : Q) : Q := round (a - b)%Q.
Definition mul (a b : Q) : Q := round (a * b)%Q.
Definition div (a b : Q) : Q := round (a / b)%Q.

(** An integer below 2^53 in absolute value, which is a double. *)
Definition ofZ (n : Z) : Q := inject_Z n.

End Double.

(** ** JavaScript string primitives used by the sources *)

Module Js.

Definition code (c : ascii) : nat := nat_of_ascii c.

Definition between (lo hi n : nat) : bool := (lo <=? n)%nat && (n <=? hi)%nat.

(** The regular-expression class [\s] (and the characters [trim] strips):
    tab, line feed, vertical tab, form feed, carriage return, space and the
    no-break space. *)
Definition isWhiteSpace (c : ascii) : bool :=
  between 9 13 (code c) || (code c =? 32)%nat || (code c =? 160)%nat.

(** The regular-expression class [\w]: [A-Za-z0-9_]. *)
Definition isWordChar (c : ascii) : bool :=
  between 48 57 (code c) || between 65 90 (code c) || (code c =? 95)%nat
  || between 97 122 (code c).

(** [a-z] *)
Definition isLowerLetter (c : ascii) : bool := between 97 122 (code c).

(** [toLowerCase] on one code unit: the ASCII capitals and the Latin-1
    capitals (all of 0xC0..0xDE but the multiplication sign 0xD7). *)
Definition lowerChar (c : ascii) : ascii :=
  if between 65 90 (code c) || (between 192 222 (code c) && negb (code c =? 215)%nat)
  then ascii_of_nat (code c + 32)
  else c.

Fixpoint smap (f : ascii -> ascii) (s : string) : string :=
  match s with
  | EmptyString => EmptyString
  | String c r => String (f c) (smap f r)
  end.

Fixpoint sfilter (keep : ascii -> bool) (s : string) : string :=
  match s with
  | EmptyString => EmptyString
  | String c r => if keep c then String c (sfilter keep r) else sfilter keep r
  end.

Fixpoint sexists (p : ascii -> bool) (s : string) : bool :=
  match s with
  | EmptyString => false
  | String c r => p c || sexists p r
  end.

Definition toLowerCase (s : string) : string := smap lowerChar s.

(** [s.replace(/[cls]/g, '')]: every character of the class is deleted. *)
Definition removeClass (cls : ascii -> bool) (s : string) : string :=
  sfilter (fun c => negb (cls c)) s.

Definition len (s : string) : Z := Z.of_nat (String.length s).

(** [s.substring(a, b)]: both ends are clamped to [0, length] and swapped
    when out of order. *)
Definition substring (s : string) (a b : Z) : string :=
  let a' := Z.max 0 (Z.min a (len s)) in
  let b' := Z.max 0 (Z.min b (len s)) in
  String.substring (Z.to_nat (Z.min a' b')) (Z.to_nat (Z.max a' b' - Z.min a' b')) s.

(** [s.substring(a)] *)
Definition substringFrom (s : string) (a : Z) : string := substring s a (len s).

(** [s.indexOf(w, from)]: the least index at or after the clamped [from]
    where [w] occurs, -1 when there is none. *)
Definition indexOf (s w : string) (from : Z) : Z :=
  match String.index (Z.to_nat (Z.max 0 (Z.min from (len s)))) w s with
  | Some m => Z.of_nat m
  | None => (-1)%Z
  end.

(** [s.includes(w)] *)
Definition includes (s w : string) : bool :=
  match String.index 0 w s with
  | Some _ => true
  | None => false
  end.

(** [s.endsWith(w)] *)
Definition endsWith (s w : string) : bool :=
  (String.length w <=? String.length s)%nat
  && String.eqb (String.substring (String.length s - String.length w) (String.length w) s) w.

(** [s.replace(pat, rep)] with a string pattern and a string replacement
    that holds no dollar sign: the first occurrence only. *)
Definition replaceFirst (s pat rep : string) : string :=
  match String.index 0 pat s with
  | Some m =>
      String.substring 0 m s ++ rep
      ++ String.substring (m + String.length pat)
           (String.length s - (m + String.length pat)) s
  | None => s
  end.

(** [s.split(/[cls]+/)]: the pieces between the maximal runs of the class.
    [inSep] says that the previous character belonged to a run. *)
Fixpoint splitRuns (cls : ascii -> bool) (inSep : bool) (s : string) : list string :=
  match s with
  | EmptyString => [EmptyString]
  | String c r =>
      if cls c then
        if inSep then splitRuns cls true r
        else EmptyString :: splitRuns cls true r
      else
        match splitRuns cls false r with
        | w :: ws => String c w :: ws
        | [] => [String c EmptyString]
        end
  end.

Definition split (cls : ascii -> bool) (s : string) : list string :=
  splitRuns cls false s.

Fixpoint trimStart (s : string) : string :=
  match s with
  | EmptyString => EmptyString
  | String c r => if isWhiteSpace c then trimStart r else s
  end.

Fixpoint trimEnd (s : string) : string :=
  match s with
  | EmptyString => EmptyString
  | String c r =>
      match trimEnd r with
      | EmptyString => if isWhiteSpace c then EmptyString else String c EmptyString
      | r' => String c r'
      end
  end.

Definition trim (s : string) : string := trimEnd (trimStart s).

(** The decimal rendering of an integer inside a template literal. *)
Definition numberToString (z : Z) : string := NilZero.string_of_int (Z.to_int z).

(** [Math.round] of a double: the nearest integer, a half rounding up. *)
Definition Math_round (x : Q) : Z := Qfloor (x + (1 # 2))%Q.

(** [[A-Z]] to [[a-z]], every other code unit unchanged: how a regular
    expression with the [i] flag compares a text character with an ASCII
    pattern character. *)
Definition asciiLower (c : ascii) : ascii :=
  if between 65 90 (code c) then ascii_of_nat (code c + 32) else c.

Definition eqCI (p c : ascii) : bool := Ascii.eqb (asciiLower p) (asciiLower c).

(** The literal [pat] matches, ignoring case, at the start of [s]; the rest
    of [s] after the match. *)
Fixpoint dropPrefixCI (pat s : string) : option string :=
  match pat with
  | EmptyString => Some s
  | String p pat' =>
      match s with
      | EmptyString => None
      | String c s' => if eqCI p c then dropPrefixCI pat' s' else None
      end
  end.

(** [\b] between a word character and the text [s] that follows it. *)
Definition boundaryAhead (s : string) : bool :=
  match s with
  | EmptyString => true
  | String c _ => negb (isWordChar c)
  end.

(** [s.split(sep)] with a one-character string separator. *)
Fixpoint splitOn (sep : ascii) (s : string) : list string :=
  match s with
  | EmptyString => [EmptyString]
  | String c r =>
      if Ascii.eqb c sep then EmptyString :: splitOn sep r
      else
        match splitOn sep r with
        | w :: ws => String c w :: ws
        | [] => [String c EmptyString]
        end
  end.

(** The double-quote character, for template literals that contain it. *)
Definition dquote : string := String (ascii_of_nat 34) EmptyString.

End Js.

(** ** The misspelling table shared by both local spell checkers

    Both sources declare the same object literal [commonMisspellings] and
    read it with [commonMisspellings[cleanWord]].  An object literal inherits
    from [Object.prototype], so the read also finds the inherited properties
    whose names survive lower-casing: [constructor] (the function [Object])
    and, where the runtime defines that accessor, [__proto__] (the prototype
    object).  Browsers define it; a server runtime may remove it, so the
    edge function takes its presence as the parameter [protoAccessor].
    Every value found is truthy. *)

Module Dictionary.

Inductive JsValue : Type :=
| VString (s : string)
| VObjectConstructor
| VObjectPrototype.

Definition commonMisspellings : list (string * string) :=
  [ ("teh", "the");
    ("adn", "and");
    ("recieve", "receive");
    ("seperate", "separate");
    ("occured", "occurred");
    ("definately", "definitely");
    ("neccessary", "necessary");
    ("begining", "beginning");
    ("accomodate", "accommodate");
    ("enviroment", "environment");
    ("tommorow", "tomorrow");
    ("wierd", "weird");
    ("freind", "friend") ].

Fixpoint ownProperty (k : string) (table : list (string * string)) : option string :=
  match table with
  | [] => None
  | (k', v) :: rest => if String.eqb k k' then Some v else ownProperty k rest
  end.

(** [commonMisspellings[k]]; [None] stands for [undefined]. *)
Definition get (protoAccessor : bool) (k : string) : option JsValue :=
  match ownProperty k commonMisspellings with
  | Some v => Some (VString v)
  | None =>
      if String.eqb k "constructor" then Some VObjectConstructor
      else if protoAccessor && String.eqb k "__proto__" then Some VObjectPrototype
      else None
  end.

(** The value inside a template literal. *)
Definition toString (v : JsValue) : string :=
  match v with
  | VString s => s
  | VObjectConstructor => "function Object() { [native code] }"
  | VObjectPrototype => "[object Object]"
  end.

(** The punctuation class that the sources delete from a word: full stop,
    comma, exclamation mark, question mark, semicolon, colon, double quote
    and apostrophe. *)
Definition isStrippedPunctuation (c : ascii) : bool :=
  existsb (fun n => (Js.code c =? n)%nat) [46; 44; 33; 63; 59; 58; 34; 39].

(** [cleanWord]: the word lower-cased, with that punctuation deleted. *)
Definition cleanWord (word : string) : string :=
  Js.removeClass isStrippedPunctuation (Js.toLowerCase word).

End Dictionary.

(** ** Edge function [analyze-grammar] *)

Module AnalyzeGrammar.

Inductive IssueType : Type := grammar | spelling | style | clarity.

Record SuggestionResponse : Type := {
  id : string;
  document_id : string;
  start_index : Z;
  end_index : Z;
  issue_type : IssueType;
  original_text : string;
  suggested_text : string;
  explanation : string;
  accepted : bool;
  created_at : string
}.

(** The fields of a LanguageTool match that the function reads. *)
Record LanguageToolMatch : Type := {
  m_message : string;
  m_offset : Z;
  m_length : Z;
  m_replacements : list string;
  m_rule_id : string;
  m_category_id : string
}.

(** [word.replace(cleanWord, commonMisspellings[cleanWord])]: a string value
    replaces the first occurrence; the function [Object] used as a replacer
    returns the matched text. *)
Definition replaceWith (word cleanWord : string) (v : Dictionary.JsValue) : string :=
  match v with
  | Dictionary.VObjectConstructor => word
  | _ => Js.replaceFirst word cleanWord (Dictionary.toString v)
  end.

(** The body of [words.forEach((word, wordIndex) => ...)], with the running
    [currentIndex]; the suggestions pushed, in order. *)
Fixpoint forEachWord (protoAccessor : bool) (text documentId now : string)
  (words : list string) (wordIndex : nat) (currentIndex : Z) : list SuggestionResponse :=
  match words with
  | [] => []
  | word :: rest =>
      let cleanWord := Dictionary.cleanWord word in
      let pushed :=
        match Dictionary.get protoAccessor cleanWord with
        | Some v =>
            let wordStart := Js.indexOf text word currentIndex in
            let wordEnd := (wordStart + Js.len word)%Z in
            [ {| id := "basic-spell-" ++ Js.numberToString (Z.of_nat wordIndex)
                         ++ "-" ++ Js.numberToString wordStart;
                 document_id := documentId;
                 start_index := wordStart;
                 end_index := wordEnd;
                 issue_type := spelling;
                 original_text := word;
                 suggested_text := replaceWith word cleanWord v;
                 explanation := "Spelling: " ++ Js.dquote ++ word ++ Js.dquote
                                ++ " should be " ++ Js.dquote
                                ++ Dictionary.toString v ++ Js.dquote;
                 accepted := false;
                 created_at := now |} ]
        | None => []
        end in
      pushed ++ forEachWord protoAccessor text documentId now rest (S wordIndex)
                  (Js.indexOf text word currentIndex + Js.len word)%Z
  end.

(** [generateBasicSuggestions(text, documentId)] *)
Definition generateBasicSuggestions (protoAccessor : bool) (text documentId now : string)
  : list SuggestionResponse :=
  forEachWord protoAccessor text documentId now (Js.split Js.isWhiteSpace text) 0 0.

(** The issue type of a match, from its category and rule identifiers. *)
Definition issueTypeOf (m : LanguageToolMatch) : IssueType :=
  let categoryId := Js.toLowerCase (m_category_id m) in
  let ruleId := Js.toLowerCase (m_rule_id m) in
  if Js.includes categoryId "typo" || Js.includes ruleId "spell" then spelling
  else if Js.includes categoryId "style" || Js.includes categoryId "redundancy" then style
  else if Js.includes categoryId "clarity" || Js.includes categoryId "confused" then clarity
  else grammar.

(** The callback of [data.matches.map((match, index) => ...)]. *)
Definition convertMatch (text documentId now : string) (index : nat) (m : LanguageToolMatch)
  : SuggestionResponse :=
  let span := Js.substring text (m_offset m) (m_offset m + m_length m) in
  {| id := "lt-" ++ Js.numberToString (Z.of_nat index) ++ "-" ++ Js.numberToString (m_offset m);
     document_id := documentId;
     start_index := m_offset m;
     end_index := (m_offset m + m_length m)%Z;
     issue_type := issueTypeOf m;
     original_text := span;
     suggested_text := match m_replacements m with
                       | r :: _ => r
                       | [] => span
                       end;
     explanation := m_message m;
     accepted := false;
     created_at := now |}.

Fixpoint mapWithIndex {A B : Type} (f : nat -> A -> B) (index : nat) (l : list A) : list B :=
  match l with
  | [] => []
  | x :: r => f index x :: mapWithIndex f (S index) r
  end.

Definition convertMatches (text documentId now : string) (matches : list LanguageToolMatch)
  : list SuggestionResponse :=
  mapWithIndex (convertMatch text documentId now) 0 matches.

(** [self.findIndex(p)]: the index of the first element that satisfies [p],
    -1 when there is none. *)
Fixpoint findIndexFrom {A : Type} (p : A -> bool) (index : nat) (l : list A) : Z :=
  match l with
  | [] => (-1)%Z
  | x :: r => if p x then Z.of_nat index else findIndexFrom p (S index) r
  end.

Definition findIndex {A : Type} (p : A -> bool) (l : list A) : Z := findIndexFrom p 0 l.

(** [self.filter((x, index, self) => keep x index self)] *)
Fixpoint filterFrom {A : Type} (keep : A -> nat -> list A -> bool) (self : list A)
  (index : nat) (l : list A) : list A :=
  match l with
  | [] => []
  | x :: r =>
      if keep x index self then x :: filterFrom keep self (S index) r
      else filterFrom keep self (S index) r
  end.

Definition sameSpan (a b : SuggestionResponse) : bool :=
  (start_index b =? start_index a)%Z && (end_index b =? end_index a)%Z.

(** The filter that removes duplicates based on position. *)
Definition uniqueSuggestions (allSuggestions : list SuggestionResponse) : list SuggestionResponse :=
  filterFrom
    (fun suggestion index self => (Z.of_nat index =? findIndex (sameSpan suggestion) self)%Z)
    allSuggestions 0 allSuggestions.

(** The successful path of the handler: remote suggestions, then the basic
    ones, then the duplicate filter. *)
Definition mergedSuggestions (protoAccessor : bool) (text documentId now : string)
  (matches : list LanguageToolMatch) : list SuggestionResponse :=
  let suggestions := convertMatches text documentId now matches in
  let basicSuggestions := generateBasicSuggestions protoAccessor text documentId now in
  let allSuggestions := (suggestions ++ basicSuggestions)%list in
  uniqueSuggestions allSuggestions.

(** What [fetch] of the LanguageTool service does: a response with
    [ok = true] and its parsed matches, a response with [ok = false], or a
    rejected promise. *)
Inductive FetchResult : Type :=
| FetchOk (matches : list LanguageToolMatch)
| FetchNotOk (httpStatus : Z)
| FetchRejected.

Inductive Method : Type := OPTIONS | POST | OtherMethod.

Record Request : Type := {
  method : Method;
  text : string;
  documentId : string
}.

(** The JSON bodies the handler writes: each is an object with exactly one
    key, [suggestions] or [error] (or the plain text [ok]). *)
Inductive Body : Type :=
| PlainOk
| ErrorBody (error : string)
| SuggestionsBody (suggestions : list SuggestionResponse).

Record Response : Type := {
  status : Z;
  body : Body
}.

(** The request handler passed to [serve]. *)
Definition serve (protoAccessor : bool) (req : Request) (languageTool : FetchResult)
  (now : string) : Response :=
  match method req with
  | OPTIONS => {| status := 200; body := PlainOk |}
  | OtherMethod => {| status := 405; body := ErrorBody "Method not allowed" |}
  | POST =>
      if String.eqb (text req) "" || String.eqb (documentId req) "" then
        {| status := 400; body := ErrorBody "Text and documentId are required" |}
      else if (50000 <? Js.len (text req))%Z then
        {| status := 400; body := ErrorBody "Text too long (max 50,000 characters)" |}
      else
        match languageTool with
        | FetchNotOk _ =>
            {| status := 200;
               body := SuggestionsBody
                         (generateBasicSuggestions protoAccessor (text req) (documentId req) now) |}
        | FetchOk matches =>
            {| status := 200;
               body := SuggestionsBody
                         (mergedSuggestions protoAccessor (text req) (documentId req) now matches) |}
        | FetchRejected =>
            {| status := 500; body := ErrorBody "Grammar analysis failed" |}
        end
  end.

End AnalyzeGrammar.

(** ** Edge function [analyze-readability] *)

Module AnalyzeReadability.

Inductive ScoreType : Type :=
| flesch_reading_ease
| flesch_kincaid_grade
| automated_readability.

Record ReadabilityScore : Type := {
  id : string;
  document_id : string;
  score_type : ScoreType;
  score_value : Q;
  analysis_text_length : Z;
  generated_at : string
}.

Record ReadabilityAnalysisResponse : Type := {
  readability_scores : list ReadabilityScore;
  summary : string
}.

(** A computation that returns or throws an [Error] with a message. *)
Inductive Result (A : Type) : Type :=
| Returned (a : A)
| Thrown (message : string).
Arguments Returned {A} a.
Arguments Thrown {A} message.

(** The class [[.!?]]. *)
Definition isSentencePunctuation (c : ascii) : bool :=
  existsb (fun n => (Js.code c =? n)%nat) [46; 33; 63].

Definition nonEmpty (s : string) : bool := (0 <? String.length s)%nat.

(** [text.split(/[.!?]+/).filter(s => s.trim().length > 0)] *)
Definition sentencesOf (text : string) : list string :=
  filter (fun s => nonEmpty (Js.trim s)) (Js.split isSentencePunctuation text).

(** [text.split(/\s+/).filter(w => w.length > 0)] *)
Definition wordsOf (text : string) : list string :=
  filter nonEmpty (Js.split Js.isWhiteSpace text).

(** ['aeiouy'.includes(c)] for a single character [c]. *)
Definition isVowel (c : ascii) : bool :=
  existsb (fun n => (Js.code c =? n)%nat) [97; 101; 105; 111; 117; 121].

(** The [for] loop over the characters of the clean word. *)
Fixpoint vowelGroups (cleanWord : string) (previousWasVowel : bool) (syllableCount : nat) : nat :=
  match cleanWord with
  | EmptyString => syllableCount
  | String c r =>
      vowelGroups r (isVowel c)
        (if isVowel c && negb previousWasVowel then S syllableCount else syllableCount)
  end.

(** One step of the [reduce] of [countSyllables]. *)
Definition addWordSyllables (total : nat) (word : string) : nat :=
  let cleanWord := Js.removeClass (fun c => negb (Js.isLowerLetter c)) word in
  if (String.length cleanWord =? 0)%nat then total
  else
    let syllableCount := vowelGroups cleanWord false 0 in
    let syllableCount :=
      if Js.endsWith cleanWord "e" && (1 <? syllableCount)%nat
      then syllableCount - 1 else syllableCount in
    total + Nat.max 1 syllableCount.

(** [countSyllables(text)] *)
Definition countSyllables (text : string) : nat :=
  fold_left addWordSyllables (wordsOf (Js.toLowerCase text)) 0.

Definition sentenceCount (text : string) : nat := List.length (sentencesOf text).
Definition wordCount (text : string) : nat := List.length (wordsOf text).

Definition ofNat (n : nat) : Q := inject_Z (Z.of_nat n).

(** [Math.round(x * 10) / 10] *)
Definition roundToTenth (x : Q) : Q :=
  Double.div (Double.ofZ (Js.Math_round (Double.mul x 10))) 10.

(** [wordCount / sentenceCount] *)
Definition avgSentenceLength (text : string) : Q :=
  Double.div (ofNat (wordCount text)) (ofNat (sentenceCount text)).

(** [syllableCount / wordCount] *)
Definition avgSyllablesPerWord (text : string) : Q :=
  Double.div (ofNat (countSyllables text)) (ofNat (wordCount text)).

(** [206.835 - (1.015 * avgSentenceLength) - (84.6 * avgSyllablesPerWord)] *)
Definition fleschReadingEase (text : string) : Q :=
  Double.sub
    (Double.sub (Double.round 206.835) (Double.mul (Double.round 1.015) (avgSentenceLength text)))
    (Double.mul (Double.round 84.6) (avgSyllablesPerWord text)).

(** [(0.39 * avgSentenceLength) + (11.8 * avgSyllablesPerWord) - 15.59] *)
Definition fleschKincaidGrade (text : string) : Q :=
  Double.sub
    (Double.add (Double.mul (Double.round 0.39) (avgSentenceLength text))
       (Double.mul (Double.round 11.8) (avgSyllablesPerWord text)))
    (Double.round 15.59).

(** [text.replace(/\s+/g, '').length / wordCount] *)
Definition charactersPerWord (text : string) : Q :=
  Double.div (ofNat (String.length (Js.removeClass Js.isWhiteSpace text)))
    (ofNat (wordCount text)).

(** [(4.71 * charactersPerWord) + (0.5 * avgSentenceLength) - 21.43] *)
Definition automatedReadability (text : string) : Q :=
  Double.sub
    (Double.add (Double.mul (Double.round 4.71) (charactersPerWord text))
       (Double.mul (Double.round 0.5) (avgSentenceLength text)))
    (Double.round 21.43).

(** How a template literal prints a score that is not negative: the score
    is the double nearest to a whole number of tenths, and the shortest
    decimal that reads back as that double is that number of tenths. *)
Definition tenthsToString (x : Q) : string :=
  let k := Js.Math_round (x * 10)%Q in
  if (k mod 10 =? 0)%Z then Js.numberToString (k / 10)
  else Js.numberToString (k / 10) ++ "." ++ Js.numberToString (k mod 10).

Fixpoint findScore (t : ScoreType) (scores : list ReadabilityScore) : option Q :=
  match scores with
  | [] => None
  | s :: r =>
      match score_type s, t with
      | flesch_reading_ease, flesch_reading_ease
      | flesch_kincaid_grade, flesch_kincaid_grade
      | automated_readability, automated_readability => Some (score_value s)
      | _, _ => findScore t r
      end
  end.

(** [generateReadabilitySummary(scores, wordCount, sentenceCount)] *)
Definition generateReadabilitySummary (scores : list ReadabilityScore)
  (wordCount sentenceCount : nat) : string :=
  let fleschEase := match findScore flesch_reading_ease scores with Some v => v | None => 0%Q end in
  let fleschGrade := match findScore flesch_kincaid_grade scores with Some v => v | None => 0%Q end in
  "Your text has " ++ Js.numberToString (Z.of_nat wordCount) ++ " words in "
  ++ Js.numberToString (Z.of_nat sentenceCount) ++ " sentences. "
  ++ (if Qle_bool 90%Q fleschEase then "Very easy to read (5th grade level). "
      else if Qle_bool 80%Q fleschEase then "Easy to read (6th grade level). "
      else if Qle_bool 70%Q fleschEase then "Fairly easy to read (7th grade level). "
      else if Qle_bool 60%Q fleschEase then "Standard reading level (8th-9th grade). "
      else if Qle_bool 50%Q fleschEase then "Fairly difficult to read (10th-12th grade). "
      else if Qle_bool 30%Q fleschEase then "Difficult to read (college level). "
      else "Very difficult to read (graduate level). ")
  ++ "Reading ease score: " ++ tenthsToString fleschEase ++ "/100. "
  ++ "Grade level: " ++ Js.numberToString (Js.Math_round fleschGrade) ++ ". "
  ++ (if negb (Qle_bool 60%Q fleschEase)
      then "Consider using shorter sentences and simpler words to improve readability."
      else if negb (Qle_bool fleschEase 80%Q)
      then "Your writing is very accessible to most readers."
      else "Your writing has good readability for general audiences.").

(** [calculateReadabilityScores(text, documentId)]; [nowMs] is [Date.now()]
    and [nowIso] is [new Date().toISOString()]. *)
Definition calculateReadabilityScores (text documentId : string) (nowMs : Z) (nowIso : string)
  : Result ReadabilityAnalysisResponse :=
  if (sentenceCount text =? 0)%nat || (wordCount text =? 0)%nat then
    Thrown "Invalid text structure for readability analysis"
  else
    let scores :=
      [ {| id := "flesch-ease-" ++ Js.numberToString nowMs;
           document_id := documentId;
           score_type := flesch_reading_ease;
           score_value := roundToTenth (Qmax 0%Q (Qmin 100%Q (fleschReadingEase text)));
           analysis_text_length := Js.len text;
           generated_at := nowIso |};
        {| id := "flesch-grade-" ++ Js.numberToString nowMs;
           document_id := documentId;
           score_type := flesch_kincaid_grade;
           score_value := roundToTenth (Qmax 0%Q (fleschKincaidGrade text));
           analysis_text_length := Js.len text;
           generated_at := nowIso |};
        {| id := "auto-read-" ++ Js.numberToString nowMs;
           document_id := documentId;
           score_type := automated_readability;
           score_value := roundToTenth (Qmax 0%Q (automatedReadability text));
           analysis_text_length := Js.len text;
           generated_at := nowIso |} ] in
    Returned {| readability_scores := scores;
                summary := generateReadabilitySummary scores (wordCount text) (sentenceCount text) |}.

End AnalyzeReadability.

(** ** Edge function [analyze-tone] *)

Module AnalyzeTone.

Inductive Tone : Type := formal | casual | confident | friendly | professional.

Record ToneAnalysisResponse : Type := {
  id : string;
  document_id : string;
  tone_detected : Tone;
  confidence : Z;
  summary : string;
  generated_at : string
}.

Definition formalIndicators : list string :=
  [ "therefore"; "furthermore"; "consequently"; "nevertheless"; "moreover";
    "however"; "thus"; "hence"; "indeed"; "whereas"; "notwithstanding";
    "accordingly"; "subsequently"; "nonetheless"; "henceforth" ].

Definition casualIndicators : list string :=
  [ "yeah"; "okay"; "cool"; "awesome"; "totally"; "basically"; "actually";
    "like"; "you know"; "kinda"; "sorta"; "gonna"; "wanna"; "gotta" ].

Definition confidentIndicators : list string :=
  [ "definitely"; "certainly"; "absolutely"; "clearly"; "obviously";
    "undoubtedly"; "surely"; "precisely"; "exactly"; "guaranteed";
    "proven"; "established"; "confident"; "assured"; "decisive" ].

Definition friendlyIndicators : list string :=
  [ "thanks"; "please"; "welcome"; "appreciate"; "wonderful"; "great";
    "excellent"; "amazing"; "fantastic"; "love"; "enjoy"; "happy";
    "excited"; "delighted"; "pleased" ].

Definition professionalIndicators : list string :=
  [ "regarding"; "concerning"; "pursuant"; "objective"; "analysis";
    "implementation"; "strategy"; "optimize"; "leverage"; "facilitate";
    "comprehensive"; "systematic"; "methodology"; "framework"; "initiative" ].

(** The number of matches of the global, case-insensitive expression
    [\b indicator \b] in [s], scanned from left to right without overlap.
    [skip] counts the characters of a match still to pass, [prevWord] says
    whether the previous character is a word character.  Every indicator
    starts and ends with a word character. *)
Fixpoint matchCount (indicator : string) (skip : nat) (prevWord : bool) (s : string) : nat :=
  match s with
  | EmptyString => 0
  | String c r =>
      match skip with
      | S k => matchCount indicator k (Js.isWordChar c) r
      | O =>
          let here :=
            negb prevWord
            && match Js.dropPrefixCI indicator s with
               | Some rest => Js.boundaryAhead rest
               | None => false
               end in
          if here
          then S (matchCount indicator (String.length indicator - 1) (Js.isWordChar c) r)
          else matchCount indicator 0 (Js.isWordChar c) r
      end
  end.

(** [countMatches(text, indicators)] *)
Definition countMatches (text : string) (indicators : list string) : Z :=
  fold_left (fun count indicator =>
               (count + Z.of_nat (matchCount indicator 0 false text) * 5)%Z)
    indicators 0%Z.

(** [hasComplexSentences(sentences)] *)
Definition hasComplexSentences (sentences : list string) : bool :=
  existsb (fun s => (3 <? List.length (Js.splitOn "," s))%nat) sentences.

(** The maximal run of word characters at the start of [s]. *)
Fixpoint wordRun (s : string) : string :=
  match s with
  | EmptyString => EmptyString
  | String c r => if Js.isWordChar c then String c (wordRun r) else EmptyString
  end.

(** After one of the auxiliaries: [\s+\w+ed\b], that is, at least one white
    space and then a word of three or more characters that ends in [ed]. *)
Definition passiveTail (rest : string) : bool :=
  match rest with
  | EmptyString => false
  | String c _ =>
      Js.isWhiteSpace c
      && (let w := wordRun (Js.trimStart rest) in
          (3 <=? String.length w)%nat
          && match Js.dropPrefixCI "ed" (String.substring (String.length w - 2) 2 w) with
             | Some _ => true
             | None => false
             end)
  end.

Fixpoint passiveFrom (prevWord : bool) (s : string) : bool :=
  match s with
  | EmptyString => false
  | String c r =>
      (negb prevWord
       && existsb (fun aux => match Js.dropPrefixCI aux s with
                              | Some rest => passiveTail rest
                              | None => false
                              end)
            ["was"; "were"; "is"; "are"; "been"; "being"])
      || passiveFrom (Js.isWordChar c) r
  end.

(** [hasPassiveVoice(text)] *)
Definition hasPassiveVoice (text : string) : bool := passiveFrom false text.

(** A word character, an apostrophe, one of [t], [re], [ve], [ll], [d] and a
    word boundary. *)
Fixpoint contractionFrom (prevWord : bool) (s : string) : bool :=
  match s with
  | EmptyString => false
  | String c r =>
      (prevWord && (Js.code c =? 39)%nat
       && existsb (fun ending => match Js.dropPrefixCI ending r with
                                 | Some rest => Js.boundaryAhead rest
                                 | None => false
                                 end)
            ["t"; "re"; "ve"; "ll"; "d"])
      || contractionFrom (Js.isWordChar c) r
  end.

(** [hasContractions(text)] *)
Definition hasContractions (text : string) : bool := contractionFrom false text.

(** [hasShortSentences(sentences)]; with no sentence the average is [NaN]
    and the comparison is false. *)
Definition hasShortSentences (sentences : list string) : bool :=
  match sentences with
  | [] => false
  | _ =>
      let total :=
        fold_left (fun sum s => (sum + List.length (Js.split Js.isWhiteSpace s))%nat)
          sentences 0 in
      let avgLength :=
        Double.div (Double.ofZ (Z.of_nat total)) (Double.ofZ (Z.of_nat (List.length sentences))) in
      negb (Qle_bool 12%Q avgLength)
  end.

(** [hasDeclarativeStatements(sentences)] *)
Definition hasDeclarativeStatements (sentences : list string) : bool :=
  let declarative :=
    filter (fun s => negb (Js.includes s "?") && negb (Js.includes s "!")) sentences in
  negb (Qle_bool (Double.ofZ (Z.of_nat (List.length declarative)))
          (Double.mul (Double.ofZ (Z.of_nat (List.length sentences))) (Double.round 0.7))).

(** [hasExclamations(text)] and [hasQuestions(text)] *)
Definition hasExclamations (text : string) : bool :=
  Js.sexists (fun c => (Js.code c =? 33)%nat) text.
Definition hasQuestions (text : string) : bool :=
  Js.sexists (fun c => (Js.code c =? 63)%nat) text.

(** [hasBusinessTerms(text)] *)
Definition hasBusinessTerms (text : string) : bool :=
  existsb (fun term => Js.includes text term)
    ["roi"; "kpi"; "synergy"; "stakeholder"; "deliverable"; "milestone"].

(** The object literal [scores]: its entries in insertion order. *)
Definition Scores : Type := list (Tone * Z).

Definition scoresOf (formalScore casualScore confidentScore friendlyScore professionalScore : Z)
  : Scores :=
  [ (formal, formalScore); (casual, casualScore); (confident, confidentScore);
    (friendly, friendlyScore); (professional, professionalScore) ].

(** [Math.max(...values)]; the least number when there is no value is
    minus infinity, [None] here. *)
Definition Math_max (values : list Z) : option Z :=
  match values with
  | [] => None
  | v :: r => Some (fold_left Z.max r v)
  end.

(** [Object.entries(scores).find(([_, score]) => score === maxScore)?.[0]] *)
Fixpoint findTone (maxScore : option Z) (entries : Scores) : option Tone :=
  match entries with
  | [] => None
  | (tone, score) :: r =>
      match maxScore with
      | Some m => if (score =? m)%Z then Some tone else findTone maxScore r
      | None => None
      end
  end.

Definition dominantTone (scores : Scores) : option Tone :=
  findTone (Math_max (map snd scores)) scores.

Definition toneName (tone : option Tone) : string :=
  match tone with
  | Some formal => "formal"
  | Some casual => "casual"
  | Some confident => "confident"
  | Some friendly => "friendly"
  | Some professional => "professional"
  | None => "undefined"
  end.

(** The confidence, 0 to 100. *)
Definition confidenceOf (scores : Scores) : Z :=
  let totalScore := fold_left Z.add (map snd scores) 0%Z in
  match Math_max (map snd scores) with
  | Some maxScore =>
      if (0 <? totalScore)%Z
      then Z.min 100
             (Js.Math_round
                (Double.mul (Double.div (Double.ofZ maxScore) (Double.ofZ totalScore)) 100))
      else 50%Z
  | None => 50%Z
  end.

(** [generateToneSummary(tone, confidence, scores, textLength)] *)
Definition generateToneSummary (tone : option Tone) (confidence : Z) (scores : Scores)
  (textLength : Z) : string :=
  let wordCount := Js.Math_round (Double.div (Double.ofZ textLength) 5) in
  "Your writing has a " ++ toneName tone ++ " tone"
  ++ (if (80 <? confidence)%Z
      then " with high confidence (" ++ Js.numberToString confidence ++ "%). "
      else if (60 <? confidence)%Z
      then " with moderate confidence (" ++ Js.numberToString confidence ++ "%). "
      else " with lower confidence (" ++ Js.numberToString confidence ++ "%). ")
  ++ match tone with
     | Some formal => "Your text uses sophisticated vocabulary and complex sentence structures. "
     | Some casual => "Your writing feels conversational and relaxed with informal expressions. "
     | Some confident => "Your writing conveys certainty and decisiveness in your statements. "
     | Some friendly => "Your text has a warm, approachable tone with positive language. "
     | Some professional => "Your writing maintains a business-appropriate, objective tone. "
     | None => ""
     end
  ++ "Analysis based on " ++ Js.numberToString wordCount ++ " words.".

(** The five scores of a text. *)
Definition toneScores (text : string) : Scores :=
  let lowerText := Js.toLowerCase text in
  let sentences :=
    filter (fun s => (0 <? String.length (Js.trim s))%nat)
      (Js.split (fun c => existsb (fun n => (Js.code c =? n)%nat) [46; 33; 63]) text) in
  let formalScore :=
    (countMatches lowerText formalIndicators
     + (if hasComplexSentences sentences then 20 else 0)
     + (if hasPassiveVoice lowerText then 15 else 0))%Z in
  let casualScore :=
    (countMatches lowerText casualIndicators
     + (if hasContractions text then 15 else 0)
     + (if hasShortSentences sentences then 10 else 0))%Z in
  let confidentScore :=
    (countMatches lowerText confidentIndicators
     + (if hasDeclarativeStatements sentences then 15 else 0))%Z in
  let friendlyScore :=
    (countMatches lowerText friendlyIndicators
     + (if hasExclamations text then 10 else 0)
     + (if hasQuestions text then 5 else 0))%Z in
  let professionalScore :=
    (countMatches lowerText professionalIndicators
     + (if hasBusinessTerms lowerText then 15 else 0))%Z in
  scoresOf formalScore casualScore confidentScore friendlyScore professionalScore.

(** [analyzeTone(text, documentId)]; [nowMs] and [nowIso] are the clock and
    [random] is the random suffix of the identifier. *)
Definition analyzeTone (text documentId : string) (nowMs : Z) (nowIso random : string)
  : ToneAnalysisResponse :=
  let scores := toneScores text in
  let dominant := dominantTone scores in
  let confidence := confidenceOf scores in
  {| id := "tone-" ++ Js.numberToString nowMs ++ "-" ++ random;
     document_id := documentId;
     tone_detected := match dominant with Some t => t | None => professional end;
     confidence := confidence;
     summary := generateToneSummary dominant confidence scores (Js.len text);
     generated_at := nowIso |}.

End AnalyzeTone.

(** ** The retry helper of the authentication store *)

Module AuthStore.

(** A thrown value, as [isRetryableError] reads it: [null] or [undefined],
    or an object with a [message] (the empty string when it has none or a
    falsy one) and the result of its [toString()]. *)
Inductive Thrown : Type :=
| Nullish
| ErrorObject (message : string) (toStringResult : string).

Definition retryableMessages : list string :=
  [ "failed to fetch";
    "network error";
    "err_name_not_resolved";
    "err_network";
    "err_internet_disconnected";
    "err_connection_timed_out";
    "timeout" ].

(** [(error?.message || error?.toString() || '').toLowerCase()] *)
Definition errorMessage (error : Thrown) : string :=
  Js.toLowerCase
    match error with
    | Nullish => ""
    | ErrorObject message toStringResult =>
        if negb (String.eqb message "") then message else toStringResult
    end.

(** [isRetryableError(error)] *)
Definition isRetryableError (error : Thrown) : bool :=
  existsb (fun msg => Js.includes (errorMessage error) msg) retryableMessages.

(** How one call of the operation settles. *)
Inductive Settled (T : Type) : Type :=
| Resolved (value : T)
| Rejected (error : Thrown).
Arguments Resolved {T} value.
Arguments Rejected {T} error.

(** What the helper does besides settling: calls of the operation and
    waits, in order. *)
Inductive Effect : Type :=
| Invoke (attempt : nat)
| Wait (milliseconds : Z).

(** The [for] loop of [retryOperation], from [attempt] on; [remaining] is
    the number of iterations left, [maxRetries + 1 - attempt].
    [operation n] is how the call made in iteration [n] settles.  When the
    loop runs out the helper throws [lastError]. *)
Fixpoint retryLoop {T : Type} (operation : nat -> Settled T) (maxRetries : nat) (delay : Z)
  (lastError : Thrown) (remaining attempt : nat) : Settled T * list Effect :=
  match remaining with
  | O => (Rejected lastError, [])
  | S remaining' =>
      match operation attempt with
      | Resolved value => (Resolved value, [Invoke attempt])
      | Rejected error =>
          if negb (isRetryableError error) || (attempt =? maxRetries)%nat
          then (Rejected error, [Invoke attempt])
          else
            let (result, effects) :=
              retryLoop operation maxRetries delay error remaining' (S attempt) in
            (result, Invoke attempt :: Wait (delay * 2 ^ Z.of_nat attempt)%Z :: effects)
      end
  end.

(** [retryOperation(operation, maxRetries, delay)]; [lastError] starts
    [undefined]. *)
Definition retryOperation {T : Type} (operation : nat -> Settled T) (maxRetries : nat) (delay : Z)
  : Settled T * list Effect :=
  retryLoop operation maxRetries delay Nullish (S maxRetries) 0.

(** The defaults of the two optional parameters. *)
Definition defaultMaxRetries : nat := 3.
Definition defaultDelay : Z := 1000%Z.

End AuthStore.

(** ** The client-side [SuggestionEngine] and the editor's accept handler *)

Module SuggestionEngine.

Definition Suggestion : Type := AnalyzeGrammar.SuggestionResponse.

(** [content.replace(/\r\n/g, '\n').replace(/\r/g, '\n').normalize('NFC')] *)
Fixpoint normalize (content : string) : string :=
  match content with
  | EmptyString => EmptyString
  | String c r =>
      if (Js.code c =? 13)%nat then
        match r with
        | String c' r' =>
            if (Js.code c' =? 10)%nat then String (ascii_of_nat 10) (normalize r')
            else String (ascii_of_nat 10) (normalize r)
        | EmptyString => String (ascii_of_nat 10) EmptyString
        end
      else String c (normalize r)
  end.

(** The successive results of [wordPattern.exec] for [/\b\w+\b/g]: the
    maximal runs of word characters with their indices.  [index] is the
    position of the head of [s]; [start] and [word] are the run being read
    ([word] is empty outside a run). *)
Fixpoint execAll (s : string) (index start : nat) (word : string) : list (nat * string) :=
  match s with
  | EmptyString =>
      match word with
      | EmptyString => []
      | _ => [(start, word)]
      end
  | String c r =>
      if Js.isWordChar c then
        match word with
        | EmptyString => execAll r (S index) index (String c EmptyString)
        | _ => execAll r (S index) start (word ++ String c EmptyString)
        end
      else
        match word with
        | EmptyString => execAll r (S index) start EmptyString
        | _ => (start, word) :: execAll r (S index) start EmptyString
        end
  end.

(** [s.replace(new RegExp(pat, 'gi'), rep)] for a pattern of letters, digits
    and underscores: every match from left to right, without overlap.
    [skip] counts the characters of a match still to pass. *)
Fixpoint replaceAllCI (pat rep : string) (skip : nat) (s : string) : string :=
  match s with
  | EmptyString => EmptyString
  | String c r =>
      match skip with
      | S k => replaceAllCI pat rep k r
      | O =>
          match Js.dropPrefixCI pat s with
          | Some _ => rep ++ replaceAllCI pat rep (String.length pat - 1) r
          | None => String c (replaceAllCI pat rep 0 r)
          end
      end
  end.

(** [word.replace(new RegExp(cleanWord, 'gi'), commonMisspellings[cleanWord])]:
    the function [Object] as a replacer returns each matched text. *)
Definition correctedWordOf (word cleanWord : string) (v : Dictionary.JsValue) : string :=
  match v with
  | Dictionary.VObjectConstructor => word
  | _ => replaceAllCI cleanWord (Dictionary.toString v) 0 word
  end.

Definition checkWord (documentId : string) (nowMs : Z) (nowIso : string) (m : nat * string)
  : list Suggestion :=
  let word := snd m in
  let wordStart := Z.of_nat (fst m) in
  let wordEnd := (wordStart + Js.len word)%Z in
  let cleanWord := Dictionary.cleanWord word in
  match Dictionary.get true cleanWord with
  | Some v =>
      let correctedWord := correctedWordOf word cleanWord v in
      [ {| AnalyzeGrammar.id :=
             "spell-" ++ Js.numberToString wordStart ++ "-" ++ Js.numberToString nowMs;
           AnalyzeGrammar.document_id := documentId;
           AnalyzeGrammar.start_index := wordStart;
           AnalyzeGrammar.end_index := wordEnd;
           AnalyzeGrammar.issue_type := AnalyzeGrammar.spelling;
           AnalyzeGrammar.original_text := word;
           AnalyzeGrammar.suggested_text := correctedWord;
           AnalyzeGrammar.explanation :=
             "Spelling: " ++ Js.dquote ++ word ++ Js.dquote ++ " should be "
             ++ Js.dquote ++ correctedWord ++ Js.dquote;
           AnalyzeGrammar.accepted := false;
           AnalyzeGrammar.created_at := nowIso |} ]
  | None => []
  end.

(** [basicSpellCheck(content, documentId)]; the class runs in the browser,
    where [__proto__] is defined. *)
Definition basicSpellCheck (content documentId : string) (nowMs : Z) (nowIso : string)
  : list Suggestion :=
  flat_map (checkWord documentId nowMs nowIso) (execAll (normalize content) 0 0 EmptyString).

(** How the call of the edge function settles: an error, or data whose
    [suggestions] may be missing. *)
Inductive InvokeResult : Type :=
| InvokeError
| InvokeData (suggestions : option (list Suggestion)).

(** The early return of [analyzeTextWithEdgeFunction]: blank content or
    fewer than five characters never reaches the edge function. *)
Definition skipsEdgeFunction (content : string) : bool :=
  String.eqb (Js.trim content) "" || (Js.len content <? 5)%Z.

(** What the timer callback hands to [callback] once the edge function has
    settled. *)
Definition analysisResult (content documentId : string) (nowMs : Z) (nowIso : string)
  (r : InvokeResult) : list Suggestion :=
  match r with
  | InvokeData (Some suggestions) => suggestions
  | InvokeData None => []
  | InvokeError => basicSpellCheck content documentId nowMs nowIso
  end.

(** *** The debounce timer

    [debounceTimeout] is one static field of the class.  The state below
    holds it together with the part of the event loop it touches: the timers
    that are armed, the analyses whose timer has fired and whose edge
    function call has not settled yet, and the log of the calls made to the
    callbacks.  A timer handle is the number of the call of
    [analyzeTextDebounced] that armed it, counted from 1 (a handle is never
    falsy).  Time is not measured: an armed timer may elapse at any moment,
    so the [delay] argument does not appear. *)

Record Job : Type := {
  content : string;
  documentId : string;
  callback : nat
}.

Record Delivery : Type := {
  deliveredJob : nat;
  deliveredTo : nat;
  deliveredDocument : string;
  deliveredSuggestions : list Suggestion
}.

Record State : Type := {
  debounceTimeout : option nat;
  nextHandle : nat;
  timers : list (nat * Job);
  running : list (nat * Job);
  delivered : list Delivery
}.

Definition initial : State :=
  {| debounceTimeout := None; nextHandle := 1; timers := []; running := []; delivered := [] |}.

Definition without (handle : nat) (l : list (nat * Job)) : list (nat * Job) :=
  filter (fun e => negb (fst e =? handle)%nat) l.

Fixpoint lookup (handle : nat) (l : list (nat * Job)) : option Job :=
  match l with
  | [] => None
  | (h, j) :: r => if (h =? handle)%nat then Some j else lookup handle r
  end.

(** [clearTimeout(handle)]: disarms the timer; nothing happens when it has
    fired already. *)
Definition clearTimeout (handle : nat) (s : State) : State :=
  {| debounceTimeout := debounceTimeout s;
     nextHandle := nextHandle s;
     timers := without handle (timers s);
     running := running s;
     delivered := delivered s |}.

(** [analyzeTextDebounced(content, documentId, callback, delay)] up to its
    return: the old timer is cleared and a new one is armed. *)
Definition analyzeTextDebounced (job : Job) (s : State) : State :=
  let s := match debounceTimeout s with
           | Some handle => clearTimeout handle s
           | None => s
           end in
  {| debounceTimeout := Some (nextHandle s);
     nextHandle := S (nextHandle s);
     timers := timers s ++ [(nextHandle s, job)];
     running := running s;
     delivered := delivered s |}.

Definition deliver (handle : nat) (job : Job) (suggestions : list Suggestion) : Delivery :=
  {| deliveredJob := handle;
     deliveredTo := callback job;
     deliveredDocument := documentId job;
     deliveredSuggestions := suggestions |}.

(** The timer [handle] elapses: its callback starts.  Content that skips the
    edge function is answered at once with the empty list; otherwise the
    analysis awaits the edge function. *)
Definition timerFires (handle : nat) (s : State) : State :=
  match lookup handle (timers s) with
  | None => s
  | Some job =>
      if skipsEdgeFunction (content job) then
        {| debounceTimeout := debounceTimeout s;
           nextHandle := nextHandle s;
           timers := without handle (timers s);
           running := running s;
           delivered := delivered s ++ [deliver handle job []] |}
      else
        {| debounceTimeout := debounceTimeout s;
           nextHandle := nextHandle s;
           timers := without handle (timers s);
           running := running s ++ [(handle, job)];
           delivered := delivered s |}
  end.

(** The edge function call of the analysis [handle] settles: the callback
    is called with the result. *)
Definition invokeSettles (handle : nat) (r : InvokeResult) (nowMs : Z) (nowIso : string)
  (s : State) : State :=
  match lookup handle (running s) with
  | None => s
  | Some job =>
      {| debounceTimeout := debounceTimeout s;
         nextHandle := nextHandle s;
         timers := timers s;
         running := without handle (running s);
         delivered :=
           delivered s
           ++ [deliver handle job
                 (analysisResult (content job) (documentId job) nowMs nowIso r)] |}
  end.

Inductive Event : Type :=
| Edit (job : Job)
| TimerFires (handle : nat)
| InvokeSettles (handle : nat) (r : InvokeResult) (nowMs : Z) (nowIso : string).

Definition step (s : State) (e : Event) : State :=
  match e with
  | Edit job => analyzeTextDebounced job s
  | TimerFires handle => timerFires handle s
  | InvokeSettles handle r nowMs nowIso => invokeSettles handle r nowMs nowIso s
  end.

Definition run (events : list Event) : State := fold_left step events initial.



End SuggestionEngine.

Module Editor.

(** The new content computed by [handleAcceptSuggestion(suggestion)]. *)
Definition handleAcceptSuggestion (content : string) (suggestion : SuggestionEngine.Suggestion)
  : string :=
  Js.substring content 0 (AnalyzeGrammar.start_index suggestion)
  ++ AnalyzeGrammar.suggested_text suggestion
  ++ Js.substringFrom content (AnalyzeGrammar.end_index suggestion).

End Editor.


(** ** The editor's suggestion list *)

Module EditorSuggestions.

Import AnalyzeGrammar.

(** [handleDismissSuggestion(suggestionId)]: the new list of suggestions,
    [prev.filter(s => s.id !== suggestionId)]. *)
Definition handleDismissSuggestion (prev : list SuggestionResponse) (suggestionId : string)
  : list SuggestionResponse :=
  filter (fun s => negb (String.eqb (id s) suggestionId)) prev.

(** The list of suggestions after [handleAcceptSuggestion(suggestion)]. *)
Definition afterAccept (prev : list SuggestionResponse) (suggestion : SuggestionResponse)
  : list SuggestionResponse :=
  filter (fun s => negb (String.eqb (id s) (id suggestion))) prev.

End EditorSuggestions.

(** ** The text that [SuggestionMarker] highlights *)

Module SuggestionMarker.

Definition safeStart (normalizedContent : string) (start : Z) : Z :=
  Z.max 0 (Z.min start (Js.len normalizedContent)).

Definition safeEnd (normalizedContent : string) (start end_ : Z) : Z :=
  Z.max (safeStart normalizedContent start) (Z.min end_ (Js.len normalizedContent)).

(** The three pieces of text the mirror element is filled with. *)
Record MirrorText : Type := {
  beforeText : string;
  targetText : string;
  afterText : string
}.

(** The text part of [calculateTextPosition(start, end)] with the editor
    mounted: the pieces of the mirror, [None] where the function returns
    [null] because the target text is empty.  The measurement of the mirror
    by the browser is not modelled. *)
Definition mirrorText (content : string) (start end_ : Z) : option MirrorText :=
  let normalizedContent := SuggestionEngine.normalize content in
  let safeStart := safeStart normalizedContent start in
  let safeEnd := safeEnd normalizedContent start end_ in
  let targetText := Js.substring normalizedContent safeStart safeEnd in
  if String.eqb targetText "" then None
  else Some {| beforeText := Js.substring normalizedContent 0 safeStart;
               targetText := targetText;
               afterText := Js.substringFrom normalizedContent safeEnd |}.

End SuggestionMarker.

(** ** The request handler of [analyze-readability] *)

Module ReadabilityHandler.

Import AnalyzeReadability.

Inductive Body : Type :=
| PlainOk
| ErrorBody (error : string)
| AnalysisBody (analysis : ReadabilityAnalysisResponse).

Record Response : Type := {
  status : Z;
  body : Body
}.

(** The request handler passed to [serve]; the request has the shape of the
    one of [analyze-grammar]. *)
Definition serve (req : AnalyzeGrammar.Request) (nowMs : Z) (nowIso : string) : Response :=
  match AnalyzeGrammar.method req with
  | AnalyzeGrammar.OPTIONS => {| status := 200; body := PlainOk |}
  | AnalyzeGrammar.OtherMethod => {| status := 405; body := ErrorBody "Method not allowed" |}
  | AnalyzeGrammar.POST =>
      let text := AnalyzeGrammar.text req in
      let documentId := AnalyzeGrammar.documentId req in
      if String.eqb text "" || String.eqb documentId "" then
        {| status := 400; body := ErrorBody "Text and documentId are required" |}
      else if (50000 <? Js.len text)%Z then
        {| status := 400; body := ErrorBody "Text too long (max 50,000 characters)" |}
      else if (Js.len text <? 50)%Z then
        {| status := 400;
           body := ErrorBody "Text too short for readability analysis (min 50 characters)" |}
      else
        match calculateReadabilityScores text documentId nowMs nowIso with
        | Returned readabilityAnalysis =>
            {| status := 200; body := AnalysisBody readabilityAnalysis |}
        | Thrown _ =>
            {| status := 500; body := ErrorBody "Readability analysis failed" |}
        end
  end.

End ReadabilityHandler.

(** ** The error messages of the authentication store *)

Module AuthErrors.

Import AuthStore.

Definition unexpected : string := "An unexpected error occurred. Please try again.".

(** [handleAuthError(error)]; [error?.message] is truthy when the message
    is not the empty string. *)
Definition handleAuthError (error : Thrown) : string :=
  match error with
  | Nullish => unexpected
  | ErrorObject errorMessage _ =>
      if String.eqb errorMessage "" then unexpected
      else
        let message := Js.toLowerCase errorMessage in
        if Js.includes message "invalid_credentials" || Js.includes message "invalid login"
        then "Invalid email or password"
        else if Js.includes message "email not confirmed"
        then "Please check your email and click the confirmation link"
        else if Js.includes message "user already registered"
                || Js.includes message "already been registered"
        then "An account with this email already exists"
        else if Js.includes message "invalid email"
        then "Please enter a valid email address"
        else if Js.includes message "password"
        then "Password must be at least 6 characters long"
        else if Js.includes message "database" || Js.includes message "connection"
        then "Database connection error. Please check your Supabase configuration."
        else if Js.includes message "signup is disabled"
        then "User registration is currently disabled. Please contact support."
        else if (Js.len errorMessage <? 100)%Z then errorMessage
        else unexpected
  end.

End AuthErrors.
(** * Vocabulary of the properties

    The predicates and sample inputs that the statements below use. *)

Section StringVocabulary.

(** The words of a list occur in [s] one after the other. *)
Fixpoint OccursIn (s : string) (words : list string) : Prop :=
  match words with
  | [] => True
  | w :: ws => exists a b, s = a ++ w ++ b /\ OccursIn b ws
  end.

(** [w] occurs in [s] at the index [n]. *)
Definition OccursAt (n : nat) (w s : string) : Prop :=
  String.substring n (String.length w) s = w.

(** A letter of [[A-Za-z]]. *)
Definition isAsciiLetter (c : ascii) : bool :=
  Js.between 65 90 (Js.code c) || Js.between 97 122 (Js.code c).

(** The token holds a letter, so something is left of it once lower-cased
    and stripped of what is not in [[a-z]]. *)
Definition hasAsciiLetter (word : string) : bool := Js.sexists isAsciiLetter word.

Definition sampleNow : string := "2025-01-01T00:00:00.000Z".

End StringVocabulary.

Section GrammarVocabulary.

Import AnalyzeGrammar.

Definition startsBefore (a b : SuggestionResponse) : Prop :=
  (start_index a <= start_index b)%Z.

(** Sorted ascending by [start_index]. *)
Definition SortedByStart (l : list SuggestionResponse) : Prop :=
  StronglySorted startsBefore l.

(** The source of a suggestion, read off the prefix of its identifier:
    [lt-] for the remote source, [basic-spell-] for the local one. *)
Definition remoteSourced (s : SuggestionResponse) : bool := String.prefix "lt-" (id s).
Definition localSourced (s : SuggestionResponse) : bool := String.prefix "basic-spell-" (id s).

(** Exact equality of the spans of two suggestions: the same start and the
    same end. *)
Definition equalSpans (a b : SuggestionResponse) : bool :=
  (start_index a =? start_index b)%Z && (end_index a =? end_index b)%Z.

(** Duplicates removed by the words of the specification: a suggestion is
    kept when no suggestion before it has exactly its start and its end.
    [seen] holds the suggestions before [l]. *)
Fixpoint firstOccurrences (seen l : list SuggestionResponse) : list SuggestionResponse :=
  match l with
  | [] => []
  | x :: r =>
      if existsb (equalSpans x) seen then firstOccurrences (seen ++ [x]) r
      else x :: firstOccurrences (seen ++ [x]) r
  end.

(** What LanguageTool answers for [teh, cat are]: the misspelling at 0..3
    and the verb at 9..12. *)
Definition sampleMatches : list LanguageToolMatch :=
  [ {| m_message := "Possible spelling mistake found.";
       m_offset := 0; m_length := 3;
       m_replacements := ["the"];
       m_rule_id := "MORFOLOGIK_RULE_EN_US";
       m_category_id := "TYPOS" |};
    {| m_message := "The verb does not agree with the subject.";
       m_offset := 9; m_length := 3;
       m_replacements := ["is"];
       m_rule_id := "SUBJECT_VERB_AGREEMENT";
       m_category_id := "GRAMMAR" |} ].

Definition sampleRequest : Request :=
  {| method := POST; text := "teh, cat are"; documentId := "d1" |}.

Definition tehMatch : LanguageToolMatch :=
  {| m_message := "Possible spelling mistake found.";
     m_offset := 0; m_length := 3;
     m_replacements := ["the"];
     m_rule_id := "MORFOLOGIK_RULE_EN_US";
     m_category_id := "TYPOS" |}.

Definition tehRequest : Request :=
  {| method := POST; text := "teh cat"; documentId := "d1" |}.

Definition tehRemote : SuggestionResponse := convertMatch "teh cat" "d1" sampleNow 0 tehMatch.

Definition tehLocal : SuggestionResponse :=
  {| id := "basic-spell-0-0";
     document_id := "d1";
     start_index := 0;
     end_index := 3;
     issue_type := spelling;
     original_text := "teh";
     suggested_text := "the";
     explanation := "Spelling: " ++ Js.dquote ++ "teh" ++ Js.dquote ++ " should be "
                    ++ Js.dquote ++ "the" ++ Js.dquote;
     accepted := false;
     created_at := sampleNow |}.

(** A text with three misspellings, [teh] at 0..3, [adn] at 8..11 and
    [recieve] at 16..23. *)
Definition threeMisspellings : Request :=
  {| method := POST; text := "teh cat adn dog recieve"; documentId := "d1" |}.

(** The scenario of the specification. *)
Definition foxRequest (documentId : string) : Request :=
  {| method := POST; text := "Teh qick brown fox."; documentId := documentId |}.

End GrammarVocabulary.

Section ReadabilityVocabulary.

(** [v] is the double [x] rounded to one decimal place: [v] is the double
    that a decimal with one fractional digit, [k / 10], denotes; [k] is the
    integer nearest to the double [x * 10], the upper one of two that are
    as near; and so [k / 10] is a nearest such decimal to [x], up to the
    rounding error of that multiplication (a relative error of at most
    2^-53). *)
Definition RoundedToOneDecimal (v x : Q) : Prop :=
  exists k : Z,
    (v == Double.round (inject_Z k / 10))%Q
    /\ (inject_Z k - (1 # 2) <= Double.mul x 10)%Q
    /\ (Double.mul x 10 < inject_Z k + (1 # 2))%Q
    /\ (x - (1 # 20) - x * Double.pow2 (-53) <= inject_Z k / 10)%Q
    /\ (inject_Z k / 10 <= x + (1 # 20) + x * Double.pow2 (-53))%Q.

(** Twenty words, fifteen sentences, twenty-eight syllables: none of the
    three formulas reaches a bound, and the grade is
    1.4499999999999993 in doubles where the exact value is 1.45. *)
Definition shortSentences : string :=
  "Birds sing. Fish swim. Dogs bark. Cats nap. Kids run. Garden. Window. Market. "
  ++ "Rabbit. Silver. Dragon. Button. Tunnel. Stop. Walk.".

Definition numbersOnly : string :=
  "1 2 3 4 5 6 7 8 9 10 11 12 13 14 15 16 17 18 19 20.".

End ReadabilityVocabulary.

Section ToneVocabulary.

Import AnalyzeTone.

(** The place of a category in the enumeration. *)
Definition toneIndex (t : Tone) : nat :=
  match t with
  | formal => 0
  | casual => 1
  | confident => 2
  | friendly => 3
  | professional => 4
  end.

Definition toneEqb (a b : Tone) : bool := (toneIndex a =? toneIndex b)%nat.

(** The score of a category in the object [scores]. *)
Fixpoint scoreOf (scores : Scores) (t : Tone) : Z :=
  match scores with
  | [] => 0%Z
  | (t', score) :: r => if toneEqb t' t then score else scoreOf r t
  end.

End ToneVocabulary.

Section RetryVocabulary.

Import AuthStore.

(** The text [isRetryableError] searches: the message, or the result of
    [toString()] when there is none. *)
Definition rawMessage (error : Thrown) : string :=
  match error with
  | Nullish => ""
  | ErrorObject message toStringResult =>
      if negb (String.eqb message "") then message else toStringResult
  end.

(** The calls and waits of [failures] failed attempts from [attempt] on,
    followed by one more call. *)
Fixpoint backoff (delay : Z) (attempt failures : nat) : list Effect :=
  match failures with
  | O => [Invoke attempt]
  | S n => Invoke attempt :: Wait (delay * 2 ^ Z.of_nat attempt)%Z :: backoff delay (S attempt) n
  end.

(** Two network failures, then success. *)
Definition flakyOperation (attempt : nat) : Settled nat :=
  if (attempt <? 2)%nat then Rejected (ErrorObject "TypeError: Failed to fetch" "")
  else Resolved 7.

End RetryVocabulary.

Section DebounceVocabulary.

Import SuggestionEngine.

Definition handles (l : list (nat * Job)) : list nat := map fst l.
Definition deliveredJobs (s : State) : list nat := map deliveredJob (delivered s).

(** What holds of every state the engine can reach: the handles in use are
    below the next one; at most one timer is armed, and it is the one the
    static field names, the latest that was set, not yet fired. *)
Record Invariant (s : State) : Prop := {
  running_below : forall h, In h (handles (running s)) -> h < nextHandle s;
  delivered_below : forall h, In h (deliveredJobs s) -> h < nextHandle s;
  one_timer :
    timers s = []
    \/ exists h j,
         timers s = [(h, j)] /\ S h = nextHandle s /\ debounceTimeout s = Some h
         /\ ~ In h (handles (running s)) /\ ~ In h (deliveredJobs s)
}.





Definition essay : Job :=
  {| content := "I will recieve teh letter."; documentId := "essay"; callback := 1 |}.

Definition memo : Job :=
  {| content := "Please seperate the items."; documentId := "memo"; callback := 2 |}.

End DebounceVocabulary.

(** ** Vocabulary of the further properties *)

Section FurtherGrammarVocabulary.

Import AnalyzeGrammar.

(** The span of a suggestion lies in the text and holds its original text. *)
Definition spanHolds (text : string) (s : SuggestionResponse) : Prop :=
  (0 <= start_index s)%Z
  /\ (end_index s = start_index s + Js.len (original_text s))%Z
  /\ (end_index s <= Js.len text)%Z
  /\ Js.substring text (start_index s) (end_index s) = original_text s.

Definition endsBefore (a b : SuggestionResponse) : Prop :=
  (end_index a <= start_index b)%Z.

Definition spanOf (s : SuggestionResponse) : Z * Z := (start_index s, end_index s).

(** A decimal digit. *)
Definition isDigit (c : ascii) : bool := Js.between 48 57 (Js.code c).

(** Every character of the string satisfies [p]. *)
Fixpoint sforall (p : ascii -> bool) (s : string) : bool :=
  match s with
  | EmptyString => true
  | String c r => p c && sforall p r
  end.

End FurtherGrammarVocabulary.


Section ClientVocabulary.

Import AnalyzeGrammar.

(** The string holds no carriage return. *)
Definition noCarriageReturn (s : string) : bool :=
  sforall (fun c => negb (Js.code c =? 13)%nat) s.

(** A result of the word pattern on [text]: the word at its index, made of
    word characters only, and followed by the end of the text or by a
    character that is not a word character. *)
Definition WordAt (text : string) (m : nat * string) : Prop :=
  exists before after : string,
    text = before ++ snd m ++ after
    /\ String.length before = fst m
    /\ snd m <> EmptyString
    /\ sforall Js.isWordChar (snd m) = true
    /\ Js.boundaryAhead after = true.

(** The first span ends before the second one starts, with at least one
    character between them. *)
Definition endsStrictlyBefore (a b : SuggestionResponse) : Prop :=
  (end_index a < start_index b)%Z.

End ClientVocabulary.

Section MarkerVocabulary.

Import AnalyzeGrammar.

(** The marker of the suggestion [s] on [content] highlights the original
    text of [s], at its start index. *)
Definition Highlighted (content : string) (s : SuggestionResponse) : Prop :=
  exists before after : string,
    SuggestionMarker.mirrorText content (start_index s) (end_index s)
    = Some {| SuggestionMarker.beforeText := before;
              SuggestionMarker.targetText := original_text s;
              SuggestionMarker.afterText := after |}
    /\ Js.len before = start_index s.

End MarkerVocabulary.

Section FurtherReadabilityVocabulary.

(** The text holds nothing but white space and the sentence punctuation
    [.!?]. *)
Definition onlyBlankOrPunctuation (text : string) : bool :=
  sforall (fun c => AnalyzeReadability.isSentencePunctuation c || Js.isWhiteSpace c) text.


(** Fifty full stops. *)
Definition fiftyStops : string :=
  ".........." ++ ".........." ++ ".........." ++ ".........." ++ "..........".

End FurtherReadabilityVocabulary.

Section FurtherRetryVocabulary.

Import AuthStore.

(** The time spent waiting, in milliseconds. *)
Fixpoint waited (effects : list Effect) : Z :=
  match effects with
  | [] => 0%Z
  | Wait milliseconds :: r => (milliseconds + waited r)%Z
  | Invoke _ :: r => waited r
  end.

(** The number of calls of the operation. *)
Fixpoint calls (effects : list Effect) : nat :=
  match effects with
  | [] => 0
  | Invoke _ :: r => S (calls r)
  | Wait _ :: r => calls r
  end.

(** The messages that [handleAuthError] has of its own. *)
Definition ownMessages : list string :=
  [ "Invalid email or password";
    "Please check your email and click the confirmation link";
    "An account with this email already exists";
    "Please enter a valid email address";
    "Password must be at least 6 characters long";
    "Database connection error. Please check your Supabase configuration.";
    "User registration is currently disabled. Please contact support.";
    "An unexpected error occurred. Please try again." ].

End FurtherRetryVocabulary.

Section FurtherDebounceVocabulary.

Import SuggestionEngine.




End FurtherDebounceVocabulary.
(** * Properties *)

(** ** Strings: lengths, occurrences and [indexOf] *)

Section StringFacts.

Lemma string_length_app (a b : string) :
  String.length (a ++ b) = String.length a + String.length b.
Proof.
  induction a as [|c a IH]; simpl; [reflexivity | now rewrite IH].
Qed.

Lemma app_assoc_string (a b c : string) : (a ++ b) ++ c = a ++ (b ++ c).
Proof.
  induction a as [|x a IH]; simpl; [reflexivity | now rewrite IH].
Qed.

Lemma prefix_app (w b : string) : String.prefix w (w ++ b) = true.
Proof.
  induction w as [|c w IH]; simpl.
  - now destruct b.
  - destruct (ascii_dec c c) as [_|ne]; [exact IH | now elim ne].
Qed.

(** A word that occurs in [s] after a prefix [a] is found by [index] at or
    before the end of [a], from any starting point inside [a]. *)
Lemma index_app (w b a : string) (n : nat) :
  n <= String.length a ->
  exists m, String.index n w (a ++ w ++ b) = Some m /\ n <= m <= String.length a.
Proof.
  revert n; induction a as [|c a IH]; intros n Hn; simpl in Hn.
  - assert (n = 0) by lia; subst n. exists 0. split; [|simpl; lia].
    cbn [append]. pose proof (prefix_app w b) as P.
    destruct (w ++ b) eqn:E.
    + destruct w; [reflexivity | discriminate].
    + cbn [String.index]. now rewrite P.
  - destruct n as [|n].
    + cbn [append String.index].
      destruct (String.prefix w (String c (a ++ w ++ b))).
      * exists 0. split; [reflexivity | simpl; lia].
      * destruct (IH 0) as (m & -> & Hm); [lia|].
        exists (S m). split; [reflexivity | simpl; lia].
    + cbn [append String.index].
      destruct (IH n) as (m & -> & Hm); [lia|].
      exists (S m). split; [reflexivity | simpl; lia].
Qed.

Lemma OccursIn_cons (c : ascii) (s : string) (words : list string) :
  OccursIn s words -> OccursIn (String c s) words.
Proof.
  destruct words as [|w ws]; simpl; [trivial|].
  intros (a & b & -> & H). now exists (String c a), b.
Qed.

(** The pieces of a split occur in the text in order; outside a separator
    run the first piece starts the text. *)
Lemma splitRuns_occurs (cls : ascii -> bool) (s : string) :
  (exists w ws b, Js.splitRuns cls false s = w :: ws /\ s = w ++ b /\ OccursIn b ws)
  /\ OccursIn s (Js.splitRuns cls true s).
Proof.
  induction s as [|c s [(w & ws & b & Hw & Hs & Hb) Htrue]].
  - split.
    + now exists EmptyString, [], EmptyString.
    + now exists EmptyString, EmptyString.
  - simpl. destruct (cls c).
    + split.
      * exists EmptyString, (Js.splitRuns cls true s), (String c s).
        repeat split. now apply OccursIn_cons.
      * now apply OccursIn_cons.
    + rewrite Hw. split.
      * exists (String c w), ws, b. repeat split; [now rewrite Hs | exact Hb].
      * exists EmptyString, b. split; [now rewrite Hs | exact Hb].
Qed.

Lemma split_occurs (cls : ascii -> bool) (s : string) : OccursIn s (Js.split cls s).
Proof.
  destruct (splitRuns_occurs cls s) as [(w & ws & b & Hw & Hs & Hb) _].
  unfold Js.split. rewrite Hw. now exists EmptyString, b.
Qed.

(** [indexOf] from a point at or before an occurrence finds one at or
    before it. *)
Lemma indexOf_app (w b a : string) (from : Z) :
  (0 <= from <= Js.len a)%Z ->
  (from <= Js.indexOf (a ++ w ++ b) w from <= Js.len a)%Z.
Proof.
  intros Hf. unfold Js.indexOf, Js.len in *.
  rewrite string_length_app.
  replace (Z.max 0 (Z.min from (Z.of_nat (String.length a + String.length (w ++ b)))))
    with from by lia.
  destruct (index_app w b a (Z.to_nat from)) as (m & -> & Hm); lia.
Qed.

End StringFacts.

(** ** The reconciler of [analyze-grammar] *)

Section Reconciler.

Import AnalyzeGrammar.

Lemma equalSpans_refl (x : SuggestionResponse) : equalSpans x x = true.
Proof. unfold equalSpans. now rewrite !Z.eqb_refl. Qed.

Lemma equalSpans_true (x y : SuggestionResponse) :
  equalSpans x y = true <-> start_index x = start_index y /\ end_index x = end_index y.
Proof. unfold equalSpans. rewrite andb_true_iff, !Z.eqb_eq. tauto. Qed.

(** The comparison of the filter in the handler is that equality. *)
Lemma sameSpan_equalSpans (x y : SuggestionResponse) : sameSpan x y = equalSpans x y.
Proof.
  unfold sameSpan, equalSpans.
  now rewrite (Z.eqb_sym (start_index y)), (Z.eqb_sym (end_index y)).
Qed.

Lemma existsb_sameSpan (x : SuggestionResponse) (l : list SuggestionResponse) :
  existsb (sameSpan x) l = existsb (equalSpans x) l.
Proof.
  induction l as [|y l IH]; [reflexivity|]. simpl. now rewrite sameSpan_equalSpans, IH.
Qed.

Lemma equalSpans_sym (x y : SuggestionResponse) : equalSpans x y = equalSpans y x.
Proof. unfold equalSpans. now rewrite (Z.eqb_sym (start_index y)), (Z.eqb_sym (end_index y)). Qed.

Lemma equalSpans_trans (x y z : SuggestionResponse) :
  equalSpans x y = true -> equalSpans y z = true -> equalSpans x z = true.
Proof. rewrite !equalSpans_true. intros [-> ->] [-> ->]. now split. Qed.

Lemma findIndexFrom_app {A : Type} (p : A -> bool) (pre : list A) (x : A) (r : list A) (i : nat) :
  p x = true ->
  (findIndexFrom p i (pre ++ x :: r) =? Z.of_nat (i + List.length pre))%Z
  = negb (existsb p pre).
Proof.
  intros Hx. revert i; induction pre as [|y pre IH]; intros i; simpl.
  - rewrite Hx, Nat.add_0_r. apply Z.eqb_refl.
  - destruct (p y) eqn:Hy; simpl.
    + apply Z.eqb_neq. lia.
    + rewrite <- (IH (S i)). f_equal. lia.
Qed.

Lemma filterFrom_firstOccurrences (pre l : list SuggestionResponse) :
  filterFrom
    (fun suggestion index self => (Z.of_nat index =? findIndex (sameSpan suggestion) self)%Z)
    (pre ++ l) (List.length pre) l
  = firstOccurrences pre l.
Proof.
  revert pre; induction l as [|x r IH]; intros pre; simpl; [reflexivity|].
  assert (Hx : sameSpan x x = true)
    by (rewrite sameSpan_equalSpans; apply equalSpans_refl).
  pose proof (findIndexFrom_app (sameSpan x) pre x r 0 Hx) as Hfind.
  cbn [Nat.add] in Hfind. fold (findIndex (sameSpan x) (pre ++ x :: r)) in Hfind.
  rewrite Z.eqb_sym, Hfind.
  specialize (IH (pre ++ [x])%list).
  rewrite <- app_assoc, List.length_app in IH. simpl in IH.
  replace (List.length pre + 1) with (S (List.length pre)) in IH by lia.
  rewrite IH, existsb_sameSpan. now destruct (existsb (equalSpans x) pre).
Qed.

Lemma firstOccurrences_In (y : SuggestionResponse) (l seen : list SuggestionResponse) :
  In y (firstOccurrences seen l) -> In y l.
Proof.
  revert seen; induction l as [|x r IH]; intros seen; simpl; [trivial|].
  destruct (existsb (equalSpans x) seen); simpl; intros H.
  - right. eapply IH, H.
  - destruct H as [H|H]; [now left | right; eapply IH, H].
Qed.

Lemma firstOccurrences_Forall (P : SuggestionResponse -> Prop) (l seen : list SuggestionResponse) :
  Forall P l -> Forall P (firstOccurrences seen l).
Proof.
  rewrite !Forall_forall. intros H y Hy. eapply H, firstOccurrences_In, Hy.
Qed.

(** Removing duplicates keeps the order of what remains. *)
Lemma firstOccurrences_sorted (l seen : list SuggestionResponse) :
  SortedByStart l -> SortedByStart (firstOccurrences seen l).
Proof.
  unfold SortedByStart. intros H; revert seen.
  induction H as [|x r Hr IH Hx]; intros seen; simpl; [constructor|].
  destruct (existsb (equalSpans x) seen); [apply IH|].
  constructor; [apply IH | now apply firstOccurrences_Forall].
Qed.

Lemma existsb_equalSpans_compat (x y : SuggestionResponse) (seen : list SuggestionResponse) :
  equalSpans y x = true -> existsb (equalSpans y) seen = true -> existsb (equalSpans x) seen = true.
Proof.
  intros Hyx. rewrite !existsb_exists. intros (z & Hz & Hyz).
  exists z. split; [exact Hz|].
  eapply equalSpans_trans; [|exact Hyz]. now rewrite equalSpans_sym.
Qed.

(** A span that was seen before does not come back. *)
Lemma firstOccurrences_seen (y : SuggestionResponse) (l seen : list SuggestionResponse) :
  existsb (equalSpans y) seen = true ->
  filter (equalSpans y) (firstOccurrences seen l) = [].
Proof.
  revert seen; induction l as [|x r IH]; intros seen Hseen; simpl; [reflexivity|].
  assert (Hnext : existsb (equalSpans y) (seen ++ [x]) = true)
    by (rewrite existsb_app, Hseen; reflexivity).
  destruct (existsb (equalSpans x) seen) eqn:Hx; [now apply IH|].
  simpl. destruct (equalSpans y x) eqn:Hyx; [|now apply IH].
  now rewrite (existsb_equalSpans_compat x y seen Hyx Hseen) in Hx.
Qed.

(** Of the suggestions with one span, the first one is what is kept. *)
Lemma firstOccurrences_first (x : SuggestionResponse) (a b seen : list SuggestionResponse) :
  existsb (equalSpans x) (seen ++ a) = false ->
  filter (equalSpans x) (firstOccurrences seen (a ++ x :: b)) = [x].
Proof.
  revert seen; induction a as [|z a IH]; intros seen Hseen.
  - rewrite app_nil_r in Hseen. simpl. rewrite Hseen. simpl.
    rewrite equalSpans_refl. f_equal. apply firstOccurrences_seen.
    rewrite existsb_app. simpl. rewrite equalSpans_refl. now rewrite orb_true_r.
  - assert (Hz : equalSpans x z = false).
    { rewrite existsb_app in Hseen. simpl in Hseen.
      destruct (equalSpans x z); [now rewrite !orb_true_r in Hseen | reflexivity]. }
    assert (Hnext : existsb (equalSpans x) ((seen ++ [z]) ++ a) = false)
      by (now rewrite <- app_assoc).
    simpl. destruct (existsb (equalSpans z) seen); simpl; [|rewrite Hz]; now apply IH.
Qed.

Lemma first_with_span (r : SuggestionResponse) (l : list SuggestionResponse) :
  In r l ->
  exists a r0 b, l = (a ++ r0 :: b)%list /\ equalSpans r r0 = true
                 /\ existsb (equalSpans r) a = false.
Proof.
  induction l as [|x l IH]; simpl; [contradiction|]. intros Hin.
  destruct (equalSpans r x) eqn:Hx.
  - now exists [], x, l.
  - destruct Hin as [->|Hin]; [now rewrite equalSpans_refl in Hx|].
    destruct (IH Hin) as (a & r0 & b & -> & Hr0 & Ha).
    exists (x :: a), r0, b. repeat split; [exact Hr0 | simpl; now rewrite Hx].
Qed.

Lemma filter_equalSpans_ext (x y : SuggestionResponse) (l : list SuggestionResponse) :
  equalSpans x y = true -> filter (equalSpans x) l = filter (equalSpans y) l.
Proof.
  intros Hxy. apply filter_ext. intros z.
  destruct (equalSpans y z) eqn:Hyz.
  - eapply equalSpans_trans; eassumption.
  - destruct (equalSpans x z) eqn:Hxz; [|reflexivity].
    rewrite <- Hyz. symmetry. eapply equalSpans_trans; [|exact Hxz]. now rewrite equalSpans_sym.
Qed.

Lemma mapWithIndex_In {A B : Type} (f : nat -> A -> B) (l : list A) (i : nat) (y : B) :
  In y (mapWithIndex f i l) -> exists j x, y = f j x.
Proof.
  revert i; induction l as [|x l IH]; intros i; simpl; [contradiction|].
  intros [<-|H]; [now exists i, x | eapply IH, H].
Qed.

Lemma convertMatches_remote (text documentId now : string) (matches : list LanguageToolMatch)
  (s : SuggestionResponse) :
  In s (convertMatches text documentId now matches) -> remoteSourced s = true.
Proof.
  intros H. apply mapWithIndex_In in H as (j & m & ->).
  unfold remoteSourced, convertMatch. cbn [id]. apply prefix_app.
Qed.

Lemma forEachWord_local (protoAccessor : bool) (text documentId now : string)
  (words : list string) (wordIndex : nat) (currentIndex : Z) (s : SuggestionResponse) :
  In s (forEachWord protoAccessor text documentId now words wordIndex currentIndex) ->
  localSourced s = true.
Proof.
  revert wordIndex currentIndex; induction words as [|w ws IH]; intros wi ci;
    cbn [forEachWord]; [contradiction|].
  intros H. apply in_app_or in H as [H|H]; [|eapply IH, H].
  destruct (Dictionary.get protoAccessor (Dictionary.cleanWord w)); [|contradiction].
  destruct H as [H|[]]. rewrite <- H. unfold localSourced. cbn [id]. apply prefix_app.
Qed.

Lemma prefix_head (a : ascii) (w s : string) :
  String.prefix (String a w) s = true -> exists r, s = String a r.
Proof.
  destruct s as [|c r]; cbn [String.prefix]; [intros H; discriminate H|].
  destruct (ascii_dec a c) as [->|]; [now exists r | intros H; discriminate H].
Qed.

Lemma sources_disjoint (s : SuggestionResponse) :
  remoteSourced s = true -> localSourced s = true -> False.
Proof.
  unfold remoteSourced, localSourced. intros Hl Hb.
  apply prefix_head in Hl as (r & Hl). apply prefix_head in Hb as (r' & Hb).
  rewrite Hl in Hb. discriminate Hb.
Qed.

Lemma mergedSuggestions_firstOccurrences (protoAccessor : bool) (text documentId now : string)
  (matches : list LanguageToolMatch) :
  mergedSuggestions protoAccessor text documentId now matches
  = firstOccurrences []
      (convertMatches text documentId now matches
       ++ generateBasicSuggestions protoAccessor text documentId now).
Proof. unfold mergedSuggestions, uniqueSuggestions. apply (filterFrom_firstOccurrences []). Qed.

(** What the handler returns with status 200 and a suggestion list. *)
Lemma serve_suggestions (protoAccessor : bool) (req : Request) (languageTool : FetchResult)
  (now : string) (returned : list SuggestionResponse) :
  serve protoAccessor req languageTool now
  = {| status := 200; body := SuggestionsBody returned |} ->
  (exists httpStatus,
      languageTool = FetchNotOk httpStatus
      /\ returned = generateBasicSuggestions protoAccessor (text req) (documentId req) now)
  \/ (exists matches,
        languageTool = FetchOk matches
        /\ returned = mergedSuggestions protoAccessor (text req) (documentId req) now matches).
Proof.
  unfold serve. destruct (method req); try (intros H; discriminate H).
  destruct (String.eqb (text req) "" || String.eqb (documentId req) "");
    [intros H; discriminate H|].
  destruct (50000 <? Js.len (text req))%Z; [intros H; discriminate H|].
  destruct languageTool as [matches|st|]; intros H; [| |discriminate H];
    injection H as <-; [right; now exists matches | left; now exists st].
Qed.

(** C2.  When the remote service answers, the handler puts the remote
    suggestions first and the local ones second and keeps, of the
    suggestions that have exactly the same start and the same end, the
    first: the list it returns is [firstOccurrences] of the concatenation.
    Hence, when a remote and a local suggestion have the same start and the
    same end, exactly one suggestion with that start and that end is
    returned, it comes from the remote source, and the local one is not
    returned. *)
Theorem reconcile_remote_wins :
  forall (protoAccessor : bool) (req : Request) (matches : list LanguageToolMatch)
         (now : string) (returned : list SuggestionResponse),
    serve protoAccessor req (FetchOk matches) now
    = {| status := 200; body := SuggestionsBody returned |} ->
    returned
    = firstOccurrences []
        (convertMatches (text req) (documentId req) now matches
         ++ generateBasicSuggestions protoAccessor (text req) (documentId req) now)
    /\ forall r l : SuggestionResponse,
         In r (convertMatches (text req) (documentId req) now matches) ->
         In l (generateBasicSuggestions protoAccessor (text req) (documentId req) now) ->
         start_index r = start_index l ->
         end_index r = end_index l ->
         exists r0,
           In r0 (convertMatches (text req) (documentId req) now matches)
           /\ remoteSourced r0 = true
           /\ In r0 returned
           /\ start_index r0 = start_index l
           /\ end_index r0 = end_index l
           /\ (forall s, In s returned ->
                         start_index s = start_index l -> end_index s = end_index l -> s = r0)
           /\ filter (fun s => (start_index s =? start_index l)%Z
                               && (end_index s =? end_index l)%Z) returned = [r0]
           /\ localSourced l = true
           /\ ~ In l returned.
Proof.
  intros protoAccessor req matches now returned Hserve.
  apply serve_suggestions in Hserve as [(st & E & _) | (matches' & E & Hret)];
    [discriminate E | injection E as <-].
  rewrite mergedSuggestions_firstOccurrences in Hret.
  split; [exact Hret|]. intros r l Hr Hl Hs He.
  destruct (first_with_span r _ Hr) as (a & r0 & b & Hsplit & Hr0 & Ha).
  assert (Hlr : equalSpans l r = true) by (apply equalSpans_true; now split).
  assert (Hlr0 : equalSpans l r0 = true) by (eapply equalSpans_trans; eassumption).
  assert (Hin0 : In r0 (convertMatches (text req) (documentId req) now matches))
    by (rewrite Hsplit; apply in_elt).
  assert (Hfilter : filter (equalSpans l) returned = [r0]).
  { rewrite Hret, Hsplit, <- app_assoc. cbn [app].
    rewrite (filter_equalSpans_ext l r0 _ Hlr0).
    apply firstOccurrences_first. cbn [app].
    destruct (existsb (equalSpans r0) a) eqn:E; [|reflexivity].
    rewrite <- Ha. symmetry.
    apply (existsb_equalSpans_compat r r0 a); [now rewrite equalSpans_sym | exact E]. }
  assert (Hlocal : localSourced l = true) by (eapply forEachWord_local, Hl).
  assert (Hkept : forall s, In s returned -> equalSpans l s = true -> s = r0).
  { intros s Hin Hspan.
    assert (Hin' : In s (filter (equalSpans l) returned)) by (apply filter_In; now split).
    rewrite Hfilter in Hin'. destruct Hin' as [<-|[]]. reflexivity. }
  apply equalSpans_true in Hlr0 as Hspan0. destruct Hspan0 as [Hs0 He0].
  exists r0. repeat split.
  - exact Hin0.
  - eapply convertMatches_remote, Hin0.
  - assert (Hin' : In r0 (filter (equalSpans l) returned)) by (rewrite Hfilter; now left).
    now apply filter_In in Hin'.
  - now symmetry.
  - now symmetry.
  - intros s Hin Hss Hse. apply Hkept; [exact Hin|]. apply equalSpans_true. now split.
  - rewrite <- Hfilter. apply filter_ext. intros s. unfold equalSpans.
    now rewrite (Z.eqb_sym (start_index s)), (Z.eqb_sym (end_index s)).
  - exact Hlocal.
  - intros Hin. rewrite (Hkept l Hin (equalSpans_refl l)) in Hlocal.
    eapply sources_disjoint; [eapply convertMatches_remote, Hin0 | exact Hlocal].
Qed.

End Reconciler.

(** ** Order of the returned suggestions *)

Section Ordering.

Import AnalyzeGrammar.

(** The loop of [generateBasicSuggestions] keeps [currentIndex] at or before
    the place where the remaining words occur, so [indexOf] always finds the
    word at or after [currentIndex]: the starts never decrease. *)
Lemma forEachWord_sorted (protoAccessor : bool) (documentId now : string)
  (words : list string) :
  forall (pre suf : string) (wordIndex : nat) (currentIndex : Z),
    OccursIn suf words ->
    (0 <= currentIndex <= Js.len pre)%Z ->
    SortedByStart
      (forEachWord protoAccessor (pre ++ suf) documentId now words wordIndex currentIndex)
    /\ Forall (fun s => (currentIndex <= start_index s)%Z)
         (forEachWord protoAccessor (pre ++ suf) documentId now words wordIndex currentIndex).
Proof.
  induction words as [|w ws IH]; intros pre suf wi ci Hocc Hci.
  - split; constructor.
  - destruct Hocc as (a & b & -> & Hb).
    assert (Htext : pre ++ a ++ w ++ b = (pre ++ a) ++ w ++ b)
      by (now rewrite app_assoc_string).
    assert (Hidx : (ci <= Js.indexOf (pre ++ a ++ w ++ b) w ci <= Js.len (pre ++ a))%Z).
    { rewrite Htext. apply indexOf_app. unfold Js.len in *.
      rewrite string_length_app. lia. }
    assert (Hlen : (0 <= Js.len w)%Z) by (unfold Js.len; lia).
    specialize (IH ((pre ++ a) ++ w) b (S wi)
                  (Js.indexOf (pre ++ a ++ w ++ b) w ci + Js.len w)%Z Hb).
    replace (((pre ++ a) ++ w) ++ b) with (pre ++ a ++ w ++ b) in IH
      by (now rewrite !app_assoc_string).
    destruct IH as [IHsorted IHall].
    { unfold Js.len in *. rewrite !string_length_app in *. lia. }
    assert (IHall' : Forall (fun s => (ci <= start_index s)%Z)
                       (forEachWord protoAccessor (pre ++ a ++ w ++ b) documentId now ws (S wi)
                          (Js.indexOf (pre ++ a ++ w ++ b) w ci + Js.len w)%Z)).
    { eapply Forall_impl; [|exact IHall]. cbv beta. intros s Hs. lia. }
    cbn [forEachWord].
    destruct (Dictionary.get protoAccessor (Dictionary.cleanWord w)); cbn [app]; [|now split].
    split.
    + constructor; [exact IHsorted|].
      eapply Forall_impl; [|exact IHall]. unfold startsBefore. cbn [start_index].
      intros s Hs. lia.
    + constructor; [cbn [start_index]; lia | exact IHall'].
Qed.

(** The basic suggestions of a text are sorted ascending by start. *)
Lemma generateBasicSuggestions_sorted (protoAccessor : bool) (text documentId now : string) :
  SortedByStart (generateBasicSuggestions protoAccessor text documentId now).
Proof.
  unfold generateBasicSuggestions.
  apply (forEachWord_sorted protoAccessor documentId now (Js.split Js.isWhiteSpace text)
           EmptyString text 0 0%Z).
  - apply split_occurs.
  - unfold Js.len. simpl. lia.
Qed.

(** C3, as amended.  The handler never sorts.  On the fallback path (the
    remote service answers with a failure status) the list it returns is
    sorted ascending by start, for every text.  On the merged path it
    returns the remote suggestions in the order of the response followed by
    the local ones, less the later duplicates, so the list is sorted
    whenever that concatenation is. *)
Theorem returned_suggestions_order :
  forall (protoAccessor : bool) (req : Request) (languageTool : FetchResult) (now : string)
         (returned : list SuggestionResponse),
    serve protoAccessor req languageTool now
    = {| status := 200; body := SuggestionsBody returned |} ->
    (forall httpStatus, languageTool = FetchNotOk httpStatus -> SortedByStart returned)
    /\ (forall matches, languageTool = FetchOk matches ->
          returned
          = firstOccurrences []
              (convertMatches (text req) (documentId req) now matches
               ++ generateBasicSuggestions protoAccessor (text req) (documentId req) now)
          /\ (SortedByStart
                (convertMatches (text req) (documentId req) now matches
                 ++ generateBasicSuggestions protoAccessor (text req) (documentId req) now) ->
              SortedByStart returned)).
Proof.
  intros protoAccessor req languageTool now returned Hserve.
  apply serve_suggestions in Hserve as [(st & -> & ->) | (matches & -> & ->)]; split.
  - intros _ _. apply generateBasicSuggestions_sorted.
  - intros matches E. discriminate E.
  - intros st E. discriminate E.
  - intros matches' E. injection E as <-.
    rewrite mergedSuggestions_firstOccurrences.
    split; [reflexivity | apply firstOccurrences_sorted].
Qed.

(** The merged path returns the starts 0, 9, 0 for the text [teh, cat are]
    when the remote service reports [teh] at 0..3 and [are] at 9..12: the
    local token [teh,] spans 0..4, is no duplicate, and comes last. *)
Lemma merged_path_not_sorted :
  exists l,
    serve false sampleRequest (FetchOk sampleMatches) sampleNow
    = {| status := 200; body := SuggestionsBody l |}
    /\ map start_index l = [0; 9; 0]%Z
    /\ ~ SortedByStart l.
Proof.
  eexists. split; [vm_compute; reflexivity|]. split; [reflexivity|].
  intros H. apply StronglySorted_inv in H as [H _].
  apply StronglySorted_inv in H as [_ H].
  apply Forall_inv in H. unfold startsBefore in H. cbn in H. lia.
Qed.

(** A text with three misspellings.  On the fallback path the three local
    suggestions come in the order of the text.  On the merged path, with
    the remote service reporting [teh] at 0..3, the concatenation has the
    starts 0, 0, 8, 16, the local duplicate of 0..3 is dropped, and the
    list returned is sorted. *)
Lemma returned_suggestions_order_witness :
  (map start_index (generateBasicSuggestions false "teh cat adn dog recieve" "d1" sampleNow)
   = [0; 8; 16]%Z
   /\ SortedByStart (generateBasicSuggestions false "teh cat adn dog recieve" "d1" sampleNow))
  /\ (map id (mergedSuggestions false "teh cat adn dog recieve" "d1" sampleNow [tehMatch])
      = ["lt-0-0"; "basic-spell-2-8"; "basic-spell-4-16"]
      /\ SortedByStart
           (mergedSuggestions false "teh cat adn dog recieve" "d1" sampleNow [tehMatch])).
Proof.
  split; (split; [vm_compute; reflexivity|]).
  - refine (proj1 (returned_suggestions_order false threeMisspellings (FetchNotOk 503)
                     sampleNow _ _) 503%Z eq_refl).
    reflexivity.
  - refine (proj2 (proj2 (returned_suggestions_order false threeMisspellings
                            (FetchOk [tehMatch]) sampleNow _ _) [tehMatch] eq_refl) _).
    + reflexivity.
    + unfold SortedByStart.
      match goal with
      | |- StronglySorted _ ?l => let l' := eval vm_compute in l in change l with l'
      end.
      repeat constructor; unfold startsBefore; cbn; lia.
Defined.

End Ordering.

(** ** The scenarios of the fallback path *)

Section Scenarios.

Import AnalyzeGrammar.

(** For [teh cat] both sources report the span 0..3; the remote suggestion
    is the one returned. *)
Lemma reconcile_remote_wins_witness :
  serve false tehRequest (FetchOk [tehMatch]) sampleNow
  = {| status := 200; body := SuggestionsBody [tehRemote] |}
  /\ exists r0,
       In r0 (convertMatches "teh cat" "d1" sampleNow [tehMatch])
       /\ remoteSourced r0 = true
       /\ In r0 [tehRemote]
       /\ start_index r0 = start_index tehLocal
       /\ end_index r0 = end_index tehLocal
       /\ (forall s, In s [tehRemote] ->
                     start_index s = start_index tehLocal ->
                     end_index s = end_index tehLocal -> s = r0)
       /\ filter (fun s => (start_index s =? start_index tehLocal)%Z
                           && (end_index s =? end_index tehLocal)%Z) [tehRemote] = [r0]
       /\ localSourced tehLocal = true
       /\ ~ In tehLocal [tehRemote].
Proof.
  split; [vm_compute; reflexivity|].
  refine (proj2 (reconcile_remote_wins false tehRequest [tehMatch] sampleNow [tehRemote] _)
            tehRemote tehLocal _ _ _ _).
  - vm_compute. reflexivity.
  - left. reflexivity.
  - left. vm_compute. reflexivity.
  - reflexivity.
  - reflexivity.
Defined.

(** C4, as amended.  For the text [Teh qick brown fox.] and any document
    identifier (the handler rejects an empty one), when the remote service
    answers with a failure status the handler returns status 200 and a body
    that holds the suggestion list and nothing else (there is no degraded
    flag), and the list holds a spelling suggestion for the span 0..3, the
    word [Teh]. *)
Theorem fallback_scenario :
  forall (protoAccessor : bool) (documentId : string) (httpStatus : Z) (now : string),
    documentId <> "" ->
    exists l s,
      serve protoAccessor (foxRequest documentId) (FetchNotOk httpStatus) now
      = {| status := 200; body := SuggestionsBody l |}
      /\ In s l
      /\ start_index s = 0%Z
      /\ end_index s = 3%Z
      /\ issue_type s = spelling
      /\ original_text s = "Teh"
      /\ document_id s = documentId.
Proof.
  intros protoAccessor documentId httpStatus now Hdoc.
  unfold serve, foxRequest. cbn [method text AnalyzeGrammar.documentId].
  apply String.eqb_neq in Hdoc. rewrite Hdoc.
  change (String.eqb "Teh qick brown fox." "" || false) with false.
  change (50000 <? Js.len "Teh qick brown fox.")%Z with false. cbv iota.
  set (l := generateBasicSuggestions protoAccessor "Teh qick brown fox." documentId now).
  vm_compute in l.
  eexists l, _. split; [reflexivity|]. split; [left; reflexivity|].
  repeat split.
Qed.

(** The scenario with the document identifier of the specification. *)
Lemma fallback_scenario_witness :
  exists l s,
    serve false (foxRequest "d1") (FetchNotOk 503) sampleNow
    = {| status := 200; body := SuggestionsBody l |}
    /\ In s l
    /\ start_index s = 0%Z
    /\ end_index s = 3%Z
    /\ issue_type s = spelling
    /\ original_text s = "Teh"
    /\ document_id s = "d1".
Proof.
  apply (fallback_scenario false "d1" 503 sampleNow). intros H; discriminate H.
Defined.

(** In that scenario the only suggestion proposes [Teh] again, not [the]:
    the lower-cased key [teh] does not occur in [Teh], so [replace] changes
    nothing.  And an empty document identifier is refused with status 400. *)
Lemma fallback_scenario_suggests_no_the :
  (exists l,
      serve false (foxRequest "d1") (FetchNotOk 503) sampleNow
      = {| status := 200; body := SuggestionsBody l |}
      /\ map suggested_text l = ["Teh"]
      /\ ~ exists s, In s l /\ start_index s = 0%Z /\ end_index s = 3%Z
                     /\ issue_type s = spelling /\ suggested_text s = "the")
  /\ serve false (foxRequest "") (FetchNotOk 503) sampleNow
     = {| status := 400; body := ErrorBody "Text and documentId are required" |}.
Proof.
  split; [|reflexivity].
  eexists. split; [vm_compute; reflexivity|]. split; [reflexivity|].
  intros (s & [<-|[]] & _ & _ & _ & H). discriminate H.
Qed.

(** C10, on the failing input.  For [Teh qick brown fox.] the local source
    of the edge function proposes to replace [Teh] by [Teh]; accepting that
    suggestion leaves the text as it is, and running the source again yields
    the very same suggestion for the same span. *)
Lemma accept_then_rerun_regenerates :
  exists s,
    generateBasicSuggestions false "Teh qick brown fox." "d1" sampleNow = [s]
    /\ (start_index s, end_index s, original_text s, suggested_text s)
       = (0%Z, 3%Z, "Teh", "Teh")
    /\ Editor.handleAcceptSuggestion "Teh qick brown fox." s = "Teh qick brown fox."
    /\ generateBasicSuggestions false
         (Editor.handleAcceptSuggestion "Teh qick brown fox." s) "d1" sampleNow = [s].
Proof.
  eexists. split; [vm_compute; reflexivity|]. repeat split.
Qed.

(** The client-side checker, on the same text, proposes [the], and after
    the acceptance it finds nothing at that span. *)
Lemma client_checker_is_stable_on_scenario :
  exists s,
    SuggestionEngine.basicSpellCheck "Teh qick brown fox." "d1" 0 sampleNow = [s]
    /\ (start_index s, end_index s, original_text s, suggested_text s)
       = (0%Z, 3%Z, "Teh", "the")
    /\ Editor.handleAcceptSuggestion "Teh qick brown fox." s = "the qick brown fox."
    /\ SuggestionEngine.basicSpellCheck (Editor.handleAcceptSuggestion "Teh qick brown fox." s)
         "d1" 0 sampleNow = [].
Proof.
  eexists. split; [vm_compute; reflexivity|]. repeat split.
Qed.

End Scenarios.

(** ** The arithmetic of doubles *)

Section Doubles.

Import Double.

Lemma pow2_pos (e : Z) : (0 < pow2 e)%Q.
Proof. apply Qpower_0_lt. reflexivity. Qed.

Lemma pow2_plus (a b : Z) : (pow2 (a + b) == pow2 a * pow2 b)%Q.
Proof. apply Qpower_plus. intros H. discriminate H. Qed.

Lemma pow2_le (a b : Z) : (a <= b)%Z -> (pow2 a <= pow2 b)%Q.
Proof. intros H. apply Qpower_le_compat_l; [exact H | discriminate]. Qed.

Lemma pow2_lt_inv (a b : Z) : (pow2 a < pow2 b)%Q -> (a < b)%Z.
Proof. intros H. eapply Qpower_lt_compat_l_inv; [exact H | reflexivity]. Qed.

Lemma pow2_Z (n : Z) : (0 <= n)%Z -> (pow2 n == inject_Z (2 ^ n))%Q.
Proof. intros H. unfold pow2. now rewrite Zpower_Qpower. Qed.

Lemma positive_num (x : Q) : (0 < x)%Q <-> (0 < Qnum x)%Z.
Proof. unfold Qlt. simpl. lia. Qed.

(** The binary logarithm is right. *)
Lemma ilog2_spec (x : Q) :
  (0 < x)%Q -> (pow2 (ilog2 x) <= x)%Q /\ (x < pow2 (ilog2 x + 1))%Q.
Proof.
  intros Hx. pose proof (proj1 (positive_num x) Hx) as Hn.
  destruct (Z.log2_spec (Qnum x) Hn) as [Ha Ha'].
  destruct (Z.log2_spec (Zpos (Qden x)) eq_refl) as [Hb Hb'].
  pose proof (Z.log2_nonneg (Qnum x)) as Ha0.
  pose proof (Z.log2_nonneg (Zpos (Qden x))) as Hb0.
  set (a := Z.log2 (Qnum x)) in *. set (b := Z.log2 (Zpos (Qden x))) in *.
  assert (Hd : (0 < inject_Z (Zpos (Qden x)))%Q) by reflexivity.
  assert (Ex : (x == inject_Z (Qnum x) / inject_Z (Zpos (Qden x)))%Q).
  { rewrite <- Qmake_Qdiv. now destruct x. }
  rewrite Zle_Qle, <- pow2_Z in Ha, Hb by assumption.
  rewrite Zlt_Qlt, <- pow2_Z in Ha', Hb' by lia.
  unfold ilog2. fold a b.
  destruct (Qle_bool (pow2 (a - b)) x) eqn:E.
  - apply Qle_bool_iff in E. split; [exact E|].
    rewrite Ex. apply Qlt_shift_div_r; [exact Hd|].
    eapply Qlt_le_trans; [exact Ha'|].
    replace (Z.succ a) with ((a - b + 1) + b)%Z by lia. rewrite pow2_plus.
    apply Qmult_le_l; [apply pow2_pos | exact Hb].
  - assert (E' : (x < pow2 (a - b))%Q).
    { apply Qnot_le_lt. intros H. apply Qle_bool_iff in H. congruence. }
    split; [|now replace (a - b - 1 + 1)%Z with (a - b)%Z by lia].
    rewrite Ex. apply Qle_shift_div_l; [exact Hd|].
    eapply Qle_trans; [|exact Ha].
    replace a with ((a - b - 1) + Z.succ b)%Z at 2 by lia. rewrite pow2_plus.
    apply Qmult_le_l; [apply pow2_pos | apply Qlt_le_weak, Hb'].
Qed.

Lemma nearestEven_near (y : Q) :
  (y - (1 # 2) <= inject_Z (nearestEven y))%Q /\ (inject_Z (nearestEven y) <= y + (1 # 2))%Q.
Proof.
  unfold nearestEven. pose proof (Qfloor_le y) as Hle. pose proof (Qlt_floor y) as Hlt.
  rewrite inject_Z_plus in Hlt. change (inject_Z 1) with 1%Q in Hlt.
  destruct (y - inject_Z (Qfloor y) ?= 1 # 2)%Q eqn:E.
  - apply Qeq_alt in E. destruct (Z.even (Qfloor y));
      rewrite ?inject_Z_plus; change (inject_Z 1) with 1%Q; split; lra.
  - apply Qlt_alt in E. split; lra.
  - apply Qgt_alt in E. rewrite inject_Z_plus. change (inject_Z 1) with 1%Q. split; lra.
Qed.

(** Rounding to an integer does not cross an integer. *)
Lemma nearestEven_le (y : Q) (n : Z) : (y <= inject_Z n)%Q -> (nearestEven y <= n)%Z.
Proof.
  intros H. unfold nearestEven. pose proof (Qfloor_le y) as Hle.
  assert (Hf : (Qfloor y <= n)%Z) by (rewrite Zle_Qle; lra).
  assert (Hlt : (Qfloor y < n)%Z \/ (y - inject_Z (Qfloor y) == 0)%Q).
  { destruct (Z.eq_dec (Qfloor y) n) as [E|E]; [right; rewrite E in *; lra | left; lia]. }
  destruct (y - inject_Z (Qfloor y) ?= 1 # 2)%Q eqn:E; [| lia |].
  - apply Qeq_alt in E. destruct Hlt as [Hlt|Hlt]; [destruct (Z.even _); lia | lra].
  - apply Qgt_alt in E. destruct Hlt as [Hlt|Hlt]; [lia | lra].
Qed.

Lemma nearestEven_ge (y : Q) (n : Z) : (inject_Z n <= y)%Q -> (n <= nearestEven y)%Z.
Proof.
  intros H. unfold nearestEven.
  assert (Hf : (n <= Qfloor y)%Z).
  { rewrite <- (Qfloor_Z n). now apply Qfloor_resp_le. }
  destruct (y - inject_Z (Qfloor y) ?= 1 # 2)%Q; [destruct (Z.even _)| |]; lia.
Qed.

Lemma roundPositive_value (x : Q) :
  (roundPositive x == inject_Z (nearestEven (x / pow2 (exponent x))) * pow2 (exponent x))%Q.
Proof. unfold roundPositive. apply Qred_correct. Qed.

Lemma round_positive (x : Q) : (0 < x)%Q -> round x = roundPositive x.
Proof.
  intros H. apply positive_num in H. unfold round.
  destruct (Qnum x); [lia | reflexivity | lia].
Qed.

Lemma round_zero (x : Q) : (x == 0)%Q -> round x = 0%Q.
Proof.
  intros H. unfold round. unfold Qeq in H. simpl in H.
  now replace (Qnum x) with 0%Z by lia.
Qed.

Lemma scaled (x : Q) (e : Z) : (x / pow2 e * pow2 e == x)%Q.
Proof. field. intros H. pose proof (pow2_pos e). lra. Qed.

(** The rounding error is at most half a unit in the last place. *)
Lemma roundPositive_near (x : Q) :
  (x - pow2 (exponent x) * (1 # 2) <= roundPositive x)%Q
  /\ (roundPositive x <= x + pow2 (exponent x) * (1 # 2))%Q.
Proof.
  rewrite roundPositive_value.
  pose proof (nearestEven_near (x / pow2 (exponent x))) as [Hlo Hhi].
  pose proof (pow2_pos (exponent x)) as Hp.
  pose proof (scaled x (exponent x)) as Hx.
  set (p := pow2 (exponent x)) in *. set (k := inject_Z (nearestEven (x / p))) in *.
  apply (Qmult_le_compat_r _ _ p) in Hlo; [|lra].
  apply (Qmult_le_compat_r _ _ p) in Hhi; [|lra].
  split.
  - eapply Qle_trans; [|exact Hlo]. rewrite <- Hx at 1. ring_simplify. lra.
  - eapply Qle_trans; [exact Hhi|]. rewrite <- Hx at 2. ring_simplify. lra.
Qed.

(** Below 2^53 the doubles include the integers, so rounding does not
    cross an integer. *)
Lemma small_exponent (x : Q) : (0 < x)%Q -> (x < pow2 53)%Q -> (exponent x <= 0)%Z.
Proof.
  intros H0 H. destruct (ilog2_spec x H0) as [Hlo _].
  assert (Hlt : (ilog2 x < 53)%Z) by (apply pow2_lt_inv; lra).
  unfold exponent, emin. lia.
Qed.

Lemma integer_scaled (n e : Z) :
  (e <= 0)%Z -> (inject_Z n / pow2 e == inject_Z (n * 2 ^ (- e)))%Q.
Proof.
  intros He. rewrite inject_Z_mult, <- pow2_Z by lia.
  pose proof (pow2_pos e) as Hp. pose proof (pow2_plus e (- e)) as Hs.
  replace (e + - e)%Z with 0%Z in Hs by lia. change (pow2 0) with 1%Q in Hs.
  apply (Qmult_inj_r _ _ (pow2 e)); [lra|]. rewrite scaled.
  rewrite <- Qmult_assoc, (Qmult_comm (pow2 (- e))), <- Hs. ring.
Qed.

Lemma roundPositive_le_integer (x : Q) (n : Z) :
  (0 < x)%Q -> (x < pow2 53)%Q -> (x <= inject_Z n)%Q -> (roundPositive x <= inject_Z n)%Q.
Proof.
  intros H0 H53 Hn. pose proof (small_exponent x H0 H53) as He.
  pose proof (pow2_pos (exponent x)) as Hp.
  rewrite roundPositive_value.
  rewrite <- (scaled (inject_Z n) (exponent x)).
  apply Qmult_le_compat_r; [|lra].
  rewrite integer_scaled by exact He. rewrite <- Zle_Qle. apply nearestEven_le.
  rewrite <- integer_scaled by exact He.
  apply Qmult_le_compat_r; [exact Hn|]. apply Qlt_le_weak, Qinv_lt_0_compat, Hp.
Qed.

Lemma roundPositive_ge_integer (x : Q) (n : Z) :
  (0 < x)%Q -> (x < pow2 53)%Q -> (inject_Z n <= x)%Q -> (inject_Z n <= roundPositive x)%Q.
Proof.
  intros H0 H53 Hn. pose proof (small_exponent x H0 H53) as He.
  pose proof (pow2_pos (exponent x)) as Hp.
  rewrite roundPositive_value.
  rewrite <- (scaled (inject_Z n) (exponent x)) at 1.
  apply Qmult_le_compat_r; [|lra].
  rewrite integer_scaled by exact He. rewrite <- Zle_Qle. apply nearestEven_ge.
  rewrite <- integer_scaled by exact He.
  apply Qmult_le_compat_r; [exact Hn|]. apply Qlt_le_weak, Qinv_lt_0_compat, Hp.
Qed.

(** A double that is not negative stays so, and one that is at most an
    integer below 2^53 stays so. *)
Lemma round_nonneg (x : Q) : (0 <= x)%Q -> (0 <= round x)%Q.
Proof.
  intros H. destruct (Qlt_le_dec 0 x) as [Hpos|Hneg].
  - rewrite (round_positive x Hpos), roundPositive_value.
    apply Qmult_le_0_compat; [|apply Qlt_le_weak, pow2_pos].
    change 0%Q with (inject_Z 0). rewrite <- Zle_Qle. apply nearestEven_ge.
    apply Qle_shift_div_l; [apply pow2_pos|]. change (inject_Z 0) with 0%Q. lra.
  - rewrite round_zero; lra.
Qed.

Lemma round_le_integer (x : Q) (n : Z) :
  (0 <= x)%Q -> (x <= inject_Z n)%Q -> (n < 2 ^ 53)%Z -> (round x <= inject_Z n)%Q.
Proof.
  intros H0 Hn H53. destruct (Qlt_le_dec 0 x) as [Hpos|Hneg].
  - rewrite (round_positive x Hpos). apply roundPositive_le_integer; try assumption.
    rewrite pow2_Z by lia. rewrite Zlt_Qlt in H53. lra.
  - rewrite round_zero; lra.
Qed.

Lemma round_ge_integer (x : Q) (n : Z) :
  (0 <= inject_Z n)%Q -> (inject_Z n <= x)%Q -> (x < pow2 53)%Q -> (inject_Z n <= round x)%Q.
Proof.
  intros H0 Hn H53. destruct (Qlt_le_dec 0 x) as [Hpos|Hneg].
  - rewrite (round_positive x Hpos). now apply roundPositive_ge_integer.
  - rewrite round_zero; lra.
Qed.

(** The relative error of a rounding is at most 2^-53, unless the number
    is below 2^-1022. *)
Lemma round_relative (x : Q) :
  (0 <= x)%Q ->
  ((x - x * pow2 (-53) <= round x)%Q /\ (round x <= x + x * pow2 (-53))%Q)
  \/ ((x < pow2 (-1022))%Q /\ (round x <= pow2 (-1021))%Q).
Proof.
  intros H. destruct (Qlt_le_dec 0 x) as [Hpos|Hneg].
  2:{ left. rewrite round_zero by lra. pose proof (pow2_pos (-53)).
      assert (E : (x == 0)%Q) by lra. rewrite E. split; lra. }
  rewrite (round_positive x Hpos).
  destruct (ilog2_spec x Hpos) as [Hlo Hhi].
  pose proof (roundPositive_near x) as [Nlo Nhi].
  destruct (Z_le_gt_dec emin (ilog2 x - 52)) as [Hnormal|Hsub].
  - left. assert (E : exponent x = (ilog2 x - 52)%Z) by (unfold exponent; lia).
    rewrite E in Nlo, Nhi.
    assert (Hp : (pow2 (ilog2 x - 52) * (1 # 2) <= x * pow2 (-53))%Q).
    { replace (ilog2 x - 52)%Z with (ilog2 x + (- 53) + 1)%Z by lia.
      rewrite !pow2_plus. change (pow2 1) with 2%Q.
      pose proof (pow2_pos (-53)) as Hq.
      apply (Qmult_le_compat_r _ _ (pow2 (-53))) in Hlo; [|lra]. lra. }
    split; lra.
  - right. assert (E : exponent x = emin) by (unfold exponent; lia).
    rewrite E in Nhi. unfold emin in *.
    assert (Hx : (x < pow2 (-1022))%Q).
    { eapply Qlt_le_trans; [exact Hhi|]. apply pow2_le. lia. }
    assert (H1 : (pow2 (-1074) * (1 # 2) <= pow2 (-1022))%Q).
    { pose proof (pow2_le (-1074) (-1022) ltac:(lia)). pose proof (pow2_pos (-1074)). lra. }
    assert (H2 : (pow2 (-1021) == 2 * pow2 (-1022))%Q).
    { replace (-1021)%Z with (1 + -1022)%Z by lia. now rewrite pow2_plus. }
    split; lra.
Qed.

End Doubles.

(** ** Readability scores *)

Section Readability.

Import AnalyzeReadability.

Lemma tenth_of (k : Q) : (k / 10 == k * (1 # 10))%Q.
Proof. unfold Qdiv. reflexivity. Qed.

(** [Math.round] of a double that is not negative. *)
Lemma Math_round_near (p : Q) :
  (p - (1 # 2) < inject_Z (Js.Math_round p))%Q /\ (inject_Z (Js.Math_round p) <= p + (1 # 2))%Q.
Proof.
  unfold Js.Math_round.
  pose proof (Qfloor_le (p + (1 # 2))) as Hle. pose proof (Qlt_floor (p + (1 # 2))) as Hlt.
  rewrite inject_Z_plus in Hlt. change (inject_Z 1) with 1%Q in Hlt. split; lra.
Qed.

Lemma Math_round_nonneg (p : Q) : (0 <= p)%Q -> (0 <= Js.Math_round p)%Z.
Proof.
  intros H. unfold Js.Math_round. change 0%Z with (Qfloor 0). apply Qfloor_resp_le. lra.
Qed.

Lemma roundToTenth_rounds (x : Q) : (0 <= x)%Q -> RoundedToOneDecimal (roundToTenth x) x.
Proof.
  intros Hx. unfold RoundedToOneDecimal, roundToTenth, Double.div, Double.mul, Double.ofZ.
  exists (Js.Math_round (Double.round (x * 10))). split; [reflexivity|].
  destruct (Math_round_near (Double.round (x * 10))) as [Hlo Hhi]. rewrite tenth_of.
  pose proof (pow2_pos (-53)) as Hu.
  assert (Hx10 : (0 <= x * 10)%Q) by lra.
  pose proof (round_nonneg (x * 10) Hx10) as Hp0.
  pose proof (round_relative (x * 10) Hx10) as [[Rlo Rhi]|[Hsmall Rsmall]];
    set (p := Double.round (x * 10)) in *;
    (split; [lra|]); (split; [lra|]).
  - split; lra.
  - assert (H8 : (Double.pow2 (-1021) <= 1 # 256)%Q)
      by (apply (pow2_le (-1021) (-8)); lia).
    assert (H9 : (Double.pow2 (-1022) <= 1 # 256)%Q)
      by (apply (pow2_le (-1022) (-8)); lia).
    assert (Hk : Js.Math_round p = 0%Z).
    { apply Z.le_antisymm.
      - assert (H : (inject_Z (Js.Math_round p) < inject_Z 1)%Q)
          by (change (inject_Z 1) with 1%Q; lra).
        rewrite <- Zlt_Qlt in H. lia.
      - now apply Math_round_nonneg. }
    rewrite Hk. change (inject_Z 0) with 0%Q.
    assert (Hxu : (0 <= x * Double.pow2 (-53))%Q) by (apply Qmult_le_0_compat; lra).
    split; lra.
Qed.

Lemma roundToTenth_nonneg (x : Q) : (0 <= x)%Q -> (0 <= roundToTenth x)%Q.
Proof.
  intros Hx. unfold roundToTenth, Double.div, Double.mul, Double.ofZ.
  apply round_nonneg. rewrite tenth_of.
  assert (H : (0 <= Js.Math_round (Double.round (x * 10)))%Z)
    by (apply Math_round_nonneg, round_nonneg; lra).
  rewrite Zle_Qle in H. change (inject_Z 0) with 0%Q in H. lra.
Qed.

Lemma roundToTenth_le_100 (x : Q) : (0 <= x)%Q -> (x <= 100)%Q -> (roundToTenth x <= 100)%Q.
Proof.
  intros H0 Hx. unfold roundToTenth, Double.div, Double.mul, Double.ofZ.
  assert (Hp : (Double.round (x * 10) <= inject_Z 1000)%Q).
  { apply round_le_integer; [lra | change (inject_Z 1000) with 1000%Q; lra | reflexivity]. }
  assert (Hp0 : (0 <= Double.round (x * 10))%Q) by (apply round_nonneg; lra).
  destruct (Math_round_near (Double.round (x * 10))) as [_ Hhi].
  assert (Hk : (Js.Math_round (Double.round (x * 10)) <= 1000)%Z).
  { assert (H : (inject_Z (Js.Math_round (Double.round (x * 10))) < inject_Z 1001)%Q).
    { change (inject_Z 1000) with 1000%Q in Hp. change (inject_Z 1001) with 1001%Q. lra. }
    rewrite <- Zlt_Qlt in H. lia. }
  pose proof (Math_round_nonneg _ Hp0) as Hk0.
  rewrite Zle_Qle in Hk, Hk0.
  change (inject_Z 1000) with 1000%Q in Hk. change (inject_Z 0) with 0%Q in Hk0.
  change 100%Q with (inject_Z 100).
  apply round_le_integer; [rewrite tenth_of; lra | | reflexivity].
  rewrite tenth_of. change (inject_Z 100) with 100%Q. lra.
Qed.

(** C5.  For a text with at least one word and one sentence the function
    returns three scores: the reading ease, the formula result clamped to
    [0, 100]; the grade and the automated readability index, each floored at
    0; every one rounded to one decimal place; so the first lies in
    [0, 100] and the other two are not negative.  The formulas are the
    doubles that the source computes. *)
Theorem readability_score_ranges :
  forall (text documentId : string) (nowMs : Z) (nowIso : string),
    0 < wordCount text ->
    0 < sentenceCount text ->
    exists ease grade ari summary,
      calculateReadabilityScores text documentId nowMs nowIso
      = Returned {| readability_scores := [ease; grade; ari]; summary := summary |}
      /\ score_type ease = flesch_reading_ease
      /\ score_type grade = flesch_kincaid_grade
      /\ score_type ari = automated_readability
      /\ (0 <= score_value ease)%Q /\ (score_value ease <= 100)%Q
      /\ (0 <= score_value grade)%Q
      /\ (0 <= score_value ari)%Q
      /\ RoundedToOneDecimal (score_value ease) (Qmax 0 (Qmin 100 (fleschReadingEase text)))
      /\ RoundedToOneDecimal (score_value grade) (Qmax 0 (fleschKincaidGrade text))
      /\ RoundedToOneDecimal (score_value ari) (Qmax 0 (automatedReadability text)).
Proof.
  intros text documentId nowMs nowIso Hw Hs.
  unfold calculateReadabilityScores.
  destruct (sentenceCount text =? 0)%nat eqn:Es; [apply Nat.eqb_eq in Es; lia|].
  destruct (wordCount text =? 0)%nat eqn:Ew; [apply Nat.eqb_eq in Ew; lia|].
  cbn [orb]. do 4 eexists. split; [reflexivity|]. cbn [score_type score_value].
  repeat split; try (apply roundToTenth_rounds, Q.le_max_l).
  - apply roundToTenth_nonneg, Q.le_max_l.
  - apply roundToTenth_le_100; [apply Q.le_max_l|].
    apply Q.max_lub; [lra | apply Q.le_min_l].
  - apply roundToTenth_nonneg, Q.le_max_l.
  - apply roundToTenth_nonneg, Q.le_max_l.
Qed.

(** The three scores of fifteen short sentences, none of them at a bound:
    87, 1.4 and 5.1.  The grade formula gives 1.4499999999999993 in doubles,
    which rounds to 1.4. *)
Lemma readability_score_ranges_witness :
  exists ease grade ari summary,
    calculateReadabilityScores shortSentences "d1" 0 sampleNow
    = Returned {| readability_scores := [ease; grade; ari]; summary := summary |}
    /\ score_type ease = flesch_reading_ease
    /\ score_type grade = flesch_kincaid_grade
    /\ score_type ari = automated_readability
    /\ (0 <= score_value ease)%Q /\ (score_value ease <= 100)%Q
    /\ (0 <= score_value grade)%Q
    /\ (0 <= score_value ari)%Q
    /\ RoundedToOneDecimal (score_value ease) (Qmax 0 (Qmin 100 (fleschReadingEase shortSentences)))
    /\ RoundedToOneDecimal (score_value grade) (Qmax 0 (fleschKincaidGrade shortSentences))
    /\ RoundedToOneDecimal (score_value ari) (Qmax 0 (automatedReadability shortSentences)).
Proof.
  apply (readability_score_ranges shortSentences "d1" 0 sampleNow); vm_compute; lia.
Defined.

(** The scores of that text as the summary and a client print them, and
    the doubles behind them. *)
Example scores_of_short_sentences :
  (wordCount shortSentences, sentenceCount shortSentences, countSyllables shortSentences)
  = (20, 15, 28)
  /\ (Qred (fleschKincaidGrade shortSentences) = (408138716230451 # 281474976710656)%Q
      /\ (fleschKincaidGrade shortSentences < 145 # 100)%Q)
  /\ match calculateReadabilityScores shortSentences "d1" 0 sampleNow with
     | Returned analysis =>
         map (fun s => tenthsToString (score_value s)) (readability_scores analysis)
         = ["87"; "1.4"; "5.1"]
     | Thrown _ => False
     end.
Proof. vm_compute. repeat split. Qed.

End Readability.

(** ** Syllables and words *)

Section Syllables.

Import AnalyzeReadability.

Ltac each_code_unit c := destruct c as [[] [] [] [] [] [] [] []]; reflexivity.

Lemma lowerChar_whitespace (c : ascii) : Js.isWhiteSpace (Js.lowerChar c) = Js.isWhiteSpace c.
Proof. each_code_unit c. Qed.

Lemma lowerChar_letter (c : ascii) : Js.isLowerLetter (Js.lowerChar c) = isAsciiLetter c.
Proof. each_code_unit c. Qed.

Lemma splitRuns_smap (cls : ascii -> bool) (f : ascii -> ascii) :
  (forall c, cls (f c) = cls c) ->
  forall (s : string) (inSep : bool),
    Js.splitRuns cls inSep (Js.smap f s) = map (Js.smap f) (Js.splitRuns cls inSep s).
Proof.
  intros Hf. induction s as [|c s IH]; intros inSep; simpl; [reflexivity|].
  rewrite Hf. destruct (cls c).
  - destruct inSep; simpl; now rewrite IH.
  - rewrite IH. now destruct (Js.splitRuns cls false s).
Qed.

Lemma nonEmpty_smap (f : ascii -> ascii) (s : string) : nonEmpty (Js.smap f s) = nonEmpty s.
Proof. now destruct s. Qed.

Lemma filter_map_commute {A : Type} (p : A -> bool) (f : A -> A) (l : list A) :
  (forall x, p (f x) = p x) -> filter p (map f l) = map f (filter p l).
Proof.
  intros Hp. induction l as [|x l IH]; simpl; [reflexivity|].
  rewrite Hp. destruct (p x); simpl; now rewrite IH.
Qed.

(** Lower-casing the text lower-cases its words and changes none of the
    word boundaries. *)
Lemma wordsOf_toLowerCase (text : string) :
  wordsOf (Js.toLowerCase text) = map Js.toLowerCase (wordsOf text).
Proof.
  unfold wordsOf, Js.split, Js.toLowerCase.
  rewrite (splitRuns_smap _ _ lowerChar_whitespace).
  apply filter_map_commute, nonEmpty_smap.
Qed.

Lemma cleanWord_length (word : string) :
  hasAsciiLetter word = true ->
  String.length
    (Js.removeClass (fun c => negb (Js.isLowerLetter c)) (Js.toLowerCase word)) <> 0.
Proof.
  unfold hasAsciiLetter, Js.removeClass, Js.toLowerCase.
  induction word as [|c w IH]; simpl; [discriminate|].
  rewrite lowerChar_letter. destruct (isAsciiLetter c); simpl; [discriminate | exact IH].
Qed.

Lemma addWordSyllables_ge (total : nat) (word : string) :
  total <= addWordSyllables total word.
Proof.
  unfold addWordSyllables.
  destruct (String.length _ =? 0)%nat; lia.
Qed.

Lemma addWordSyllables_letter (total : nat) (word : string) :
  hasAsciiLetter word = true ->
  S total <= addWordSyllables total (Js.toLowerCase word).
Proof.
  intros H. apply cleanWord_length in H. unfold addWordSyllables.
  destruct (String.length _ =? 0)%nat eqn:E; [apply Nat.eqb_eq in E; contradiction | lia].
Qed.

Lemma syllables_of_words (words : list string) (total : nat) :
  total + List.length (filter hasAsciiLetter words)
  <= fold_left addWordSyllables (map Js.toLowerCase words) total.
Proof.
  revert total; induction words as [|w ws IH]; intros total; simpl; [lia|].
  destruct (hasAsciiLetter w) eqn:E; simpl.
  - pose proof (addWordSyllables_letter total w E).
    pose proof (IH (addWordSyllables total (Js.toLowerCase w))). lia.
  - pose proof (addWordSyllables_ge total (Js.toLowerCase w)).
    pose proof (IH (addWordSyllables total (Js.toLowerCase w))). lia.
Qed.

(** C6, as amended.  The syllable count is at least the number of tokens
    that hold a letter of [[A-Za-z]]: each of them counts for one syllable
    or more, and a token without any letter counts for none.  So the
    syllable count is at least the word count when every token holds a
    letter. *)
Theorem syllables_lower_bound :
  forall text : string,
    List.length (filter hasAsciiLetter (wordsOf text)) <= countSyllables text
    /\ (forallb hasAsciiLetter (wordsOf text) = true ->
        wordCount text <= countSyllables text).
Proof.
  intros text.
  assert (H : List.length (filter hasAsciiLetter (wordsOf text)) <= countSyllables text).
  { unfold countSyllables. rewrite wordsOf_toLowerCase.
    apply (syllables_of_words (wordsOf text) 0). }
  split; [exact H|]. intros Hall. unfold wordCount.
  replace (wordsOf text) with (filter hasAsciiLetter (wordsOf text)) at 1; [exact H|].
  rewrite forallb_forall in Hall. clear H.
  induction (wordsOf text) as [|w ws IH]; simpl; [reflexivity|].
  rewrite (Hall w (or_introl eq_refl)). f_equal. apply IH.
  intros x Hx. apply Hall. now right.
Qed.

(** A text of numbers has twenty words and no syllable. *)
Lemma syllables_below_words :
  numbersOnly <> ""
  /\ wordCount numbersOnly = 20
  /\ countSyllables numbersOnly = 0
  /\ ~ wordCount numbersOnly <= countSyllables numbersOnly.
Proof.
  split; [discriminate|]. split; [reflexivity|]. split; [reflexivity|].
  vm_compute. lia.
Qed.

End Syllables.

(** ** Dominant tone *)

Section Tone.

Import AnalyzeTone.

Lemma dominantTone_scoresOf (a b c d e : Z) :
  exists t,
    dominantTone (scoresOf a b c d e) = Some t
    /\ (forall t', (scoreOf (scoresOf a b c d e) t' <= scoreOf (scoresOf a b c d e) t)%Z)
    /\ (forall t', toneIndex t' < toneIndex t ->
                   (scoreOf (scoresOf a b c d e) t' < scoreOf (scoresOf a b c d e) t)%Z).
Proof.
  unfold dominantTone, scoresOf. cbn [map snd Math_max fold_left findTone].
  set (m := Z.max (Z.max (Z.max (Z.max a b) c) d) e).
  assert (Hm : (a <= m /\ b <= m /\ c <= m /\ d <= m /\ e <= m)%Z) by (unfold m; lia).
  assert (He : (a = m \/ b = m \/ c = m \/ d = m \/ e = m)%Z) by (unfold m; lia).
  destruct (a =? m)%Z eqn:Ea; [exists formal|
  destruct (b =? m)%Z eqn:Eb; [exists casual|
  destruct (c =? m)%Z eqn:Ec; [exists confident|
  destruct (d =? m)%Z eqn:Ed; [exists friendly|
  destruct (e =? m)%Z eqn:Ee; [exists professional|]]]]];
    rewrite ?Z.eqb_eq, ?Z.eqb_neq in *;
    try (split; [reflexivity|]; split; intros t'; destruct t'; cbn; lia).
  lia.
Qed.

(** C7.  The tone reported for a text is a category with the greatest
    total score; every category before it in the order formal, casual,
    confident, friendly, professional has a strictly smaller score; and when
    the five scores are equal the tone is formal. *)
Theorem dominant_tone_tie_break :
  forall (text documentId : string) (nowMs : Z) (nowIso random : string),
    dominantTone (toneScores text)
    = Some (tone_detected (analyzeTone text documentId nowMs nowIso random))
    /\ (forall t',
          (scoreOf (toneScores text) t'
           <= scoreOf (toneScores text)
                (tone_detected (analyzeTone text documentId nowMs nowIso random)))%Z)
    /\ (forall t',
          toneIndex t' < toneIndex (tone_detected (analyzeTone text documentId nowMs nowIso random)) ->
          (scoreOf (toneScores text) t'
           < scoreOf (toneScores text)
               (tone_detected (analyzeTone text documentId nowMs nowIso random)))%Z)
    /\ ((forall t', scoreOf (toneScores text) t' = scoreOf (toneScores text) formal) ->
        tone_detected (analyzeTone text documentId nowMs nowIso random) = formal).
Proof.
  intros text documentId nowMs nowIso random.
  unfold analyzeTone. cbn [tone_detected].
  unfold toneScores. cbv zeta.
  match goal with
  | |- context [dominantTone (scoresOf ?a ?b ?c ?d ?e)] =>
      destruct (dominantTone_scoresOf a b c d e) as (t & -> & Hmax & Hfirst);
      generalize dependent (scoresOf a b c d e)
  end.
  intros scores Hmax Hfirst. repeat split.
  - exact Hmax.
  - exact Hfirst.
  - intros Hall. pose proof (Hfirst formal) as Hlt. pose proof (Hall t) as Heq.
    destruct t; [reflexivity| | | |]; cbn [toneIndex] in Hlt;
      (assert (Hidx : 0 < 1 /\ 0 < 2 /\ 0 < 3 /\ 0 < 4) by lia;
       destruct Hidx as (H1 & H2 & H3 & H4);
       first [specialize (Hlt H1) | specialize (Hlt H2)
             | specialize (Hlt H3) | specialize (Hlt H4)]; lia).
Qed.

(** Twenty full stops: no sentence, no word of any lexicon, five scores of
    zero, and the tone is formal. *)
Example all_scores_equal_is_formal :
  toneScores "...................."
  = scoresOf 0 0 0 0 0
  /\ tone_detected (analyzeTone "...................." "d1" 0 sampleNow "k3j5x0q1z") = formal.
Proof. split; reflexivity. Qed.

(** A tie between casual and confident goes to casual, the earlier one. *)
Example tie_goes_to_the_earlier_category :
  toneScores "Thanks! I definitely think it is cool, you know. The report was submitted."
  = scoresOf 15 20 20 15 0
  /\ tone_detected
       (analyzeTone "Thanks! I definitely think it is cool, you know. The report was submitted."
          "d1" 0 sampleNow "k3j5x0q1z") = casual.
Proof. split; vm_compute; reflexivity. Qed.

End Tone.

(** ** Retry policy *)

Section Retry.

Import AuthStore.

Lemma includes_occurs (s w : string) :
  w <> "" -> (Js.includes s w = true <-> exists n, OccursAt n w s).
Proof.
  intros Hw. unfold Js.includes, OccursAt. split.
  - destruct (String.index 0 w s) as [m|] eqn:E; [|discriminate].
    intros _. exists m. eapply index_correct1, E.
  - intros (n & Hn). destruct (String.index 0 w s) as [m|] eqn:E; [reflexivity|].
    exfalso. eapply (index_correct3 0 n w s E Hw); [lia | exact Hn].
Qed.

(** An error is retried exactly when its lower-cased message holds one of
    the fixed phrases. *)
Lemma isRetryableError_spec (error : Thrown) :
  isRetryableError error = true
  <-> exists phrase n,
        In phrase retryableMessages
        /\ OccursAt n phrase (Js.toLowerCase (rawMessage error)).
Proof.
  unfold isRetryableError. rewrite existsb_exists.
  change (errorMessage error) with (Js.toLowerCase (rawMessage error)).
  split.
  - intros (phrase & Hin & Hinc). exists phrase.
    apply includes_occurs in Hinc as (n & Hn); [now exists n|].
    intros ->. simpl in Hin. repeat destruct Hin as [Hin|Hin]; discriminate || contradiction.
  - intros (phrase & n & Hin & Hn). exists phrase. split; [exact Hin|].
    apply includes_occurs; [|now exists n].
    intros ->. simpl in Hin. repeat destruct Hin as [Hin|Hin]; discriminate || contradiction.
Qed.

Lemma retryLoop_backoff {T : Type} (operation : nat -> Settled T) (maxRetries : nat) (delay : Z) :
  forall (failures attempt : nat) (lastError : Thrown),
    attempt + failures <= maxRetries ->
    (forall i, attempt <= i < attempt + failures ->
               exists e, operation i = Rejected e /\ isRetryableError e = true) ->
    (forall value,
        operation (attempt + failures) = Resolved value ->
        retryLoop operation maxRetries delay lastError (S maxRetries - attempt) attempt
        = (Resolved value, backoff delay attempt failures))
    /\ (forall e,
          operation (attempt + failures) = Rejected e ->
          isRetryableError e = false \/ attempt + failures = maxRetries ->
          retryLoop operation maxRetries delay lastError (S maxRetries - attempt) attempt
          = (Rejected e, backoff delay attempt failures)).
Proof.
  induction failures as [|n IH]; intros attempt lastError Hle Hfail.
  - rewrite Nat.add_0_r in *.
    replace (S maxRetries - attempt) with (S (maxRetries - attempt)) by lia.
    split.
    + intros value Hop. cbn [retryLoop backoff]. now rewrite Hop.
    + intros e Hop Hstop. cbn [retryLoop backoff]. rewrite Hop.
      destruct Hstop as [->| ->]; [reflexivity|].
      rewrite Nat.eqb_refl, orb_true_r. reflexivity.
  - replace (S maxRetries - attempt) with (S (S maxRetries - S attempt)) by lia.
    destruct (Hfail attempt) as (e0 & Hop0 & Hretry0); [lia|].
    assert (Hne : (attempt =? maxRetries)%nat = false) by (apply Nat.eqb_neq; lia).
    destruct (IH (S attempt) e0) as [IHok IHfail]; [lia | intros i Hi; apply Hfail; lia |].
    replace (S attempt + n) with (attempt + S n) in * by lia.
    split.
    + intros value Hop. cbn [retryLoop backoff]. rewrite Hop0, Hretry0, Hne. cbn [negb orb].
      now rewrite (IHok value Hop).
    + intros e Hop Hstop. cbn [retryLoop backoff]. rewrite Hop0, Hretry0, Hne. cbn [negb orb].
      now rewrite (IHfail e Hop Hstop).
Qed.

(** C8.  With the default of three retries: after [failures] (at most
    three) failures whose message holds a network-error phrase, the helper
    has waited [delay], [2 * delay], [4 * delay], ... between the calls; it
    returns the value of the next call if that one succeeds, and it throws
    the error of the next call, with no call after it, if that error holds
    no such phrase or if it is the error of the third retry. *)
Theorem retry_policy :
  forall (T : Type) (operation : nat -> Settled T) (delay : Z) (failures : nat),
    failures <= defaultMaxRetries ->
    (forall i, i < failures ->
               exists e, operation i = Rejected e /\ isRetryableError e = true) ->
    (forall e, isRetryableError e = true
               <-> exists phrase n,
                     In phrase retryableMessages
                     /\ OccursAt n phrase (Js.toLowerCase (rawMessage e)))
    /\ (forall value,
          operation failures = Resolved value ->
          retryOperation operation defaultMaxRetries delay
          = (Resolved value, backoff delay 0 failures))
    /\ (forall e,
          operation failures = Rejected e ->
          isRetryableError e = false \/ failures = defaultMaxRetries ->
          retryOperation operation defaultMaxRetries delay
          = (Rejected e, backoff delay 0 failures))
    /\ backoff delay 0 defaultMaxRetries
       = [ Invoke 0; Wait delay; Invoke 1; Wait (2 * delay)%Z;
           Invoke 2; Wait (4 * delay)%Z; Invoke 3 ].
Proof.
  intros T operation delay failures Hle Hfail.
  split; [exact isRetryableError_spec|].
  destruct (retryLoop_backoff operation defaultMaxRetries delay failures 0 Nullish)
    as [Hok Hstop]; [exact Hle | intros i Hi; apply Hfail; lia |].
  repeat split.
  - exact Hok.
  - exact Hstop.
  - unfold defaultMaxRetries. cbn [backoff].
    change (2 ^ Z.of_nat 0)%Z with 1%Z. change (2 ^ Z.of_nat 1)%Z with 2%Z.
    change (2 ^ Z.of_nat 2)%Z with 4%Z.
    now rewrite Z.mul_1_r, (Z.mul_comm delay 2), (Z.mul_comm delay 4).
Qed.

(** Two network failures and a success: three calls, waits of one and two
    seconds. *)
Lemma retry_policy_witness :
  retryOperation flakyOperation defaultMaxRetries 1000
  = (Resolved 7, [Invoke 0; Wait 1000; Invoke 1; Wait 2000; Invoke 2]).
Proof.
  refine (proj1 (proj2 (retry_policy nat flakyOperation 1000 2 _ _)) 7 eq_refl).
  - unfold defaultMaxRetries. lia.
  - intros i Hi. exists (ErrorObject "TypeError: Failed to fetch" "").
    destruct i as [|[|i]]; [split; reflexivity | split; reflexivity | lia].
Defined.

End Retry.

(** ** The debounce timer of the [SuggestionEngine] *)

Section Debounce.

Import SuggestionEngine.

Lemma run_snoc (events : list Event) (e : Event) :
  run (events ++ [e]) = step (run events) e.
Proof. unfold run. now rewrite fold_left_app. Qed.


Lemma lookup_In (h : nat) (l : list (nat * Job)) (j : Job) :
  lookup h l = Some j -> In (h, j) l.
Proof.
  induction l as [|[h' j'] l IH]; simpl; [discriminate|].
  destruct (h' =? h)%nat eqn:E.
  - apply Nat.eqb_eq in E. intros [= ->]. left. now subst.
  - intros H. right. now apply IH.
Qed.

Lemma without_In (h h' : nat) (j : Job) (l : list (nat * Job)) :
  In (h', j) (without h l) -> In (h', j) l /\ h' <> h.
Proof.
  unfold without. rewrite filter_In. cbn [fst]. intros [Hin Hne]. split; [exact Hin|].
  intros ->. now rewrite Nat.eqb_refl in Hne.
Qed.

Lemma in_handles (h : nat) (l : list (nat * Job)) :
  In h (handles l) <-> exists j, In (h, j) l.
Proof.
  unfold handles. rewrite in_map_iff. split.
  - intros ([h' j] & <- & Hin). now exists j.
  - intros (j & Hin). now exists (h, j).
Qed.

Lemma invariant_initial : Invariant initial.
Proof. split; simpl; try contradiction. now left. Qed.

Lemma timers_cleared (s : State) :
  Invariant s ->
  timers (match debounceTimeout s with
          | Some handle => clearTimeout handle s
          | None => s
          end) = [].
Proof.
  intros [_ _ [Hnil | (h & j & Ht & _ & Hd & _)]].
  - destruct (debounceTimeout s); simpl; rewrite Hnil; reflexivity.
  - rewrite Hd. simpl. rewrite Ht. unfold without. simpl. now rewrite Nat.eqb_refl.
Qed.

(** After a call of [analyzeTextDebounced] the only armed timer is its own. *)
Lemma analyzeTextDebounced_timers (s : State) (job : Job) :
  Invariant s ->
  timers (analyzeTextDebounced job s) = [(nextHandle s, job)]
  /\ debounceTimeout (analyzeTextDebounced job s) = Some (nextHandle s)
  /\ nextHandle (analyzeTextDebounced job s) = S (nextHandle s)
  /\ running (analyzeTextDebounced job s) = running s
  /\ delivered (analyzeTextDebounced job s) = delivered s.
Proof.
  intros Hinv. pose proof (timers_cleared s Hinv) as Hc.
  unfold analyzeTextDebounced.
  destruct (debounceTimeout s); cbn in *; rewrite Hc; repeat split.
Qed.

Lemma invariant_step (s : State) (e : Event) : Invariant s -> Invariant (step s e).
Proof.
  intros Hinv. destruct e as [job | h | h r nowMs nowIso]; cbn [step].
  - destruct (analyzeTextDebounced_timers s job Hinv) as (Ht & Hd & Hn & Hr & Hdl).
    destruct Hinv as [Hrun Hdel _]. split.
    + rewrite Hr, Hn. intros h Hh. apply Hrun in Hh. lia.
    + unfold deliveredJobs. rewrite Hdl, Hn. intros h Hh. apply Hdel in Hh. lia.
    + right. exists (nextHandle s), job. rewrite Hr. unfold deliveredJobs. rewrite Hdl.
      split; [exact Ht|]. split; [now rewrite Hn|]. split; [exact Hd|].
      split; intros Hh; [apply Hrun in Hh | apply Hdel in Hh]; lia.
  - unfold timerFires. destruct (lookup h (timers s)) as [job|] eqn:El; [|exact Hinv].
    destruct Hinv as [Hrun Hdel [Hnil | (h0 & j & Ht & Hn & Hd & Hnr & Hnd)]].
    + now rewrite Hnil in El.
    + rewrite Ht in El. simpl in El.
      destruct (h0 =? h)%nat eqn:E; [|discriminate]. apply Nat.eqb_eq in E. subst h0.
      assert (Hw : without h (timers s) = [])
        by (rewrite Ht; unfold without; simpl; now rewrite Nat.eqb_refl).
      destruct (skipsEdgeFunction (content job)); split; cbn; rewrite ?Hw;
        try (now left); try assumption.
      * unfold deliveredJobs. cbn. rewrite map_app. intros h' Hh'.
        apply in_app_or in Hh' as [Hh'|[<-|[]]]; [now apply Hdel | cbn; lia].
      * unfold handles. rewrite map_app. intros h' Hh'.
        apply in_app_or in Hh' as [Hh'|[<-|[]]]; [now apply Hrun | cbn; lia].
  - unfold invokeSettles. destruct (lookup h (running s)) as [job|] eqn:El; [|exact Hinv].
    apply lookup_In in El.
    assert (Hh : In h (handles (running s))) by (apply in_handles; now exists job).
    assert (Hsub : forall h', In h' (handles (without h (running s))) ->
                              In h' (handles (running s))).
    { intros h' Hh'. apply in_handles in Hh' as (j' & Hj').
      apply without_In in Hj' as [Hj' _]. apply in_handles. now exists j'. }
    destruct Hinv as [Hrun Hdel Ht]. split; cbn.
    + intros h' Hh'. apply Hrun, Hsub, Hh'.
    + unfold deliveredJobs. cbn. rewrite map_app. intros h' Hh'.
      apply in_app_or in Hh' as [Hh'|[<-|[]]]; [now apply Hdel | now apply Hrun].
    + destruct Ht as [Hnil | (h0 & j & Ht & Hn & Hd & Hnr & Hnd)]; [now left|].
      right. exists h0, j. repeat split; try assumption.
      * intros Hh0. apply Hnr, Hsub, Hh0.
      * unfold deliveredJobs. cbn. rewrite map_app. intros Hh0.
        apply in_app_or in Hh0 as [Hh0|[E|[]]]; [now apply Hnd|].
        cbn in E. subst h0. now apply Hnr.
Qed.

Lemma invariant_fold (more : list Event) (s : State) :
  Invariant s -> Invariant (fold_left step more s).
Proof.
  revert s; induction more as [|e more IH]; intros s Hs; simpl; [exact Hs|].
  apply IH, invariant_step, Hs.
Qed.

Lemma invariant_run (events : list Event) : Invariant (run events).
Proof. apply invariant_fold, invariant_initial. Qed.






(** C9, as amended.  The timer is one static field shared by all documents.
    A call of [analyzeTextDebounced], for whatever document, leaves exactly
    one armed timer, its own: an analysis that was pending before the call,
    for the same or for another document, is pending no more. *)
Theorem one_timer_for_all_documents :
  forall (events : list Event) (job : Job),
    timers (run (events ++ [Edit job])) = [(nextHandle (run events), job)]
    /\ debounceTimeout (run (events ++ [Edit job])) = Some (nextHandle (run events))
    /\ (forall h j,
          In (h, j) (timers (run events)) ->
          ~ In (h, j) (timers (run (events ++ [Edit job])))).
Proof.
  intros events job. rewrite run_snoc. cbn [step].
  pose proof (invariant_run events) as Hinv.
  destruct (analyzeTextDebounced_timers (run events) job Hinv) as (Ht & Hd & _).
  split; [exact Ht|]. split; [exact Hd|].
  intros h j Hin. rewrite Ht. intros [[= E _]|[]].
  destruct Hinv as [_ _ [Hnil | (h0 & j0 & Ht0 & Hn0 & _)]].
  - now rewrite Hnil in Hin.
  - rewrite Ht0 in Hin. destruct Hin as [[= <- <-]|[]]. lia.
Qed.

(** An edit of the memo cancels the pending analysis of the essay, which is
    then never made. *)
Lemma other_document_cancels_pending :
  documentId essay <> documentId memo
  /\ timers (run [Edit essay]) = [(1, essay)]
  /\ timers (run [Edit essay; Edit memo]) = [(2, memo)]
  /\ ~ In (1, essay) (timers (run [Edit essay; Edit memo]))
  /\ deliveredJobs
       (run [Edit essay; Edit memo; TimerFires 1; TimerFires 2;
             InvokeSettles 1 InvokeError 0 sampleNow;
             InvokeSettles 2 InvokeError 0 sampleNow]) = [2].
Proof.
  split; [discriminate|]. split; [reflexivity|]. split; [reflexivity|].
  split; [|reflexivity]. cbn. intros [H|[]]. discriminate H.
Qed.

End Debounce.

(** * Further properties of the code *)

(** ** Spans of the local suggestions of [analyze-grammar] *)

Section LocalSpans.

Import AnalyzeGrammar.

Lemma indexOf_occurs (s w : string) (from : Z) :
  (0 <= Js.indexOf s w from)%Z ->
  String.substring (Z.to_nat (Js.indexOf s w from)) (String.length w) s = w.
Proof.
  unfold Js.indexOf. destruct (String.index _ w s) as [m|] eqn:E; [|lia].
  intros _. rewrite Nat2Z.id. eapply index_correct1, E.
Qed.

(** Inside the text, [substring] with integer ends is the substring. *)
Lemma substring_inside (s : string) (a b : Z) :
  (0 <= a <= b)%Z -> (b <= Js.len s)%Z ->
  Js.substring s a b = String.substring (Z.to_nat a) (Z.to_nat (b - a)) s.
Proof.
  intros Ha Hb. unfold Js.substring.
  replace (Z.max 0 (Z.min a (Js.len s))) with a by lia.
  replace (Z.max 0 (Z.min b (Js.len s))) with b by lia.
  now replace (Z.min a b) with a by lia; replace (Z.max a b) with b by lia.
Qed.

Lemma forEachWord_spans (protoAccessor : bool) (documentId now : string)
  (words : list string) :
  forall (pre suf : string) (wordIndex : nat) (currentIndex : Z),
    OccursIn suf words ->
    (0 <= currentIndex <= Js.len pre)%Z ->
    Forall (fun s => (currentIndex <= start_index s)%Z /\ spanHolds (pre ++ suf) s)
      (forEachWord protoAccessor (pre ++ suf) documentId now words wordIndex currentIndex)
    /\ StronglySorted endsBefore
         (forEachWord protoAccessor (pre ++ suf) documentId now words wordIndex currentIndex).
Proof.
  induction words as [|w ws IH]; intros pre suf wi ci Hocc Hci.
  - split; constructor.
  - destruct Hocc as (a & b & -> & Hb).
    assert (Htext : pre ++ a ++ w ++ b = (pre ++ a) ++ w ++ b)
      by (now rewrite app_assoc_string).
    remember (pre ++ a ++ w ++ b) as text eqn:Etext.
    assert (Hidx : (ci <= Js.indexOf text w ci <= Js.len (pre ++ a))%Z).
    { rewrite Htext. apply indexOf_app. unfold Js.len in *.
      rewrite string_length_app. lia. }
    assert (Hlen : (Js.len text = Js.len (pre ++ a) + Js.len w + Js.len b)%Z).
    { rewrite Htext. unfold Js.len. rewrite !string_length_app. lia. }
    assert (Hw : (0 <= Js.len w)%Z /\ (0 <= Js.len b)%Z) by (unfold Js.len; lia).
    specialize (IH ((pre ++ a) ++ w) b (S wi) (Js.indexOf text w ci + Js.len w)%Z Hb).
    replace (((pre ++ a) ++ w) ++ b) with text in IH
      by (rewrite Htext; now rewrite !app_assoc_string).
    destruct IH as [IHall IHsorted].
    { unfold Js.len in *. rewrite !string_length_app in *. lia. }
    cbn [forEachWord].
    destruct (Dictionary.get protoAccessor (Dictionary.cleanWord w)); cbn [app].
    + split.
      * constructor.
        -- cbn [start_index end_index original_text]. split; [lia|].
           unfold spanHolds. cbn [start_index end_index original_text].
           repeat split; try lia.
           rewrite substring_inside by lia.
           replace (Js.indexOf text w ci + Js.len w - Js.indexOf text w ci)%Z
             with (Js.len w) by lia.
           unfold Js.len at 1. rewrite Nat2Z.id. apply indexOf_occurs. lia.
        -- eapply Forall_impl; [|exact IHall]. cbv beta. intros s [Hs Hspan].
           split; [lia | exact Hspan].
      * constructor; [exact IHsorted|].
        eapply Forall_impl; [|exact IHall]. unfold endsBefore. cbn [end_index].
        intros s [Hs _]. exact Hs.
    + split; [|exact IHsorted].
      eapply Forall_impl; [|exact IHall]. cbv beta. intros s [Hs Hspan].
      split; [lia | exact Hspan].
Qed.

(** X1.  Every suggestion of the local source points into the text: its
    span starts at 0 or later, ends no later than the text, is as long as
    its original text, and the text between its ends is its original
    text. *)
Theorem local_suggestions_point_into_text :
  forall (protoAccessor : bool) (text documentId now : string) (s : SuggestionResponse),
    In s (generateBasicSuggestions protoAccessor text documentId now) ->
    (0 <= start_index s)%Z
    /\ (end_index s = start_index s + Js.len (original_text s))%Z
    /\ (end_index s <= Js.len text)%Z
    /\ Js.substring text (start_index s) (end_index s) = original_text s.
Proof.
  intros protoAccessor text documentId now s Hin.
  destruct (forEachWord_spans protoAccessor documentId now (Js.split Js.isWhiteSpace text)
              EmptyString text 0 0%Z (split_occurs _ text)) as [Hall _].
  - unfold Js.len. simpl. lia.
  - rewrite Forall_forall in Hall. now apply Hall in Hin as [_ Hspan].
Qed.

Lemma local_suggestions_point_into_text_witness :
  (0 <= start_index tehLocal)%Z
  /\ (end_index tehLocal = start_index tehLocal + Js.len (original_text tehLocal))%Z
  /\ (end_index tehLocal <= Js.len "teh cat")%Z
  /\ Js.substring "teh cat" (start_index tehLocal) (end_index tehLocal)
     = original_text tehLocal.
Proof.
  apply (local_suggestions_point_into_text false "teh cat" "d1" sampleNow tehLocal).
  left. vm_compute. reflexivity.
Defined.

(** X2.  The local suggestions of a text never overlap: in the order of the
    list, each one ends before the next ones start. *)
Theorem local_suggestions_do_not_overlap :
  forall (protoAccessor : bool) (text documentId now : string),
    StronglySorted endsBefore (generateBasicSuggestions protoAccessor text documentId now).
Proof.
  intros protoAccessor text documentId now.
  apply (forEachWord_spans protoAccessor documentId now (Js.split Js.isWhiteSpace text)
           EmptyString text 0 0%Z (split_occurs _ text)).
  unfold Js.len. simpl. lia.
Qed.

End LocalSpans.

(** ** The duplicate filter and the identifiers of [analyze-grammar] *)

Section UniqueSuggestions.

Import AnalyzeGrammar.

Lemma equalSpans_spanOf (x y : SuggestionResponse) :
  equalSpans x y = true <-> spanOf x = spanOf y.
Proof.
  rewrite equalSpans_true. unfold spanOf. split.
  - intros [-> ->]. reflexivity.
  - intros [= -> ->]. now split.
Qed.

Lemma uniqueSuggestions_firstOccurrences (l : list SuggestionResponse) :
  uniqueSuggestions l = firstOccurrences [] l.
Proof. apply (filterFrom_firstOccurrences []). Qed.

Lemma firstOccurrences_unseen (l seen : list SuggestionResponse) (y : SuggestionResponse) :
  In y (firstOccurrences seen l) -> existsb (equalSpans y) seen = false.
Proof.
  revert seen; induction l as [|x r IH]; intros seen; simpl; [contradiction|].
  assert (Hnext : In y (firstOccurrences (seen ++ [x]) r) -> existsb (equalSpans y) seen = false).
  { intros H. apply IH in H. rewrite existsb_app in H. now apply orb_false_iff in H. }
  destruct (existsb (equalSpans x) seen) eqn:Hx; [exact Hnext|].
  intros [<-|H]; [exact Hx | now apply Hnext].
Qed.

Lemma firstOccurrences_NoDup (l seen : list SuggestionResponse) :
  NoDup (map spanOf (firstOccurrences seen l)).
Proof.
  revert seen; induction l as [|x r IH]; intros seen; simpl; [constructor|].
  destruct (existsb (equalSpans x) seen); [apply IH|].
  simpl. constructor; [|apply IH].
  intros Hin. apply in_map_iff in Hin as (y & Hy & Hin).
  apply firstOccurrences_unseen in Hin. rewrite existsb_app in Hin.
  apply orb_false_iff in Hin as [_ Hin]. simpl in Hin.
  assert (Hs : equalSpans y x = true) by (apply equalSpans_spanOf; now rewrite Hy).
  now rewrite Hs in Hin.
Qed.

Lemma firstOccurrences_covers (l seen : list SuggestionResponse) (x : SuggestionResponse) :
  In x l ->
  existsb (equalSpans x) seen = true
  \/ exists y, In y (firstOccurrences seen l) /\ spanOf y = spanOf x.
Proof.
  revert seen; induction l as [|z r IH]; intros seen; simpl; [contradiction|].
  intros Hin.
  destruct (existsb (equalSpans x) seen) eqn:Hx; [now left | right].
  destruct (equalSpans x z) eqn:Hxz.
  - destruct (existsb (equalSpans z) seen) eqn:Hz.
    + rewrite (existsb_equalSpans_compat x z seen) in Hx; [discriminate | | exact Hz].
      now rewrite equalSpans_sym.
    + exists z. split; [now left | symmetry; now apply equalSpans_spanOf].
  - destruct Hin as [->|Hin]; [now rewrite equalSpans_refl in Hxz|].
    destruct (IH (seen ++ [z])%list Hin) as [H | (y & Hy & Hs)].
    + rewrite existsb_app, Hx in H. simpl in H. now rewrite Hxz in H.
    + exists y. split; [|exact Hs].
      destruct (existsb (equalSpans z) seen); [exact Hy | now right].
Qed.

Lemma firstOccurrences_fixed (l seen : list SuggestionResponse) :
  NoDup (map spanOf l) ->
  (forall y, In y l -> existsb (equalSpans y) seen = false) ->
  firstOccurrences seen l = l.
Proof.
  revert seen; induction l as [|x r IH]; intros seen Hnd Hseen; simpl; [reflexivity|].
  rewrite (Hseen x (or_introl eq_refl)). f_equal.
  simpl in Hnd. apply NoDup_cons_iff in Hnd as [Hx Hnd].
  apply IH; [exact Hnd|]. intros y Hy.
  rewrite existsb_app, (Hseen y (or_intror Hy)). simpl.
  destruct (equalSpans y x) eqn:Hyx; [|reflexivity].
  exfalso. apply Hx. apply in_map_iff. exists y. split; [|exact Hy].
  now apply equalSpans_spanOf.
Qed.

(** X3.  The duplicate filter keeps suggestions of the list it is given, no
    two of them with the same span, at least one for every span of the
    list; applied to its own result it changes nothing. *)
Theorem uniqueSuggestions_spans :
  forall l : list SuggestionResponse,
    (forall y, In y (uniqueSuggestions l) -> In y l)
    /\ NoDup (map spanOf (uniqueSuggestions l))
    /\ (forall x, In x l -> exists y, In y (uniqueSuggestions l) /\ spanOf y = spanOf x)
    /\ uniqueSuggestions (uniqueSuggestions l) = uniqueSuggestions l.
Proof.
  intros l. rewrite !uniqueSuggestions_firstOccurrences.
  split; [intros y; apply firstOccurrences_In|].
  split; [apply firstOccurrences_NoDup|].
  split.
  - intros x Hx. destruct (firstOccurrences_covers l [] x Hx) as [H|H];
      [discriminate H | exact H].
  - apply firstOccurrences_fixed; [apply firstOccurrences_NoDup | reflexivity].
Qed.

End UniqueSuggestions.

Section Identifiers.

Import AnalyzeGrammar.

Lemma uint_digits (d : Decimal.uint) : sforall isDigit (NilEmpty.string_of_uint d) = true.
Proof. induction d; simpl; [reflexivity | exact IHd ..]. Qed.

(** The decimal rendering of a natural number holds digits only. *)
Lemma numberToString_digits (n : nat) :
  sforall isDigit (Js.numberToString (Z.of_nat n)) = true.
Proof.
  unfold Js.numberToString. destruct (Z.of_nat n) as [|p|p] eqn:E; [reflexivity | | lia].
  cbn [Z.to_int NilZero.string_of_int]. unfold NilZero.string_of_uint.
  pose proof (uint_digits (Pos.to_uint p)) as H.
  destruct (Pos.to_uint p); [reflexivity | exact H ..].
Qed.

(** Two integers with the same decimal rendering are equal. *)
Lemma numberToString_inj (a b : Z) : Js.numberToString a = Js.numberToString b -> a = b.
Proof.
  unfold Js.numberToString. intros H. apply DecimalZ.to_int_inj.
  assert (Hn : forall z, Z.to_int z <> Decimal.Pos Decimal.Nil
                         /\ Z.to_int z <> Decimal.Neg Decimal.Nil).
  { intros [|p|p]; cbn; split; try discriminate;
      intros [= E]; now apply (DecimalPos.Unsigned.to_uint_nonnil p). }
  pose proof (NilZero.isi (Z.to_int a) (proj1 (Hn a)) (proj2 (Hn a))) as Ha.
  pose proof (NilZero.isi (Z.to_int b) (proj1 (Hn b)) (proj2 (Hn b))) as Hb.
  rewrite H, Hb in Ha. now injection Ha.
Qed.

(** A run of digits before a hyphen is read back without ambiguity. *)
Lemma digits_hyphen (a a' b b' : string) :
  sforall isDigit a = true -> sforall isDigit a' = true ->
  a ++ "-" ++ b = a' ++ "-" ++ b' -> a = a'.
Proof.
  revert a'; induction a as [|c a IH]; intros [|c' a'] Ha Ha' E; simpl in *.
  - reflexivity.
  - injection E as <- _. discriminate Ha'.
  - injection E as -> _. discriminate Ha.
  - injection E as <- E. apply andb_true_iff in Ha as [_ Ha].
    apply andb_true_iff in Ha' as [_ Ha']. f_equal. eapply IH; eassumption.
Qed.

Lemma indexed_id_inj (pre b b' : string) (i j : nat) :
  pre ++ Js.numberToString (Z.of_nat i) ++ "-" ++ b
  = pre ++ Js.numberToString (Z.of_nat j) ++ "-" ++ b' ->
  i = j.
Proof.
  intros E. assert (E' : Js.numberToString (Z.of_nat i) ++ "-" ++ b
                         = Js.numberToString (Z.of_nat j) ++ "-" ++ b').
  { induction pre as [|c pre IH]; simpl in E; [exact E|]. injection E as E. now apply IH. }
  apply digits_hyphen in E'; try apply numberToString_digits.
  apply numberToString_inj in E'. lia.
Qed.

Lemma mapWithIndex_In_from {A B : Type} (f : nat -> A -> B) (l : list A) (k : nat) (y : B) :
  In y (mapWithIndex f k l) -> exists j x, k <= j /\ y = f j x.
Proof.
  revert k; induction l as [|x l IH]; intros k; simpl; [contradiction|].
  intros [<-|H]; [now exists k, x|].
  apply IH in H as (j & x' & Hj & ->). exists j, x'. split; [lia | reflexivity].
Qed.

Lemma convertMatches_ids (text documentId now : string) (matches : list LanguageToolMatch)
  (k : nat) :
  NoDup (map id (mapWithIndex (convertMatch text documentId now) k matches)).
Proof.
  revert k; induction matches as [|m l IH]; intros k; simpl; [constructor|].
  constructor; [|apply IH].
  intros Hin. apply in_map_iff in Hin as (y & Hy & Hin).
  apply mapWithIndex_In_from in Hin as (j & m' & Hj & ->).
  cbn [id convertMatch] in Hy.
  pose proof (indexed_id_inj "lt-" (Js.numberToString (m_offset m'))
                (Js.numberToString (m_offset m)) j k Hy). lia.
Qed.

Lemma forEachWord_id (protoAccessor : bool) (text documentId now : string)
  (words : list string) (wordIndex : nat) (currentIndex : Z) (s : SuggestionResponse) :
  In s (forEachWord protoAccessor text documentId now words wordIndex currentIndex) ->
  exists j b, wordIndex <= j
              /\ id s = "basic-spell-" ++ Js.numberToString (Z.of_nat j) ++ "-" ++ b.
Proof.
  revert wordIndex currentIndex; induction words as [|w ws IH]; intros wi ci;
    cbn [forEachWord]; [contradiction|].
  intros H. apply in_app_or in H as [H|H].
  - destruct (Dictionary.get protoAccessor (Dictionary.cleanWord w)) as [v|];
      [|contradiction].
    destruct H as [H|[]]. rewrite <- H. cbn [id]. eexists wi, _. split; [lia | reflexivity].
  - apply IH in H as (j & b & Hj & ->). exists j, b. split; [lia | reflexivity].
Qed.

Lemma forEachWord_ids (protoAccessor : bool) (text documentId now : string)
  (words : list string) (wordIndex : nat) (currentIndex : Z) :
  NoDup (map id (forEachWord protoAccessor text documentId now words wordIndex currentIndex)).
Proof.
  revert wordIndex currentIndex; induction words as [|w ws IH]; intros wi ci;
    cbn [forEachWord]; [constructor|].
  destruct (Dictionary.get protoAccessor (Dictionary.cleanWord w)) as [v|]; cbn [app];
    [|apply IH].
  cbn [map]. constructor; [|apply IH].
  intros Hin. apply in_map_iff in Hin as (y & Hy & Hin).
  apply forEachWord_id in Hin as (j & b & Hj & E). rewrite E in Hy. cbn [id] in Hy.
  pose proof (indexed_id_inj "basic-spell-" b (Js.numberToString (Js.indexOf text w ci))
                j wi Hy). lia.
Qed.

Lemma firstOccurrences_ids (l seen : list SuggestionResponse) :
  NoDup (map id l) -> NoDup (map id (firstOccurrences seen l)).
Proof.
  revert seen; induction l as [|x r IH]; intros seen Hnd; simpl; [constructor|].
  simpl in Hnd. apply NoDup_cons_iff in Hnd as [Hx Hnd].
  destruct (existsb (equalSpans x) seen); [now apply IH|].
  simpl. constructor; [|now apply IH].
  intros Hin. apply Hx. apply in_map_iff in Hin as (y & Hy & Hin).
  apply in_map_iff. exists y. split; [exact Hy | eapply firstOccurrences_In, Hin].
Qed.

Lemma mergedSuggestions_ids (protoAccessor : bool) (text documentId now : string)
  (matches : list LanguageToolMatch) :
  NoDup (map id (mergedSuggestions protoAccessor text documentId now matches)).
Proof.
  rewrite mergedSuggestions_firstOccurrences. apply firstOccurrences_ids.
  rewrite map_app. apply NoDup_app.
  - apply convertMatches_ids.
  - apply forEachWord_ids.
  - intros i Hr Hl.
    apply in_map_iff in Hr as (r & <- & Hr). apply in_map_iff in Hl as (l & El & Hl).
    apply convertMatches_remote in Hr. apply forEachWord_local in Hl.
    unfold remoteSourced, localSourced in *. rewrite <- El in Hr.
    apply prefix_head in Hr as (x & Hx). apply prefix_head in Hl as (y & Hy).
    rewrite Hx in Hy. discriminate Hy.
Qed.

(** X4.  The suggestions of one response have pairwise distinct
    identifiers, on the merged path and on the fallback path alike. *)
Theorem response_identifiers_distinct :
  forall (protoAccessor : bool) (req : Request) (languageTool : FetchResult) (now : string)
         (returned : list SuggestionResponse),
    serve protoAccessor req languageTool now
    = {| status := 200; body := SuggestionsBody returned |} ->
    NoDup (map id returned).
Proof.
  intros protoAccessor req languageTool now returned Hserve.
  apply serve_suggestions in Hserve as [(st & _ & ->) | (matches & _ & ->)].
  - apply forEachWord_ids.
  - apply mergedSuggestions_ids.
Qed.

Lemma response_identifiers_distinct_witness :
  NoDup (map id (mergedSuggestions false "teh, cat are" "d1" sampleNow sampleMatches)).
Proof.
  apply (response_identifiers_distinct false sampleRequest (FetchOk sampleMatches) sampleNow).
  reflexivity.
Defined.

End Identifiers.

(** ** Accepting and dismissing a suggestion *)

Section AcceptAndDismiss.

Import AnalyzeGrammar.

Lemma substring_whole (s : string) : String.substring 0 (String.length s) s = s.
Proof. induction s as [|c r IH]; [reflexivity|]. simpl. now rewrite IH. Qed.

Lemma substring_nothing (s : string) : String.substring 0 0 s = EmptyString.
Proof. now destruct s. Qed.

(** A string is what lies before a span, the span, and what lies after. *)
Lemma substring_split (s : string) :
  forall n m : nat,
    n + m <= String.length s ->
    s = String.substring 0 n s ++ String.substring n m s
        ++ String.substring (n + m) (String.length s - (n + m)) s.
Proof.
  induction s as [|c r IH]; intros n m Hle.
  - simpl in Hle. now replace n with 0 by lia; replace m with 0 by lia.
  - destruct n as [|n].
    + destruct m as [|m].
      * simpl. now rewrite substring_whole.
      * simpl in Hle. simpl. f_equal.
        pose proof (IH 0 m) as H. rewrite substring_nothing in H. apply H. lia.
    + simpl in Hle. simpl. f_equal. apply IH. lia.
Qed.

Lemma substring_length_exact (s : string) :
  forall n m : nat,
    n + m <= String.length s -> String.length (String.substring n m s) = m.
Proof.
  induction s as [|c r IH]; intros n m Hle; simpl in Hle.
  - now replace n with 0 by lia; replace m with 0 by lia.
  - destruct n as [|n]; [destruct m as [|m]|]; simpl; [reflexivity | | ].
    + f_equal. apply IH. lia.
    + apply IH. lia.
Qed.

(** The three parts of a text around a span that lies inside it. *)
Lemma span_split (content : string) (a b : Z) :
  (0 <= a <= b)%Z -> (b <= Js.len content)%Z ->
  content = Js.substring content 0 a ++ Js.substring content a b ++ Js.substringFrom content b
  /\ Js.len (Js.substring content 0 a) = a
  /\ Js.len (Js.substring content a b) = (b - a)%Z.
Proof.
  intros Ha Hb. unfold Js.substringFrom.
  rewrite !substring_inside by (unfold Js.len in *; lia).
  change (Z.to_nat 0) with 0. rewrite Z.sub_0_r.
  assert (Hlen : Z.to_nat (Js.len content - b) = String.length content - (Z.to_nat a + Z.to_nat (b - a)))
    by (unfold Js.len in *; lia).
  rewrite Hlen.
  replace (Z.to_nat b) with (Z.to_nat a + Z.to_nat (b - a)) by lia.
  split; [apply substring_split; unfold Js.len in *; lia|].
  unfold Js.len in *. rewrite !substring_length_exact by lia. lia.
Qed.

(** X5.  When the span of the accepted suggestion lies inside the content,
    the new content is the old one with exactly that span replaced by the
    suggested text: what is before the span and what is after it are kept,
    and the length changes by the difference of the two lengths. *)
Theorem accept_replaces_the_span :
  forall (content : string) (suggestion : SuggestionResponse),
    (0 <= start_index suggestion <= end_index suggestion)%Z ->
    (end_index suggestion <= Js.len content)%Z ->
    exists before after : string,
      content
      = before ++ Js.substring content (start_index suggestion) (end_index suggestion) ++ after
      /\ Js.len before = start_index suggestion
      /\ Editor.handleAcceptSuggestion content suggestion
         = before ++ suggested_text suggestion ++ after
      /\ Js.len (Editor.handleAcceptSuggestion content suggestion)
         = (Js.len content - (end_index suggestion - start_index suggestion)
            + Js.len (suggested_text suggestion))%Z.
Proof.
  intros content s Ha Hb.
  destruct (span_split content (start_index s) (end_index s) Ha Hb) as (Hsplit & Hbefore & Hspan).
  exists (Js.substring content 0 (start_index s)), (Js.substringFrom content (end_index s)).
  split; [exact Hsplit|]. split; [exact Hbefore|]. split; [reflexivity|].
  unfold Editor.handleAcceptSuggestion.
  assert (Hlen : Js.len content
                 = (Js.len (Js.substring content 0 (start_index s))
                    + Js.len (Js.substring content (start_index s) (end_index s))
                    + Js.len (Js.substringFrom content (end_index s)))%Z).
  { rewrite Hsplit at 1. unfold Js.len. rewrite !string_length_app. lia. }
  unfold Js.len in *. rewrite !string_length_app. lia.
Qed.

Lemma accept_replaces_the_span_witness :
  exists before after : string,
    "teh cat" = before ++ Js.substring "teh cat" (start_index tehLocal) (end_index tehLocal) ++ after
    /\ Js.len before = start_index tehLocal
    /\ Editor.handleAcceptSuggestion "teh cat" tehLocal = before ++ suggested_text tehLocal ++ after
    /\ Js.len (Editor.handleAcceptSuggestion "teh cat" tehLocal)
       = (Js.len "teh cat" - (end_index tehLocal - start_index tehLocal)
          + Js.len (suggested_text tehLocal))%Z.
Proof.
  apply (accept_replaces_the_span "teh cat" tehLocal); unfold Js.len; simpl; lia.
Defined.

Lemma generateBasicSuggestions_spans (protoAccessor : bool) (text documentId now : string) :
  Forall (spanHolds text) (generateBasicSuggestions protoAccessor text documentId now).
Proof.
  destruct (forEachWord_spans protoAccessor documentId now (Js.split Js.isWhiteSpace text)
              EmptyString text 0 0%Z (split_occurs _ text)) as [Hall _].
  - unfold Js.len. simpl. lia.
  - eapply Forall_impl; [|exact Hall]. now intros s [_ H].
Qed.

(** X6.  Accepting a suggestion of the local source of [analyze-grammar] on
    the text it was computed for replaces the flagged word, where it
    stands, by the suggested text and changes nothing else. *)
Theorem accept_local_suggestion :
  forall (protoAccessor : bool) (text documentId now : string) (s : SuggestionResponse),
    In s (generateBasicSuggestions protoAccessor text documentId now) ->
    exists before after : string,
      text = before ++ original_text s ++ after
      /\ Js.len before = start_index s
      /\ Editor.handleAcceptSuggestion text s = before ++ suggested_text s ++ after.
Proof.
  intros protoAccessor text documentId now s Hin.
  pose proof (generateBasicSuggestions_spans protoAccessor text documentId now) as Hall.
  rewrite Forall_forall in Hall. destruct (Hall s Hin) as (H0 & Hend & Hle & Htext).
  assert (Hlen : (0 <= Js.len (original_text s))%Z) by (unfold Js.len; lia).
  destruct (span_split text (start_index s) (end_index s)) as (Hsplit & Hbefore & _);
    [lia | lia |].
  exists (Js.substring text 0 (start_index s)), (Js.substringFrom text (end_index s)).
  rewrite Htext in Hsplit. now repeat split.
Qed.

Lemma accept_local_suggestion_witness :
  exists before after : string,
    "teh cat" = before ++ original_text tehLocal ++ after
    /\ Js.len before = start_index tehLocal
    /\ Editor.handleAcceptSuggestion "teh cat" tehLocal = before ++ suggested_text tehLocal ++ after.
Proof.
  apply (accept_local_suggestion false "teh cat" "d1" sampleNow tehLocal).
  left. vm_compute. reflexivity.
Defined.

Lemma filter_other_ids (l : list SuggestionResponse) (s : SuggestionResponse) :
  NoDup (map id l) -> In s l ->
  forall x, In x (filter (fun y => negb (String.eqb (id y) (id s))) l) <-> In x l /\ x <> s.
Proof.
  intros Hnd Hin x. rewrite filter_In. split.
  - intros [Hx Hid]. split; [exact Hx|]. intros ->. now rewrite String.eqb_refl in Hid.
  - intros [Hx Hne]. split; [exact Hx|].
    destruct (String.eqb (id x) (id s)) eqn:E; [|reflexivity]. exfalso. apply Hne.
    apply String.eqb_eq in E. clear Hne.
    induction l as [|y r IH]; [contradiction|].
    simpl in Hnd. inversion Hnd as [|? ? Hnotin Hnd']; subst.
    destruct Hx as [->|Hx], Hin as [->|Hin].
    + reflexivity.
    + exfalso. apply Hnotin. rewrite E. now apply in_map.
    + exfalso. apply Hnotin. rewrite <- E. now apply in_map.
    + now apply IH.
Qed.

Lemma filter_other_ids_length (l : list SuggestionResponse) (s : SuggestionResponse) :
  NoDup (map id l) -> In s l ->
  S (List.length (filter (fun y => negb (String.eqb (id y) (id s))) l)) = List.length l.
Proof.
  induction l as [|y r IH]; intros Hnd Hin; [contradiction|].
  simpl in Hnd. inversion Hnd as [|? ? Hnotin Hnd']; subst.
  destruct Hin as [->|Hin].
  - cbn [filter]. rewrite String.eqb_refl. cbn [negb List.length]. f_equal.
    f_equal. clear IH Hnd Hnd'. induction r as [|z r IH]; [reflexivity|].
    cbn [filter]. destruct (String.eqb (id z) (id s)) eqn:E.
    + exfalso. apply Hnotin. apply String.eqb_eq in E. rewrite <- E. now left.
    + cbn [negb]. f_equal. apply IH. intros H. apply Hnotin. now right.
  - cbn [filter]. destruct (String.eqb (id y) (id s)) eqn:E.
    + exfalso. apply Hnotin. apply String.eqb_eq in E. rewrite E. now apply in_map.
    + cbn [negb List.length]. f_equal. now apply IH.
Qed.

(** X7.  Dismissing, or accepting, one suggestion of a response of
    [analyze-grammar] removes that suggestion from the list and no other:
    the identifiers of a response are distinct, so the filter by identifier
    drops exactly one entry. *)
Theorem dismiss_removes_exactly_one :
  forall (protoAccessor : bool) (req : Request) (languageTool : FetchResult) (now : string)
         (returned : list SuggestionResponse) (s : SuggestionResponse),
    serve protoAccessor req languageTool now
    = {| status := 200; body := SuggestionsBody returned |} ->
    In s returned ->
    (forall x, In x (EditorSuggestions.handleDismissSuggestion returned (id s))
               <-> In x returned /\ x <> s)
    /\ S (List.length (EditorSuggestions.handleDismissSuggestion returned (id s)))
       = List.length returned
    /\ EditorSuggestions.afterAccept returned s
       = EditorSuggestions.handleDismissSuggestion returned (id s).
Proof.
  intros protoAccessor req languageTool now returned s Hserve Hin.
  assert (Hnd : NoDup (map id returned)).
  { apply serve_suggestions in Hserve as [(st & _ & ->) | (matches & _ & ->)].
    - apply forEachWord_ids.
    - apply mergedSuggestions_ids. }
  unfold EditorSuggestions.handleDismissSuggestion, EditorSuggestions.afterAccept.
  split; [now apply filter_other_ids|]. split; [now apply filter_other_ids_length | reflexivity].
Qed.

Lemma dismiss_removes_exactly_one_witness :
  S (List.length (EditorSuggestions.handleDismissSuggestion
                    (mergedSuggestions false "teh, cat are" "d1" sampleNow sampleMatches)
                    (id (convertMatch "teh, cat are" "d1" sampleNow 0 tehMatch))))
  = List.length (mergedSuggestions false "teh, cat are" "d1" sampleNow sampleMatches).
Proof.
  refine (proj1 (proj2 (dismiss_removes_exactly_one false sampleRequest (FetchOk sampleMatches)
                          sampleNow _ (convertMatch "teh, cat are" "d1" sampleNow 0 tehMatch)
                          eq_refl _))).
  left. reflexivity.
Defined.

End AcceptAndDismiss.

(** ** Line endings and the spans of the client-side spell checker *)

Section ClientSpellCheck.

Import AnalyzeGrammar SuggestionEngine.

Lemma string_pairs (P : string -> Prop) :
  P EmptyString ->
  (forall c, P (String c EmptyString)) ->
  (forall c c' r, P r -> P (String c' r) -> P (String c (String c' r))) ->
  forall s, P s.
Proof.
  intros H0 H1 H2 s.
  enough (H : P s /\ forall c, P (String c s)) by apply H.
  induction s as [|c' r [IHr IHc]]; split; auto.
Qed.

Lemma normalize_noCarriageReturn (content : string) :
  noCarriageReturn (normalize content) = true.
Proof.
  induction content as [|c|c c' r IHr IHc] using string_pairs.
  - reflexivity.
  - cbn [normalize]. destruct (Js.code c =? 13)%nat eqn:E; [reflexivity|].
    unfold noCarriageReturn. cbn [sforall]. now rewrite E.
  - cbn [normalize]. destruct (Js.code c =? 13)%nat eqn:E.
    + destruct (Js.code c' =? 10)%nat; unfold noCarriageReturn in *; cbn [sforall];
        [exact IHr | exact IHc].
    + unfold noCarriageReturn in *. cbn [sforall]. rewrite E. exact IHc.
Qed.

Lemma normalize_unchanged (content : string) :
  noCarriageReturn content = true -> normalize content = content.
Proof.
  unfold noCarriageReturn. induction content as [|c r IH]; [reflexivity|].
  cbn [sforall]. intros H. apply andb_true_iff in H as [Hc Hr].
  apply negb_true_iff in Hc. cbn [normalize]. rewrite Hc. now rewrite IH.
Qed.

Lemma normalize_step (c : ascii) (r : string) :
  normalize (String c r)
  = if (Js.code c =? 13)%nat then
      match r with
      | String c' r' =>
          if (Js.code c' =? 10)%nat then String (ascii_of_nat 10) (normalize r')
          else String (ascii_of_nat 10) (normalize r)
      | EmptyString => String (ascii_of_nat 10) EmptyString
      end
    else String c (normalize r).
Proof. now destruct r. Qed.

Lemma normalize_length (content : string) :
  String.length (normalize content) <= String.length content.
Proof.
  induction content as [|c|c c' r IHr IHc] using string_pairs.
  - apply Nat.le_refl.
  - cbn [normalize]. destruct (Js.code c =? 13)%nat; apply Nat.le_refl.
  - rewrite normalize_step. cbn [String.length] in IHc |- *.
    destruct (Js.code c =? 13)%nat; [destruct (Js.code c' =? 10)%nat|];
      cbn [String.length]; lia.
Qed.

(** X8.  The normalisation of line endings leaves no carriage return,
    never makes the content longer, changes nothing in a content that has
    no carriage return, and is idempotent. *)
Theorem normalize_line_endings :
  forall content : string,
    noCarriageReturn (normalize content) = true
    /\ (Js.len (normalize content) <= Js.len content)%Z
    /\ (noCarriageReturn content = true -> normalize content = content)
    /\ normalize (normalize content) = normalize content.
Proof.
  intros content. split; [apply normalize_noCarriageReturn|].
  split; [unfold Js.len; apply inj_le, normalize_length|].
  split; [apply normalize_unchanged|].
  apply normalize_unchanged, normalize_noCarriageReturn.
Qed.

Lemma sforall_app (p : ascii -> bool) (a b : string) :
  sforall p (a ++ b) = sforall p a && sforall p b.
Proof. induction a as [|c r IH]; [reflexivity|]. simpl. now rewrite IH, andb_assoc. Qed.

Lemma append_empty (s : string) : s ++ EmptyString = s.
Proof. induction s as [|c r IH]; [reflexivity|]. simpl. now rewrite IH. Qed.

Lemma execAll_words (s : string) :
  forall (pre word : string) (start : nat),
    word = EmptyString \/ start = String.length pre ->
    sforall Js.isWordChar word = true ->
    Forall (fun m => String.length pre <= fst m /\ WordAt (pre ++ word ++ s) m)
      (execAll s (String.length pre + String.length word) start word)
    /\ StronglySorted (fun m m' => fst m + String.length (snd m) < fst m')
         (execAll s (String.length pre + String.length word) start word).
Proof.
  induction s as [|c r IH]; intros pre word start Hstart Hword.
  - cbn [execAll]. destruct word as [|w0 wr]; [split; constructor|].
    destruct Hstart as [Hstart | ->]; [discriminate Hstart|].
    split; [|repeat constructor].
    constructor; [|constructor]. split; [apply Nat.le_refl|].
    exists pre, EmptyString. cbn [fst snd]. repeat split; easy.
  - cbn [execAll]. destruct (Js.isWordChar c) eqn:Ec.
    + destruct word as [|w0 wr].
      * specialize (IH pre (String c EmptyString) (String.length pre + 0)).
        cbn [String.length append] in IH |- *.
        replace (String.length pre + 1) with (S (String.length pre + 0)) in IH by lia.
        apply IH; [right; lia|]. cbn [sforall]. now rewrite Ec.
      * specialize (IH pre (String w0 wr ++ String c EmptyString) start).
        rewrite string_length_app in IH. cbn [String.length] in IH |- *.
        replace (String.length pre + (S (String.length wr) + 1))
          with (S (String.length pre + S (String.length wr))) in IH by lia.
        rewrite app_assoc_string in IH. cbn [append] in IH |- *.
        apply IH.
        -- destruct Hstart as [Hstart | ->]; [discriminate Hstart | now right].
        -- change (String w0 (wr ++ String c EmptyString))
             with (String w0 wr ++ String c EmptyString).
           rewrite sforall_app, Hword. cbn [sforall]. now rewrite Ec.
    + destruct word as [|w0 wr].
      * specialize (IH (pre ++ String c EmptyString) EmptyString start (or_introl eq_refl) eq_refl).
        rewrite string_length_app in IH. cbn [String.length append] in IH |- *.
        replace (String.length pre + 1 + 0) with (S (String.length pre + 0)) in IH by lia.
        rewrite app_assoc_string in IH. cbn [append] in IH.
        destruct IH as [IHall IHsorted]. split; [|exact IHsorted].
        eapply Forall_impl; [|exact IHall]. cbv beta. intros m [Hm Hw].
        split; [lia | exact Hw].
      * destruct Hstart as [Hstart | ->]; [discriminate Hstart|].
        specialize (IH (pre ++ String w0 wr ++ String c EmptyString) EmptyString
                      (String.length pre) (or_introl eq_refl) eq_refl).
        rewrite !string_length_app in IH. cbn [String.length] in IH |- *.
        replace (String.length pre + (S (String.length wr) + 1) + 0)
          with (S (String.length pre + S (String.length wr))) in IH by lia.
        replace ((pre ++ String w0 wr ++ String c EmptyString) ++ EmptyString ++ r)
          with (pre ++ String w0 wr ++ String c r) in IH
          by (rewrite !app_assoc_string; reflexivity).
        destruct IH as [IHall IHsorted]. split.
        -- constructor.
           ++ split; [apply Nat.le_refl|].
              exists pre, (String c r). cbn [fst snd]. repeat split; try easy.
              cbn [Js.boundaryAhead]. now rewrite Ec.
           ++ eapply Forall_impl; [|exact IHall]. cbv beta. intros m [Hm Hw].
              split; [lia | exact Hw].
        -- constructor; [exact IHsorted|].
           eapply Forall_impl; [|exact IHall]. cbv beta. cbn [fst snd String.length].
           intros m [Hm _]. lia.
Qed.

Lemma substring_app_middle (a w b : string) :
  String.substring (String.length a) (String.length w) (a ++ w ++ b) = w.
Proof.
  induction a as [|c a IH]; [|exact IH].
  cbn [String.length append]. induction w as [|c w IH]; [apply substring_nothing|].
  simpl. now rewrite IH.
Qed.



Lemma WordAt_span (text : string) (m : nat * string) (s : SuggestionResponse) :
  WordAt text m ->
  start_index s = Z.of_nat (fst m) ->
  end_index s = (Z.of_nat (fst m) + Js.len (snd m))%Z ->
  original_text s = snd m ->
  spanHolds text s.
Proof.
  intros (a & b & Htext & Ha & _ & _ & _) Hstart Hend Horig.
  assert (Hlen : String.length text = String.length a + String.length (snd m) + String.length b)
    by (rewrite Htext, !string_length_app; lia).
  unfold spanHolds. rewrite Hstart, Hend, Horig. unfold Js.len in *.
  repeat split; try lia.
  rewrite substring_inside by (unfold Js.len; lia).
  rewrite Nat2Z.id.
  replace (Z.to_nat (Z.of_nat (fst m) + Z.of_nat (String.length (snd m)) - Z.of_nat (fst m)))
    with (String.length (snd m)) by lia.
  rewrite <- Ha, Htext. apply substring_app_middle.
Qed.

Lemma checkWord_In (documentId : string) (nowMs : Z) (nowIso : string) (m : nat * string)
  (s : SuggestionResponse) :
  In s (checkWord documentId nowMs nowIso m) ->
  start_index s = Z.of_nat (fst m)
  /\ end_index s = (Z.of_nat (fst m) + Js.len (snd m))%Z
  /\ original_text s = snd m
  /\ exists v, Dictionary.get true (Dictionary.cleanWord (snd m)) = Some v
               /\ suggested_text s = correctedWordOf (snd m) (Dictionary.cleanWord (snd m)) v.
Proof.
  unfold checkWord. destruct (Dictionary.get true (Dictionary.cleanWord (snd m))) as [v|];
    [|contradiction].
  intros [<-|[]]. cbn [start_index end_index original_text suggested_text].
  repeat split. now exists v.
Qed.

Lemma basicSpellCheck_In (content documentId : string) (nowMs : Z) (nowIso : string)
  (s : SuggestionResponse) :
  In s (basicSpellCheck content documentId nowMs nowIso) ->
  exists m, WordAt (normalize content) m /\ In s (checkWord documentId nowMs nowIso m).
Proof.
  unfold basicSpellCheck. intros H. apply in_flat_map in H as (m & Hm & Hs).
  exists m. split; [|exact Hs].
  destruct (execAll_words (normalize content) EmptyString EmptyString 0 (or_introl eq_refl) eq_refl)
    as [Hall _].
  cbn [String.length Nat.add append] in Hall. rewrite Forall_forall in Hall.
  now apply Hall in Hm as [_ Hw].
Qed.

(** X9.  Every suggestion of the client-side spell checker points into the
    normalised content: its span lies inside it, is as long as its original
    text and holds that text; the original text is a non-empty run of word
    characters. *)
Theorem client_suggestions_point_into_content :
  forall (content documentId : string) (nowMs : Z) (nowIso : string),
    Forall (fun s => spanHolds (normalize content) s
                     /\ original_text s <> EmptyString
                     /\ sforall Js.isWordChar (original_text s) = true)
      (basicSpellCheck content documentId nowMs nowIso).
Proof.
  intros content documentId nowMs nowIso. apply Forall_forall. intros s Hin.
  apply basicSpellCheck_In in Hin as (m & Hw & Hs).
  apply checkWord_In in Hs as (Hstart & Hend & Horig & _).
  split; [now apply (WordAt_span _ m)|].
  rewrite Horig. destruct Hw as (a & b & _ & _ & Hne & Hword & _). now split.
Qed.

Lemma checkWord_sorted (documentId : string) (nowMs : Z) (nowIso : string)
  (l : list (nat * string)) :
  StronglySorted (fun m m' => fst m + String.length (snd m) < fst m') l ->
  StronglySorted endsStrictlyBefore (flat_map (checkWord documentId nowMs nowIso) l).
Proof.
  induction 1 as [|m l Hsorted IH Hall]; [constructor|].
  cbn [flat_map]. unfold checkWord at 1.
  destruct (Dictionary.get true (Dictionary.cleanWord (snd m))); [|exact IH].
  cbn [app]. constructor; [exact IH|].
  apply Forall_forall. intros s Hs. apply in_flat_map in Hs as (m' & Hm' & Hs).
  apply checkWord_In in Hs as (Hstart & _). rewrite Forall_forall in Hall.
  apply Hall in Hm'. unfold endsStrictlyBefore. cbn [end_index]. rewrite Hstart.
  unfold Js.len. lia.
Qed.

(** X10.  The suggestions of the client-side spell checker come in the
    order of the content and never overlap nor touch: each one ends at
    least one character before the next one starts. *)
Theorem client_suggestions_do_not_overlap :
  forall (content documentId : string) (nowMs : Z) (nowIso : string),
    StronglySorted endsStrictlyBefore (basicSpellCheck content documentId nowMs nowIso).
Proof.
  intros content documentId nowMs nowIso. apply checkWord_sorted.
  destruct (execAll_words (normalize content) EmptyString EmptyString 0 (or_introl eq_refl) eq_refl)
    as [_ Hsorted].
  exact Hsorted.
Qed.

Lemma wordChar_not_stripped (c : ascii) :
  Js.isWordChar c && Dictionary.isStrippedPunctuation (Js.lowerChar c) = false.
Proof. destruct c as [[] [] [] [] [] [] [] []]; reflexivity. Qed.

Lemma wordChar_eqCI (c : ascii) :
  negb (Js.isWordChar c) || Js.eqCI (Js.lowerChar c) c = true.
Proof. destruct c as [[] [] [] [] [] [] [] []]; reflexivity. Qed.

(** On a run of word characters [cleanWord] is [toLowerCase]. *)
Lemma cleanWord_word (w : string) :
  sforall Js.isWordChar w = true -> Dictionary.cleanWord w = Js.toLowerCase w.
Proof.
  unfold Dictionary.cleanWord, Js.removeClass, Js.toLowerCase.
  induction w as [|c w IH]; [reflexivity|]. cbn [sforall Js.smap Js.sfilter].
  intros H. apply andb_true_iff in H as [Hc Hw].
  pose proof (wordChar_not_stripped c) as Hk. rewrite Hc in Hk. cbn [andb] in Hk.
  rewrite Hk. cbn [negb]. now rewrite IH.
Qed.

Lemma dropPrefixCI_word (w rest : string) :
  sforall Js.isWordChar w = true -> Js.dropPrefixCI (Js.toLowerCase w) (w ++ rest) = Some rest.
Proof.
  unfold Js.toLowerCase. induction w as [|c w IH]; [reflexivity|].
  cbn [sforall Js.smap append Js.dropPrefixCI]. intros H. apply andb_true_iff in H as [Hc Hw].
  pose proof (wordChar_eqCI c) as Hk. rewrite Hc in Hk. cbn [negb orb] in Hk.
  rewrite Hk. now apply IH.
Qed.

Lemma replaceAllCI_skipped (pat rep : string) (s : string) :
  forall skip : nat, String.length s <= skip -> replaceAllCI pat rep skip s = EmptyString.
Proof.
  induction s as [|c r IH]; intros skip Hle; [reflexivity|].
  cbn [String.length] in Hle. destruct skip as [|k]; [lia|].
  cbn [replaceAllCI]. apply IH. lia.
Qed.

Lemma smap_length (f : ascii -> ascii) (s : string) :
  String.length (Js.smap f s) = String.length s.
Proof. induction s as [|c r IH]; [reflexivity|]. simpl. now rewrite IH. Qed.

(** The whole word is one match of its own lower-cased form. *)
Lemma replaceAllCI_word (w rep : string) :
  w <> EmptyString -> sforall Js.isWordChar w = true ->
  replaceAllCI (Js.toLowerCase w) rep 0 w = rep.
Proof.
  intros Hne Hw. destruct w as [|c r]; [contradiction|].
  pose proof (dropPrefixCI_word (String c r) EmptyString Hw) as Hdrop.
  rewrite append_empty in Hdrop.
  cbn [replaceAllCI]. rewrite Hdrop.
  rewrite replaceAllCI_skipped; [apply append_empty|].
  unfold Js.toLowerCase. rewrite smap_length. cbn [String.length]. lia.
Qed.

(** X11.  The client-side checker proposes the entry of the table itself,
    whatever the case of the word as typed: the suggested text is the value
    stored under the lower-cased word (the word itself where the key is the
    inherited [constructor]). *)
Theorem client_suggested_text :
  forall (content documentId : string) (nowMs : Z) (nowIso : string),
    Forall (fun s =>
              exists v,
                Dictionary.get true (Js.toLowerCase (original_text s)) = Some v
                /\ suggested_text s
                   = match v with
                     | Dictionary.VObjectConstructor => original_text s
                     | _ => Dictionary.toString v
                     end)
      (basicSpellCheck content documentId nowMs nowIso).
Proof.
  intros content documentId nowMs nowIso. apply Forall_forall. intros s Hin.
  apply basicSpellCheck_In in Hin as (m & Hw & Hs).
  apply checkWord_In in Hs as (_ & _ & Horig & v & Hget & Hsugg).
  destruct Hw as (_ & _ & _ & _ & Hne & Hword & _).
  rewrite (cleanWord_word _ Hword) in Hget, Hsugg. rewrite Horig.
  exists v. split; [exact Hget|]. rewrite Hsugg. unfold correctedWordOf.
  destruct v as [x| |]; [|reflexivity|]; now apply replaceAllCI_word.
Qed.





End ClientSpellCheck.

(** ** The text highlighted by [SuggestionMarker] *)

Section Marker.

Import AnalyzeGrammar SuggestionEngine SuggestionMarker.

Lemma eqb_empty (s : string) : String.eqb s EmptyString = true <-> String.length s = 0.
Proof. destruct s; simpl; split; intros H; congruence. Qed.

(** X13.  For any two integers, the three pieces of text the marker puts
    in its mirror make up the normalised content, the highlighted piece is
    not empty and starts at the clamped start; there is no marker exactly
    when the content is empty or the clamped span is. *)
Theorem marker_mirrors_the_content :
  forall (content : string) (start end_ : Z),
    (mirrorText content start end_ = None
     <-> (end_ <= start \/ end_ <= 0 \/ Js.len (normalize content) <= start
          \/ Js.len (normalize content) = 0)%Z)
    /\ forall m : MirrorText,
         mirrorText content start end_ = Some m ->
         beforeText m ++ targetText m ++ afterText m = normalize content
         /\ targetText m <> EmptyString
         /\ Js.len (beforeText m) = Z.max 0 start
         /\ Js.len (targetText m) = (Z.min end_ (Js.len (normalize content)) - Z.max 0 start)%Z.
Proof.
  intros content start end_. unfold mirrorText.
  set (text := normalize content).
  assert (Hlen : (0 <= Js.len text)%Z) by (unfold Js.len; lia).
  assert (Hs : (0 <= safeStart text start <= safeEnd text start end_)%Z)
    by (unfold safeEnd, safeStart; lia).
  assert (He : (safeEnd text start end_ <= Js.len text)%Z)
    by (unfold safeEnd, safeStart; lia).
  destruct (span_split text _ _ Hs He) as (Hsplit & Hbefore & Htarget).
  destruct (String.eqb (Js.substring text (safeStart text start) (safeEnd text start end_))
              EmptyString) eqn:E.
  - apply eqb_empty in E. split; [|intros m H; discriminate H].
    split; [intros _|reflexivity].
    unfold safeEnd, safeStart, Js.len in *. lia.
  - split.
    + split; [intros H; discriminate H|]. intros H. exfalso.
      assert (E' : String.length
                     (Js.substring text (safeStart text start) (safeEnd text start end_)) = 0)
        by (unfold safeEnd, safeStart, Js.len in *; lia).
      apply eqb_empty in E'. rewrite E' in E. discriminate E.
    + intros m H. injection H as <-. cbn [beforeText targetText afterText].
      split; [now rewrite <- Hsplit|].
      split; [intros H; rewrite H in E; discriminate E|].
      assert (E' : String.length
                     (Js.substring text (safeStart text start) (safeEnd text start end_)) <> 0).
      { intros H. apply eqb_empty in H. rewrite H in E. discriminate E. }
      unfold safeEnd, safeStart, Js.len in *. lia.
Qed.

Lemma mirrorText_span (content : string) (s : SuggestionResponse) :
  spanHolds (normalize content) s ->
  original_text s <> EmptyString ->
  Highlighted content s.
Proof.
  intros (H0 & Hend & Hle & Htext) Hne. unfold Highlighted, mirrorText.
  set (text := normalize content) in *.
  assert (Hlen : (0 <= Js.len (original_text s))%Z) by (unfold Js.len; lia).
  assert (Hs : safeStart text (start_index s) = start_index s) by (unfold safeStart; lia).
  assert (He : safeEnd text (start_index s) (end_index s) = end_index s)
    by (unfold safeEnd; rewrite Hs; lia).
  rewrite Hs, He, Htext.
  destruct (String.eqb (original_text s) EmptyString) eqn:E;
    [apply String.eqb_eq in E; contradiction|].
  eexists _, _. split; [reflexivity|].
  apply (span_split text (start_index s) (end_index s)); lia.
Qed.

Lemma forEachWord_original (protoAccessor : bool) (text documentId now : string)
  (words : list string) (s : SuggestionResponse) :
  forall (wordIndex : nat) (currentIndex : Z),
    In s (forEachWord protoAccessor text documentId now words wordIndex currentIndex) ->
    Dictionary.get protoAccessor (Dictionary.cleanWord (original_text s)) <> None.
Proof.
  induction words as [|w ws IH]; intros wi ci; cbn [forEachWord]; [contradiction|].
  destruct (Dictionary.get protoAccessor (Dictionary.cleanWord w)) as [v|] eqn:E; cbn [app].
  - intros [<-|Hin]; [cbn [original_text]; now rewrite E | eapply IH, Hin].
  - apply IH.
Qed.

(** X14.  The marker of a suggestion highlights the flagged word itself:
    for the suggestions of the client-side checker on the content, and for
    the local suggestions of the edge function on the normalised content
    that the client sends to it, the highlighted piece is the original text
    of the suggestion and it starts at its start index. *)
Theorem marker_highlights_the_flagged_word :
  forall (content documentId : string) (nowMs : Z) (now : string) (protoAccessor : bool),
    Forall (Highlighted content) (basicSpellCheck content documentId nowMs now)
    /\ Forall (Highlighted content)
         (generateBasicSuggestions protoAccessor (normalize content) documentId now).
Proof.
  intros content documentId nowMs now protoAccessor. split.
  - apply Forall_forall. intros s Hin.
    apply basicSpellCheck_In in Hin as (m & Hw & Hs).
    apply checkWord_In in Hs as (Hstart & Hend & Horig & _).
    apply mirrorText_span; [now apply (WordAt_span _ m)|].
    rewrite Horig. now destruct Hw as (a & b & _ & _ & Hne & _).
  - apply Forall_forall. intros s Hin. apply mirrorText_span.
    + pose proof (generateBasicSuggestions_spans protoAccessor (normalize content) documentId now)
        as Hall.
      rewrite Forall_forall in Hall. now apply Hall.
    + intros E. apply forEachWord_original in Hin. rewrite E in Hin.
      now destruct protoAccessor.
Qed.

End Marker.

(** ** When the readability analysis fails, and the sizes it divides *)

Section ReadabilityStructure.

Import AnalyzeReadability.

Lemma splitRuns_Forall (cls q : ascii -> bool) (s : string) :
  forall inSep : bool,
    Forall (fun w => sforall q w = true) (Js.splitRuns cls inSep s)
    <-> sforall (fun c => cls c || q c) s = true.
Proof.
  induction s as [|c r IH]; intros inSep.
  - cbn. split; [reflexivity | intros _; now repeat constructor].
  - cbn [Js.splitRuns sforall]. destruct (cls c) eqn:Ec; cbn [orb andb].
    + destruct inSep; [apply IH|]. rewrite <- (IH true). split.
      * intros H. now inversion H.
      * intros H. now constructor.
    + rewrite andb_true_iff, <- (IH false).
      destruct (Js.splitRuns cls false r) as [|w ws].
      * split; [intros H; inversion H; subst; cbn [sforall] in *|];
          [rewrite andb_true_r in *; split; [assumption | constructor]|].
        intros [Hq _]. constructor; [|constructor]. cbn [sforall]. now rewrite Hq.
      * split.
        -- intros H. inversion H as [|? ? Hw Hws]; subst. cbn [sforall] in Hw.
           apply andb_true_iff in Hw as [Hq Hw]. split; [exact Hq | now constructor].
        -- intros [Hq H]. inversion H as [|? ? Hw Hws]; subst.
           constructor; [|exact Hws]. cbn [sforall]. now rewrite Hq, Hw.
Qed.

Lemma filter_nil {A : Type} (p : A -> bool) (l : list A) :
  filter p l = [] <-> Forall (fun x => p x = false) l.
Proof.
  induction l as [|x l IH]; cbn [filter]; [split; [constructor | reflexivity]|].
  destruct (p x) eqn:E; split.
  - intros H. discriminate H.
  - intros H. inversion H; congruence.
  - intros H. constructor; [exact E | now apply IH].
  - intros H. inversion H. now apply IH.
Qed.

Lemma trimStart_blank (s : string) :
  sforall Js.isWhiteSpace (Js.trimStart s) = sforall Js.isWhiteSpace s.
Proof.
  induction s as [|c r IH]; [reflexivity|]. cbn [Js.trimStart sforall].
  destruct (Js.isWhiteSpace c) eqn:E; [exact IH|]. cbn [sforall]. now rewrite E.
Qed.

Lemma trimEnd_blank (s : string) :
  Js.trimEnd s = EmptyString <-> sforall Js.isWhiteSpace s = true.
Proof.
  induction s as [|c r IH]; [now split|]. cbn [Js.trimEnd sforall].
  destruct (Js.trimEnd r) as [|c' r'] eqn:E.
  - destruct (Js.isWhiteSpace c); cbn [andb].
    + split; [intros _; now apply IH | reflexivity].
    + split; intros H; discriminate H.
  - split; [intros H; discriminate H|]. intros H. apply andb_true_iff in H as [_ H].
    apply IH in H. discriminate H.
Qed.

Lemma trim_blank (s : string) :
  nonEmpty (Js.trim s) = false <-> sforall Js.isWhiteSpace s = true.
Proof.
  unfold Js.trim. rewrite <- trimStart_blank, <- trimEnd_blank. unfold nonEmpty.
  destruct (Js.trimEnd (Js.trimStart s)); cbn; split; congruence.
Qed.

Lemma sentencesOf_nil (text : string) :
  sentencesOf text = [] <-> onlyBlankOrPunctuation text = true.
Proof.
  unfold sentencesOf, Js.split, onlyBlankOrPunctuation.
  rewrite filter_nil, <- (splitRuns_Forall isSentencePunctuation Js.isWhiteSpace text false).
  rewrite !Forall_forall. split; intros H s Hs; apply trim_blank, H, Hs.
Qed.

Lemma wordsOf_nil (text : string) :
  wordsOf text = [] <-> sforall Js.isWhiteSpace text = true.
Proof.
  unfold wordsOf, Js.split.
  rewrite filter_nil.
  assert (E : sforall Js.isWhiteSpace text
              = sforall (fun c => Js.isWhiteSpace c || false) text).
  { induction text as [|c r IH]; [reflexivity|]. cbn [sforall]. now rewrite IH, orb_false_r. }
  rewrite E, <- (splitRuns_Forall Js.isWhiteSpace (fun _ => false) text false).
  rewrite !Forall_forall. split; intros H s Hs; specialize (H s Hs);
    destruct s; cbn in *; congruence.
Qed.

Lemma sforall_weaken (p q : ascii -> bool) (s : string) :
  (forall c, p c = true -> q c = true) -> sforall p s = true -> sforall q s = true.
Proof.
  intros Hpq. induction s as [|c r IH]; [reflexivity|]. cbn [sforall].
  intros H. apply andb_true_iff in H as [Hc Hr]. now rewrite (Hpq c Hc), IH.
Qed.

(** The scores cannot be computed exactly when there is no sentence. *)
Lemma no_structure (text : string) :
  (sentenceCount text =? 0)%nat || (wordCount text =? 0)%nat = onlyBlankOrPunctuation text.
Proof.
  unfold sentenceCount, wordCount.
  destruct (onlyBlankOrPunctuation text) eqn:E.
  - apply sentencesOf_nil in E. now rewrite E.
  - destruct (sentencesOf text) as [|s ss] eqn:Es;
      [apply sentencesOf_nil in Es; congruence|].
    destruct (wordsOf text) as [|w ws] eqn:Ew; [|reflexivity].
    apply wordsOf_nil in Ew. exfalso.
    assert (H : onlyBlankOrPunctuation text = true); [|congruence].
    eapply sforall_weaken; [|exact Ew]. intros c Hc. now rewrite Hc, orb_true_r.
Qed.

Lemma readability_structure (text documentId : string) (nowMs : Z) (nowIso : string) :
    if onlyBlankOrPunctuation text then
      calculateReadabilityScores text documentId nowMs nowIso
      = Thrown "Invalid text structure for readability analysis"
    else
      exists analysis,
        calculateReadabilityScores text documentId nowMs nowIso = Returned analysis.
Proof.
  unfold calculateReadabilityScores.
  pose proof (no_structure text) as H. destruct (onlyBlankOrPunctuation text).
  - now rewrite H.
  - rewrite H. eexists. reflexivity.
Qed.

(** X15.  [calculateReadabilityScores] throws exactly for the texts made
    only of white space and the punctuation [.!?]; for every other text it
    returns the three scores, in the order ease, grade, automated index. *)
Theorem readability_fails_without_sentence :
  forall (text documentId : string) (nowMs : Z) (nowIso : string),
    if onlyBlankOrPunctuation text then
      calculateReadabilityScores text documentId nowMs nowIso
      = Thrown "Invalid text structure for readability analysis"
    else
      exists analysis,
        calculateReadabilityScores text documentId nowMs nowIso = Returned analysis
        /\ map score_type (readability_scores analysis)
           = [flesch_reading_ease; flesch_kincaid_grade; automated_readability]
        /\ (0 < sentenceCount text)%nat /\ (0 < wordCount text)%nat.
Proof.
  intros text documentId nowMs nowIso. unfold calculateReadabilityScores.
  pose proof (no_structure text) as H. destruct (onlyBlankOrPunctuation text).
  - now rewrite H.
  - rewrite H. eexists. split; [reflexivity|]. split; [reflexivity|].
    apply orb_false_iff in H as [Hs Hw].
    apply Nat.eqb_neq in Hs, Hw. lia.
Qed.

(** X16.  A well-formed request whose text has between 50 and 50000
    characters is answered with status 500 when the text holds only white
    space and the punctuation [.!?], and with status 200 and an analysis
    otherwise. *)
Theorem readability_handler_outcome :
  forall (req : AnalyzeGrammar.Request) (nowMs : Z) (nowIso : string),
    AnalyzeGrammar.method req = AnalyzeGrammar.POST ->
    AnalyzeGrammar.documentId req <> EmptyString ->
    (50 <= Js.len (AnalyzeGrammar.text req) <= 50000)%Z ->
    if onlyBlankOrPunctuation (AnalyzeGrammar.text req) then
      ReadabilityHandler.serve req nowMs nowIso
      = {| ReadabilityHandler.status := 500;
           ReadabilityHandler.body := ReadabilityHandler.ErrorBody "Readability analysis failed" |}
    else
      exists analysis,
        ReadabilityHandler.serve req nowMs nowIso
        = {| ReadabilityHandler.status := 200;
             ReadabilityHandler.body := ReadabilityHandler.AnalysisBody analysis |}
        /\ calculateReadabilityScores (AnalyzeGrammar.text req) (AnalyzeGrammar.documentId req)
             nowMs nowIso = Returned analysis.
Proof.
  intros req nowMs nowIso Hpost Hdoc Hlen. unfold ReadabilityHandler.serve. rewrite Hpost.
  assert (Htext : String.eqb (AnalyzeGrammar.text req) EmptyString = false).
  { apply String.eqb_neq. intros E. rewrite E in Hlen. unfold Js.len in Hlen. simpl in Hlen. lia. }
  apply String.eqb_neq in Hdoc. rewrite Htext, Hdoc. cbn [orb].
  assert (H1 : (50000 <? Js.len (AnalyzeGrammar.text req))%Z = false) by (apply Z.ltb_ge; lia).
  assert (H2 : (Js.len (AnalyzeGrammar.text req) <? 50)%Z = false) by (apply Z.ltb_ge; lia).
  rewrite H1, H2.
  pose proof (readability_structure (AnalyzeGrammar.text req) (AnalyzeGrammar.documentId req)
                nowMs nowIso) as H.
  destruct (onlyBlankOrPunctuation (AnalyzeGrammar.text req)).
  - now rewrite H.
  - destruct H as (analysis & H). rewrite H. now exists analysis.
Qed.

Lemma readability_handler_outcome_witness :
  ReadabilityHandler.serve
    {| AnalyzeGrammar.method := AnalyzeGrammar.POST;
       AnalyzeGrammar.text := fiftyStops;
       AnalyzeGrammar.documentId := "d1" |} 0 sampleNow
  = {| ReadabilityHandler.status := 500;
       ReadabilityHandler.body := ReadabilityHandler.ErrorBody "Readability analysis failed" |}.
Proof.
  apply (readability_handler_outcome
           {| AnalyzeGrammar.method := AnalyzeGrammar.POST;
              AnalyzeGrammar.text := fiftyStops;
              AnalyzeGrammar.documentId := "d1" |} 0 sampleNow).
  - reflexivity.
  - discriminate.
  - unfold Js.len. simpl. lia.
Defined.

End ReadabilityStructure.

(** ** Characters, words and syllables *)

Section Counting.

Import AnalyzeReadability.

(** Characters outside the separator class are shared out among the pieces
    of a split. *)
Lemma splitRuns_lengths (cls p : ascii -> bool) :
  (forall c, cls c = true -> p c = false) ->
  forall (s : string) (inSep : bool),
    list_sum (map (fun w => String.length (Js.sfilter p w)) (Js.splitRuns cls inSep s))
    = String.length (Js.sfilter p s).
Proof.
  intros Hcls. unfold list_sum. induction s as [|c r IH]; intros inSep; [reflexivity|].
  cbn [Js.splitRuns Js.sfilter]. destruct (cls c) eqn:Ec.
  - rewrite (Hcls c Ec). destruct inSep; cbn [map fold_right Js.sfilter String.length Nat.add];
      apply IH.
  - specialize (IH false). destruct (Js.splitRuns cls false r) as [|w ws];
      cbn [map fold_right Js.sfilter] in IH |- *; destruct (p c); cbn [String.length] in *; lia.
Qed.

Lemma list_sum_filter_nonEmpty (f : string -> nat) (l : list string) :
  f EmptyString = 0 -> list_sum (map f (filter nonEmpty l)) = list_sum (map f l).
Proof.
  intros Hf. unfold list_sum. induction l as [|w l IH]; [reflexivity|]. cbn [filter].
  destruct w as [|c r].
  - cbn [nonEmpty String.length Nat.ltb Nat.leb map fold_right]. rewrite Hf. exact IH.
  - change (nonEmpty (String c r)) with true. cbn [map fold_right]. now rewrite IH.
Qed.

Lemma sfilter_all (p : ascii -> bool) (s : string) :
  sforall p s = true -> Js.sfilter p s = s.
Proof.
  induction s as [|c r IH]; [reflexivity|]. cbn [sforall Js.sfilter].
  intros H. apply andb_true_iff in H as [Hc Hr]. now rewrite Hc, IH.
Qed.

Lemma wordsOf_no_blank (text : string) :
  Forall (fun w => sforall (fun c => negb (Js.isWhiteSpace c)) w = true) (wordsOf text).
Proof.
  unfold wordsOf, Js.split. apply Forall_forall. intros w Hw.
  apply filter_In in Hw as [Hw _]. revert w Hw. apply Forall_forall.
  apply splitRuns_Forall. induction text as [|c r IH]; [reflexivity|].
  cbn [sforall]. now rewrite orb_negb_r, IH.
Qed.

Lemma wordsOf_lengths (text : string) :
  list_sum (map String.length (wordsOf text))
  = String.length (Js.removeClass Js.isWhiteSpace text).
Proof.
  unfold Js.removeClass.
  rewrite <- (splitRuns_lengths Js.isWhiteSpace (fun c => negb (Js.isWhiteSpace c))) with (inSep := false)
    by (intros c Hc; now rewrite Hc).
  rewrite <- (list_sum_filter_nonEmpty
                (fun w => String.length (Js.sfilter (fun c => negb (Js.isWhiteSpace c)) w)))
    by reflexivity.
  fold (Js.split Js.isWhiteSpace text). fold (wordsOf text).
  pose proof (wordsOf_no_blank text) as Hall.
  unfold list_sum. induction Hall as [|w ws Hw _ IH]; [reflexivity|].
  cbn [map fold_right]. now rewrite IH, (sfilter_all _ _ Hw).
Qed.

Lemma wordsOf_nonEmpty (text : string) :
  Forall (fun w => 1 <= String.length w) (wordsOf text).
Proof.
  unfold wordsOf. apply Forall_forall. intros w Hw. apply filter_In in Hw as [_ Hw].
  unfold nonEmpty in Hw. apply Nat.ltb_lt in Hw. exact Hw.
Qed.

Lemma list_sum_at_least (f : string -> nat) (l : list string) :
  Forall (fun w => 1 <= f w) l -> List.length l <= list_sum (map f l).
Proof.
  unfold list_sum. induction 1 as [|w l Hw _ IH]; [apply Nat.le_refl|].
  cbn [List.length map fold_right]. lia.
Qed.

(** Rounding to a double does not go below an integer under 2^53. *)
Lemma round_at_least (x : Q) (n : Z) :
  (0 <= n < 2 ^ 53)%Z -> (inject_Z n <= x)%Q -> (inject_Z n <= Double.round x)%Q.
Proof.
  intros [Hn0 Hn] Hx.
  assert (H0 : (0 <= inject_Z n)%Q) by (change 0%Q with (inject_Z 0); now rewrite <- Zle_Qle).
  destruct (Qlt_le_dec x (Double.pow2 53)) as [Hsmall|Hbig];
    [now apply round_ge_integer|].
  pose proof (pow2_pos (-53)) as Hu. pose proof (pow2_pos 53) as Hp.
  pose proof (pow2_plus 53 (-53)) as Hone. change (Double.pow2 (53 + -53)) with 1%Q in Hone.
  assert (Hu1 : (Double.pow2 (-53) <= 1 # 2)%Q) by (apply (pow2_le (-53) (-1)); lia).
  assert (Hn' : (inject_Z n <= Double.pow2 53 - 1)%Q).
  { rewrite pow2_Z by lia. assert (H : (n <= 2 ^ 53 + - (1))%Z) by lia.
    rewrite Zle_Qle, inject_Z_plus, inject_Z_opp in H. change (inject_Z 1) with 1%Q in H. lra. }
  destruct (round_relative x) as [[Hlo _]|[Htiny _]]; [lra | | ].
  - assert (Hmono : (Double.pow2 53 * (1 - Double.pow2 (-53)) <= x * (1 - Double.pow2 (-53)))%Q)
      by (apply Qmult_le_compat_r; lra).
    lra.
  - pose proof (pow2_le (-1022) 53 ltac:(lia)). lra.
Qed.

(** X17.  The characters that the automated readability index counts are
    the characters of the words: the text without its white space is as
    long as all the words together, so there is at least one character per
    word and, when there is a word, the average is at least 1. *)
Theorem characters_are_those_of_the_words :
  forall text : string,
    String.length (Js.removeClass Js.isWhiteSpace text)
    = list_sum (map String.length (wordsOf text))
    /\ wordCount text <= String.length (Js.removeClass Js.isWhiteSpace text)
    /\ (wordCount text <> 0 -> (1 <= charactersPerWord text)%Q).
Proof.
  intros text. rewrite <- wordsOf_lengths.
  assert (Hle : wordCount text <= list_sum (map String.length (wordsOf text)))
    by apply list_sum_at_least, wordsOf_nonEmpty.
  split; [reflexivity|]. split; [exact Hle|].
  intros Hne. unfold charactersPerWord, ofNat, Double.div. rewrite <- wordsOf_lengths.
  change 1%Q with (inject_Z 1). apply round_at_least; [split; [lia | reflexivity]|].
  change (inject_Z 1) with 1%Q. apply Qle_shift_div_l.
  - change 0%Q with (inject_Z 0). rewrite <- Zlt_Qlt. lia.
  - rewrite Qmult_1_l, <- Zle_Qle. lia.
Qed.







End Counting.

(** ** The scores of the tone analysis *)

Section ToneScores.

Import AnalyzeTone.

Lemma toneScores_sentences (text : string) :
  toneScores text
  = scoresOf
      (countMatches (Js.toLowerCase text) formalIndicators
       + (if hasComplexSentences (AnalyzeReadability.sentencesOf text) then 20 else 0)
       + (if hasPassiveVoice (Js.toLowerCase text) then 15 else 0))%Z
      (countMatches (Js.toLowerCase text) casualIndicators
       + (if hasContractions text then 15 else 0)
       + (if hasShortSentences (AnalyzeReadability.sentencesOf text) then 10 else 0))%Z
      (countMatches (Js.toLowerCase text) confidentIndicators
       + (if hasDeclarativeStatements (AnalyzeReadability.sentencesOf text) then 15 else 0))%Z
      (countMatches (Js.toLowerCase text) friendlyIndicators
       + (if hasExclamations text then 10 else 0)
       + (if hasQuestions text then 5 else 0))%Z
      (countMatches (Js.toLowerCase text) professionalIndicators
       + (if hasBusinessTerms (Js.toLowerCase text) then 15 else 0))%Z.
Proof. reflexivity. Qed.

Lemma countMatches_fives (text : string) (indicators : list string) :
  exists k : nat, countMatches text indicators = (5 * Z.of_nat k)%Z.
Proof.
  unfold countMatches.
  enough (H : forall k0 : nat,
             exists k : nat,
               fold_left (fun count indicator =>
                            (count + Z.of_nat (matchCount indicator 0 false text) * 5)%Z)
                 indicators (5 * Z.of_nat k0)%Z = (5 * Z.of_nat k)%Z)
    by apply (H 0).
  induction indicators as [|i r IH]; intros k0; cbn [fold_left]; [now exists k0|].
  destruct (IH (k0 + matchCount i 0 false text)) as (k & Hk). exists k.
  rewrite <- Hk. f_equal. lia.
Qed.

(** A sentence holds none of the characters it was split at. *)
Lemma includes_none (cls : ascii -> bool) (c : ascii) (s : string) :
  cls c = true ->
  sforall (fun x => negb (cls x)) s = true ->
  Js.includes s (String c EmptyString) = false.
Proof.
  intros Hc. unfold Js.includes.
  enough (H : sforall (fun x => negb (cls x)) s = true ->
              String.index 0 (String c EmptyString) s = None)
    by (intros Hs; now rewrite (H Hs)).
  induction s as [|b r IH]; [reflexivity|].
  cbn [sforall String.index]. intros H. apply andb_true_iff in H as [Hb Hr].
  destruct (String.prefix (String c EmptyString) (String b r)) eqn:E.
  - apply prefix_head in E as (x & E). injection E as -> _.
    rewrite Hc in Hb. discriminate Hb.
  - now rewrite (IH Hr).
Qed.

Lemma splitRuns_pieces (cls : ascii -> bool) (s : string) (inSep : bool) :
  Forall (fun w => sforall (fun x => negb (cls x)) w = true) (Js.splitRuns cls inSep s).
Proof.
  apply splitRuns_Forall. induction s as [|c r IH]; [reflexivity|].
  cbn [sforall]. now rewrite orb_negb_r, IH.
Qed.

Lemma sentences_without_marks (text : string) :
  Forall (fun s => Js.includes s "?" = false /\ Js.includes s "!" = false)
    (AnalyzeReadability.sentencesOf text).
Proof.
  unfold AnalyzeReadability.sentencesOf, Js.split. apply Forall_forall. intros s Hs.
  apply filter_In in Hs as [Hs _].
  pose proof (splitRuns_pieces AnalyzeReadability.isSentencePunctuation text false) as Hall.
  rewrite Forall_forall in Hall. specialize (Hall s Hs).
  split; apply (includes_none AnalyzeReadability.isSentencePunctuation);
    [reflexivity | exact Hall | reflexivity | exact Hall].
Qed.

Lemma filter_everything {A : Type} (p : A -> bool) (l : list A) :
  Forall (fun x => p x = true) l -> filter p l = l.
Proof.
  induction 1 as [|x l Hx _ IH]; [reflexivity|]. cbn [filter]. now rewrite Hx, IH.
Qed.

(** In doubles too, seven tenths of a positive count are less than the
    count. *)
Lemma seven_tenths_below (n : nat) :
  0 < n ->
  ~ (Double.ofZ (Z.of_nat n)
     <= Double.mul (Double.ofZ (Z.of_nat n)) (Double.round 0.7))%Q.
Proof.
  intros Hn H. unfold Double.mul, Double.ofZ in H.
  assert (Hc : (Double.round 0.7 == 3152519739159347 # 4503599627370496)%Q)
    by (vm_compute; reflexivity).
  assert (Hpos : (1 <= inject_Z (Z.of_nat n))%Q).
  { change 1%Q with (inject_Z 1). rewrite <- Zle_Qle. lia. }
  set (c := Double.round 0.7) in *. set (q := inject_Z (Z.of_nat n)) in *.
  assert (Hy : (0 <= q * c)%Q) by (apply Qmult_le_0_compat; lra).
  pose proof (pow2_pos (-53)) as Hu.
  assert (Hu8 : (Double.pow2 (-53) <= 1 # 256)%Q) by (apply (pow2_le (-53) (-8)); lia).
  assert (Ht8 : (Double.pow2 (-1022) <= 1 # 256)%Q) by (apply (pow2_le (-1022) (-8)); lia).
  assert (Hqc : (q * c == q * (3152519739159347 # 4503599627370496))%Q) by (now rewrite Hc).
  assert (Hyu : (q * c * Double.pow2 (-53) <= q * c * (1 # 256))%Q).
  { destruct (Qlt_le_dec 0 (q * c)) as [Hp|Hz].
    - now apply Qmult_le_l.
    - assert (E : (q * c == 0)%Q) by lra. rewrite E. lra. }
  destruct (round_relative (q * c) Hy) as [[_ Hhi]|[Htiny _]]; lra.
Qed.

Lemma declarative_when_sentence (text : string) :
  hasDeclarativeStatements (AnalyzeReadability.sentencesOf text)
  = negb (onlyBlankOrPunctuation text).
Proof.
  unfold hasDeclarativeStatements.
  rewrite filter_everything.
  2:{ eapply Forall_impl; [|apply sentences_without_marks]. cbv beta.
      intros s [-> ->]. reflexivity. }
  destruct (onlyBlankOrPunctuation text) eqn:E.
  - apply sentencesOf_nil in E. now rewrite E.
  - cbn [negb]. apply negb_true_iff. apply not_true_iff_false. intros H.
    apply Qle_bool_iff in H.
    destruct (AnalyzeReadability.sentencesOf text) as [|s ss] eqn:Es;
      [apply sentencesOf_nil in Es; congruence|].
    apply (seven_tenths_below (S (List.length ss))); [lia | exact H].
Qed.

Lemma no_sentence_is_not_short (text : string) :
  onlyBlankOrPunctuation text = true ->
  hasShortSentences (AnalyzeReadability.sentencesOf text) = false.
Proof. intros E. apply sentencesOf_nil in E. now rewrite E. Qed.

(** X19.  The bonus for declarative statements goes to every text that has
    a sentence, whatever its punctuation: the sentences are cut at the
    question and exclamation marks, so none of them holds one.  The
    confident score of such a text is at least 15. *)
Theorem declarative_bonus_for_any_sentence :
  forall text : string,
    hasDeclarativeStatements (AnalyzeReadability.sentencesOf text)
    = negb (onlyBlankOrPunctuation text)
    /\ (onlyBlankOrPunctuation text = false ->
        (15 <= scoreOf (toneScores text) confident)%Z).
Proof.
  intros text. split; [apply declarative_when_sentence|]. intros E.
  rewrite toneScores_sentences. cbn [scoreOf scoresOf toneEqb toneIndex Nat.eqb].
  rewrite declarative_when_sentence, E. cbn [negb].
  destruct (countMatches_fives (Js.toLowerCase text) confidentIndicators) as (k & ->). lia.
Qed.

(** A rounding loses at most one part in 256 (in fact, in 2^53). *)
Lemma round_loses_little (x : Q) :
  (1 # 256 <= x)%Q -> (x - x * (1 # 256) <= Double.round x)%Q.
Proof.
  intros Hx. pose proof (pow2_pos (-53)) as Hu.
  assert (Hu8 : (Double.pow2 (-53) <= 1 # 256)%Q) by (apply (pow2_le (-53) (-8)); lia).
  assert (Ht8 : (Double.pow2 (-1022) <= 1 # 512)%Q) by (apply (pow2_le (-1022) (-9)); lia).
  assert (Hxu : (x * Double.pow2 (-53) <= x * (1 # 256))%Q) by (apply Qmult_le_l; lra).
  destruct (round_relative x) as [[Hlo _]|[Htiny _]]; lra.
Qed.

Lemma confidence_range (a b c d e : Z) :
  (0 <= a)%Z -> (0 <= b)%Z -> (0 <= c)%Z -> (0 <= d)%Z -> (0 <= e)%Z ->
  (20 <= confidenceOf (scoresOf a b c d e) <= 100)%Z.
Proof.
  intros Ha Hb Hc Hd He. unfold confidenceOf, scoresOf.
  cbn [map snd Math_max fold_left].
  set (m := Z.max (Z.max (Z.max (Z.max a b) c) d) e).
  set (t := (0 + a + b + c + d + e)%Z).
  assert (Hm : (t <= 5 * m)%Z) by (unfold m, t; lia).
  destruct (0 <? t)%Z eqn:Et; [|lia]. apply Z.ltb_lt in Et.
  split; [|lia]. apply Z.min_glb; [lia|].
  unfold Js.Math_round, Double.mul, Double.div, Double.ofZ.
  assert (Ht : (0 < inject_Z t)%Q) by (change 0%Q with (inject_Z 0); now rewrite <- Zlt_Qlt).
  assert (Hq : (inject_Z t <= 5 * inject_Z m)%Q).
  { change 5%Q with (inject_Z 5). rewrite <- inject_Z_mult, <- Zle_Qle. exact Hm. }
  assert (Hd' : ((1 # 5) <= inject_Z m / inject_Z t)%Q).
  { apply Qle_shift_div_l; [exact Ht | lra]. }
  pose proof (round_loses_little (inject_Z m / inject_Z t) ltac:(lra)) as Hdiv.
  set (q := Double.round (inject_Z m / inject_Z t)) in *.
  pose proof (round_loses_little (q * 100) ltac:(lra)) as Hmul.
  change 20%Z with (Qfloor (inject_Z 20)). apply Qfloor_resp_le.
  change (inject_Z 20) with 20%Q. lra.
Qed.

Lemma scores_nonneg (a b c d e : Z) :
  Forall (fun entry : Tone * Z => exists k : nat, snd entry = (5 * Z.of_nat k)%Z)
    (scoresOf a b c d e) ->
  (0 <= a /\ 0 <= b /\ 0 <= c /\ 0 <= d /\ 0 <= e)%Z.
Proof.
  unfold scoresOf. intros H.
  repeat match goal with
         | H : Forall _ (_ :: _) |- _ =>
             let x := fresh "x" in
             pose proof (Forall_inv H) as (x & ?); apply Forall_inv_tail in H
         end.
  cbn [snd] in *. lia.
Qed.

(** X20.  Each of the five scores is a non-negative multiple of 5, and the
    confidence reported for a text lies between 20 and 100. *)
Theorem tone_scores_and_confidence :
  forall (text documentId : string) (nowMs : Z) (nowIso random : string),
    Forall (fun entry => exists k : nat, snd entry = (5 * Z.of_nat k)%Z) (toneScores text)
    /\ (20 <= confidence (analyzeTone text documentId nowMs nowIso random) <= 100)%Z.
Proof.
  intros text documentId nowMs nowIso random.
  assert (Hall : Forall (fun entry => exists k : nat, snd entry = (5 * Z.of_nat k)%Z)
                   (toneScores text)).
  { rewrite toneScores_sentences. unfold scoresOf.
    repeat (apply Forall_cons; [cbn [snd]|]); [| | | | | apply Forall_nil];
      match goal with
      | |- context [countMatches ?x ?l] => destruct (countMatches_fives x l) as (k & ->)
      end;
      repeat match goal with |- context [if ?b then _ else _] => destruct b end;
      first [exists k; lia | exists (k + 1); lia | exists (k + 2); lia | exists (k + 3); lia
            | exists (k + 4); lia | exists (k + 5); lia | exists (k + 6); lia
            | exists (k + 7); lia ]. }
  split; [exact Hall|].
  unfold analyzeTone. cbn [confidence].
  rewrite toneScores_sentences in Hall |- *.
  apply scores_nonneg in Hall. apply confidence_range; apply Hall.
Qed.

Lemma casual_dominant (a b c d e : Z) :
  match dominantTone (scoresOf a b c d e) with
  | Some t => t
  | None => professional
  end = casual ->
  (a < b)%Z /\ (c <= b)%Z.
Proof.
  destruct (dominantTone_scoresOf a b c d e) as (t & -> & Hmax & Hfirst). intros ->.
  pose proof (Hmax confident) as Hconfident.
  pose proof (Hfirst formal (Nat.lt_0_succ 0)) as Hformal.
  cbn in Hconfident, Hformal. now split.
Qed.

Lemma tone_detected_dominant (text documentId : string) (nowMs : Z) (nowIso random : string) :
  tone_detected (analyzeTone text documentId nowMs nowIso random)
  = match dominantTone (toneScores text) with
    | Some t => t
    | None => professional
    end.
Proof. reflexivity. Qed.

(** X21.  Casual is reported only for a text that holds a word of the
    casual lexicon or a contraction: short sentences alone never make a text
    casual. *)
Theorem casual_needs_a_casual_marker :
  forall (text documentId : string) (nowMs : Z) (nowIso random : string),
    tone_detected (analyzeTone text documentId nowMs nowIso random) = casual ->
    (0 < countMatches (Js.toLowerCase text) casualIndicators)%Z
    \/ hasContractions text = true.
Proof.
  intros text documentId nowMs nowIso random H.
  rewrite tone_detected_dominant, toneScores_sentences in H.
  apply casual_dominant in H as [Hformal Hconfident].
  destruct (hasContractions text); [right; reflexivity | left].
  rewrite declarative_when_sentence in Hconfident.
  destruct (countMatches_fives (Js.toLowerCase text) formalIndicators) as (kf & Ef).
  destruct (countMatches_fives (Js.toLowerCase text) confidentIndicators) as (kc & Ec).
  rewrite Ef in Hformal. rewrite Ec in Hconfident.
  destruct (onlyBlankOrPunctuation text) eqn:E.
  - rewrite (no_sentence_is_not_short text E) in Hformal.
    destruct (hasComplexSentences _), (hasPassiveVoice _); lia.
  - cbn [negb] in Hconfident.
    destruct (hasShortSentences _); lia.
Qed.

Lemma casual_needs_a_casual_marker_witness :
  (0 < countMatches
         (Js.toLowerCase
            "Thanks! I definitely think it is cool, you know. The report was submitted.")
         casualIndicators)%Z
  \/ hasContractions
       "Thanks! I definitely think it is cool, you know. The report was submitted." = true.
Proof.
  apply (casual_needs_a_casual_marker
           "Thanks! I definitely think it is cool, you know. The report was submitted."
           "d1" 0 sampleNow "k3j5x0q1z").
  vm_compute. reflexivity.
Defined.

End ToneScores.

(** ** Every run of the retry helper, and the messages of the store *)

Section RetryRuns.

Import AuthStore.

Lemma backoff_waited (delay : Z) (failures : nat) :
  forall attempt : nat,
    waited (backoff delay attempt failures)
    = (delay * (2 ^ Z.of_nat (attempt + failures) - 2 ^ Z.of_nat attempt))%Z
    /\ calls (backoff delay attempt failures) = S failures.
Proof.
  induction failures as [|n IH]; intros attempt; cbn [backoff waited calls].
  - rewrite Nat.add_0_r. split; [lia | reflexivity].
  - destruct (IH (S attempt)) as [-> ->]. split; [|reflexivity].
    replace (attempt + S n) with (S attempt + n) by lia.
    replace (Z.of_nat (S attempt)) with (Z.of_nat attempt + 1)%Z by lia.
    rewrite Z.pow_add_r by lia. change (2 ^ 1)%Z with 2%Z. lia.
Qed.

Lemma retryLoop_settles {T : Type} (operation : nat -> Settled T) (maxRetries : nat) (delay : Z) :
  forall (remaining attempt : nat) (lastError : Thrown),
    attempt + remaining = S maxRetries ->
    0 < remaining ->
    exists k,
      attempt <= k <= maxRetries
      /\ retryLoop operation maxRetries delay lastError remaining attempt
         = (operation k, backoff delay attempt (k - attempt))
      /\ (forall i, attempt <= i < k ->
                    exists e, operation i = Rejected e /\ isRetryableError e = true)
      /\ match operation k with
         | Resolved _ => True
         | Rejected e => isRetryableError e = false \/ k = maxRetries
         end.
Proof.
  induction remaining as [|r IH]; intros attempt lastError Hsum Hpos; [lia|].
  cbn [retryLoop]. destruct (operation attempt) as [value|error] eqn:Hop.
  - exists attempt. rewrite Nat.sub_diag, Hop. cbn [backoff].
    repeat split; try lia; try (intros i Hi; lia).
  - destruct (isRetryableError error) eqn:Hretry; cbn [negb orb].
    + destruct (attempt =? maxRetries)%nat eqn:Hlast.
      * apply Nat.eqb_eq in Hlast. exists attempt. rewrite Nat.sub_diag, Hop. cbn [backoff].
        repeat split; try lia; try (intros i Hi; lia); try (now right).
      * apply Nat.eqb_neq in Hlast.
        destruct (IH (S attempt) error) as (k & Hk & Hloop & Hfail & Hstop); [lia | lia |].
        exists k. rewrite Hloop. split; [lia|]. split.
        -- replace (k - attempt) with (S (k - S attempt)) by lia. reflexivity.
        -- split; [|exact Hstop]. intros i Hi.
           destruct (Nat.eq_dec i attempt) as [->|Hne]; [now exists error|].
           apply Hfail. lia.
    + exists attempt. rewrite Nat.sub_diag, Hop. cbn [backoff].
      repeat split; try lia; try (intros i Hi; lia); try (now left).
Qed.

(** X22.  Whatever the operation does and whatever the number of retries
    allowed, the helper settles as one of its calls settled: the call
    number [k], with [k] at most [maxRetries], after [k] failures that
    were all retryable; it has made [k + 1] calls and waited
    [delay * (2^k - 1)] milliseconds in all; and the call it stopped at
    succeeded, or failed with an error that is not retryable, or was the
    last one allowed.  It never throws anything else than the error of its
    last call. *)
Theorem retry_settles_as_its_last_call :
  forall (T : Type) (operation : nat -> Settled T) (maxRetries : nat) (delay : Z),
    exists k,
      k <= maxRetries
      /\ retryOperation operation maxRetries delay = (operation k, backoff delay 0 k)
      /\ (forall i, i < k -> exists e, operation i = Rejected e /\ isRetryableError e = true)
      /\ match operation k with
         | Resolved _ => True
         | Rejected e => isRetryableError e = false \/ k = maxRetries
         end
      /\ calls (snd (retryOperation operation maxRetries delay)) = S k
      /\ waited (snd (retryOperation operation maxRetries delay))
         = (delay * (2 ^ Z.of_nat k - 1))%Z.
Proof.
  intros T operation maxRetries delay. unfold retryOperation.
  destruct (retryLoop_settles operation maxRetries delay (S maxRetries) 0 Nullish)
    as (k & Hk & Hloop & Hfail & Hstop); [lia | lia |].
  rewrite Nat.sub_0_r in Hloop.
  exists k. rewrite Hloop. cbn [snd].
  destruct (backoff_waited delay k 0) as [Hw Hc].
  split; [lia|]. split; [reflexivity|].
  split; [intros i Hi; apply Hfail; lia|]. split; [exact Hstop|].
  split; [exact Hc|].
  rewrite Hw. cbn [Nat.add]. change (2 ^ Z.of_nat 0)%Z with 1%Z. reflexivity.
Qed.

Lemma literal_length (s : string) (n : Z) :
  Z.of_nat (String.length s) = n -> (n < 100)%Z -> (Js.len s < 100)%Z.
Proof. unfold Js.len. intros -> H. exact H. Qed.

(** X23.  Whatever is thrown, the message [handleAuthError] returns is
    shorter than 100 characters: it is one of its eight own messages, or
    the message of the error itself, and then that message is not empty
    and is shorter than 100 characters. *)
Theorem auth_error_message_is_short :
  forall error : Thrown,
    (Js.len (AuthErrors.handleAuthError error) < 100)%Z
    /\ (In (AuthErrors.handleAuthError error) ownMessages
        \/ exists message toStringResult,
             error = ErrorObject message toStringResult
             /\ message <> EmptyString
             /\ AuthErrors.handleAuthError error = message).
Proof.
  intros error. unfold AuthErrors.handleAuthError, AuthErrors.unexpected.
  destruct error as [|message toStringResult].
  { split; [now apply (literal_length _ 47) | left; simpl; tauto]. }
  destruct (String.eqb message "") eqn:Hempty.
  { split; [now apply (literal_length _ 47) | left; simpl; tauto]. }
  apply String.eqb_neq in Hempty.
  repeat match goal with
         | |- context [if ?b then _ else _] =>
             destruct b eqn:?;
             [split; [eapply literal_length; [reflexivity | reflexivity]
                     | left; simpl; tauto]|]
         end.
  destruct (Js.len message <? 100)%Z eqn:Hshort.
  - apply Z.ltb_lt in Hshort. split; [exact Hshort|].
    right. now exists message, toStringResult.
  - split; [now apply (literal_length _ 47) | left; simpl; tauto].
Qed.

End RetryRuns.

(** ** Every call of the debounced analysis is answered at most once *)

Section Deliveries.

Import SuggestionEngine.









End Deliveries.
